(** * Registries of lifecycle callbacks: [hook.go] and [shutdown.go]

    A shallow embedding of the three dispatchers of the repository:

    - [Hook]: package [hook], the [Registry] whose [Run] copies the list of
      hooks and keeps it registered;
    - [HookClear]: the revision of the same file whose [Run] takes the list
      and reslices the registry to length zero before running;
    - [Shutdown]: package [shutdown], the singleton [shutdowner] whose
      [Shutdown] holds the mutex for the whole call and selects on the
      context.

    Goroutines are modelled by an interleaving semantics: a run is a state
    machine whose transitions are chosen by a schedule, a list of events
    (one step of the calling goroutine, the body of the k-th launched
    goroutine, the cancellation of the context, a call of [Add] or [Clear]
    from another goroutine).  Statements quantify over every schedule. *)

From stdpp Require Import base list strings numbers.

Set Default Proof Using "Type".
Set Warnings "-register-all".
Open Scope string_scope.
Open Scope Z_scope.
Open Scope list_scope.
Open Scope nat_scope.

(** ** Errors ([errors], [fmt], [context]) *)

(** Non-nil error values.  [ErrorString] is what [errors.New] and
    [fmt.Errorf] without a wrapping verb build, [JoinError] is the value
    built by [errors.Join]. *)
Inductive err : Type :=
| ErrorString (msg : string)
| JoinError (errs : list err).

(** A Go value of interface type [error]: [None] is [nil]. *)
Definition error : Type := option err.

(** [errors.Join]: discards the nil arguments; nil when none is left. *)
Definition Join (errs : list error) : error :=
  match omap id errs with
  | [] => None
  | es => Some (JoinError es)
  end.

(** The method [Unwrap() []error] of the joined error: the underlying
    failures of a combined error. *)
Definition Unwrap (e : error) : list err :=
  match e with
  | Some (JoinError es) => es
  | _ => []
  end.

(** [fmt.Errorf("hook function panic: %v", r)], with the recovered value
    given by its rendering. *)
Definition panic_error (v : string) : err :=
  ErrorString ("hook function panic: " +:+ v).

Definition Canceled : err := ErrorString "context canceled".
Definition DeadlineExceeded : err := ErrorString "context deadline exceeded".

(** ** Callbacks *)

(** What one invocation [fn(ctx)] does, as far as the dispatcher can see:
    it returns an error value, it panics with a value, or it has not
    returned (it is blocked; it may be resumed later). *)
Inductive outcome : Type :=
| Return (e : error)
| Panic (v : string)
| Block.

(** [func(context.Context) error].  The body sees the context through
    [ctx.Err()] at the moment it runs; [None] is the nil function value. *)
Definition Callback : Type := option (error → outcome).

Definition nil_deref : string :=
  "runtime error: invalid memory address or nil pointer dereference".

(** [fn(ctx)] *)
Definition call (fn : Callback) (ctxErr : error) : outcome :=
  match fn with
  | Some body => body ctxErr
  | None => Panic nil_deref
  end.

(** The state of a launched goroutine: still in its callback, or finished
    with the outcome of the callback. *)
Inductive status : Type :=
| running
| finished (o : outcome).

Record task : Type := Task { t_fn : Callback; t_status : status }.

Definition is_finished (t : task) : bool :=
  match t_status t with finished _ => true | running => false end.

(** The exits of a dispatcher, by the [return] statement taken. *)
Inductive exit : Type :=
| exit_empty      (* [len(...) == 0]: return nil *)
| exit_ctx        (* [ctx.Err() != nil] before launching *)
| exit_join       (* all tasks waited for, channel drained *)
| exit_closed     (* [Shutdown]: the channel was found closed *)
| exit_done.      (* [Shutdown]: [<-ctx.Done()] was selected *)

(** ** Slices over a heap of backing arrays *)

(** A slice header.  The code never reslices with a lower bound, so the
    header points at the start of its backing array. *)
Record slice : Type := Slice { ptr : nat; len : nat; cap : nat }.

(** The backing arrays, by address. *)
Abbreviation heap := (list (list Callback)).

(** [s[i]]; [None] is the run-time panic "index out of range". *)
Definition index (h : heap) (s : slice) (i : Z) : option Callback :=
  if decide (0 ≤ i < Z.of_nat (len s))%Z
  then (h !! ptr s) ≫= (λ a, a !! Z.to_nat i)
  else None.

(** The elements of a slice, in order. *)
Definition elems (h : heap) (s : slice) : list Callback :=
  take (len s) (default [] (h !! ptr s)).

(** [make([]T, n, c)] *)
Definition make (h : heap) (n c : nat) : heap * slice :=
  (h ++ [replicate c None], Slice (length h) n c).

(** [copy(dst, src)] *)
Definition copy (h : heap) (dst src : slice) : heap :=
  alter (list_inserts 0 (take (len dst) (elems h src))) (ptr dst) h.

(** [s[:0]] *)
Definition reslice0 (s : slice) : slice := Slice (ptr s) 0 (cap s).

Section Append.
(** The capacity the runtime chooses when [append] must reallocate, from
    the old capacity and the needed length; it is at least the needed
    length, whatever the policy. *)
Variable growcap : nat → nat → nat.

(** [append(s, xs...)]: in place when the capacity suffices, otherwise
    into a new backing array. *)
Definition append (h : heap) (s : slice) (xs : list Callback) : heap * slice :=
  let n := len s + length xs in
  if decide (n ≤ cap s)
  then (alter (list_inserts (len s) xs) (ptr s) h, Slice (ptr s) n (cap s))
  else
    let c := n `max` growcap (cap s) n in
    (h ++ [elems h s ++ xs ++ replicate (c - n) None], Slice (length h) n c).
End Append.

(** A slice is valid in a heap when its backing array exists and is as long
    as its capacity. *)
Definition valid (h : heap) (s : slice) : Prop :=
  len s ≤ cap s ∧ ∃ a, h !! ptr s = Some a ∧ length a = cap s.

(** What a finished goroutine that recovers from panics has sent on the
    error channel: the non-nil error its callback returned, or the error
    made from the recovered panic. *)
Definition sends (o : outcome) : list error :=
  match o with
  | Return (Some e) => [Some e]
  | Return None => []
  | Panic v => [Some (panic_error v)]
  | Block => []
  end.

Definition recorded (t : task) : list error :=
  match t_status t with
  | finished o => sends o
  | running => []
  end.

(** A finished task holds an outcome of its own callback. *)
Definition own_outcome (t : task) : Prop :=
  match t_status t with
  | finished o => o ≠ Block ∧ ∃ c, call (t_fn t) c = o
  | running => True
  end.

(** [behaves f o]: every invocation of the callback [f] has the outcome
    [o], whatever the context. *)
Definition behaves (f : Callback) (o : outcome) : Prop :=
  ∀ c, call f c = o.

(** [returns f r]: the callback [f] returns [r]. *)
Definition returns (f : Callback) (r : error) : Prop := behaves f (Return r).

(** The failures a recovering dispatcher collects from the outcomes [os]. *)
Definition failures (os : list outcome) : list err :=
  omap id (concat (sends <$> os)).

(** A callback that does not block: every invocation returns or panics. *)
Definition terminating (f : Callback) : Prop :=
  ∀ c, call f c ≠ Block.

(** A callback that never panics. *)
Definition no_panic (f : Callback) : Prop :=
  ∀ c v, call f c ≠ Panic v.

(** The result of an aggregation over the failures [M]: nil when there is
    none, otherwise one joined error whose underlying failures are those of
    [M], in some order. *)
Definition aggregates (r : error) (M : list err) : Prop :=
  match M with
  | [] => r = None
  | _ => ∃ es, r = Some (JoinError es) ∧ es ≡ₚ M
  end.

(** ** Package [hook]: the registry whose [Run] keeps the hooks *)

Module Hook.

Abbreviation HookFunc := Callback.

(** [type Registry struct { mu sync.Mutex; hooks []HookFunc }].  The mutex
    is modelled by the atomicity of the sections it protects. *)
Record Registry : Type := { hooks : slice }.

(** The objects of the program: backing arrays and registries, by address. *)
Record memory : Type := Memory { arrays : heap; objects : list Registry }.

(** [New()]: a new registry over a new backing array of capacity 10. *)
Definition New (m : memory) : memory * nat :=
  let '(h, s) := make (arrays m) 0 10 in
  (Memory h (objects m ++ [{| hooks := s |}]), length (objects m)).

(** [r.Len()] *)
Definition Len (r : Registry) : Z := Z.of_nat (len (hooks r)).

(** [r.IsEmpty()] *)
Definition IsEmpty (r : Registry) : bool := (Len r =? 0)%Z.

(** [r.Clear()] *)
Definition Clear (r : Registry) : Registry := {| hooks := reslice0 (hooks r) |}.

(** The program counter of the goroutine that called [Run]. *)
Inductive pc : Type :=
| Checks                          (* after the unlock, before line 78 *)
| Loop (i : Z)                    (* line 93, about to test [i >= 0] *)
| Wait                            (* line 108, [wg.Wait()] *)
| Returned (x : exit) (r : error)
| Panicked (v : string).          (* the goroutine panicked *)

Record state : Type := State {
  st_heap : heap;
  st_reg : Registry;              (* [*r] *)
  st_ctx : error;                 (* [ctx.Err()] *)
  st_pc : pc;
  st_hooks : slice;               (* the local [hooks] *)
  st_wg : nat;                    (* the counter of [wg] *)
  st_errChan : list error;        (* the buffer of [errChan], oldest first *)
  st_tasks : list task            (* the goroutines, in launch order *)
}.

Definition set_pc (p : pc) (st : state) : state :=
  State (st_heap st) (st_reg st) (st_ctx st) p (st_hooks st) (st_wg st)
    (st_errChan st) (st_tasks st).

(** The events a schedule is made of. *)
Inductive event : Type :=
| Main                            (* the caller of [Run] takes a step *)
| Go (k : nat)                    (* the k-th launched goroutine runs *)
| Cancel (e : err)                (* the context is cancelled *)
| OtherAdd (funcs : list HookFunc)  (* another goroutine calls [r.Add] *)
| OtherClear.                     (* another goroutine calls [r.Clear] *)

Section Run.
Variable growcap : nat → nat → nat.

(** [r.Add(funcs...)] *)
Definition Add (h : heap) (r : Registry) (funcs : list HookFunc) : heap * Registry :=
  let '(h', s) := append growcap h (hooks r) funcs in (h', {| hooks := s |}).

(** [r.Add] on the registry at an address. *)
Definition AddAt (p : nat) (funcs : list HookFunc) (m : memory) : memory :=
  match objects m !! p with
  | Some r =>
      let '(h, r') := Add (arrays m) r funcs in Memory h (<[p := r']> (objects m))
  | None => m
  end.

(** [r.Len()] on the registry at an address. *)
Definition LenAt (p : nat) (m : memory) : option Z := Len <$> objects m !! p.

(** Lines 73-76: under the lock, a new slice of the length of [r.hooks] and
    a copy of its elements. *)
Definition Run_begin (h : heap) (r : Registry) (ctx : error) : state :=
  let '(h1, s) := make h (len (hooks r)) (len (hooks r)) in
  State (copy h1 s (hooks r)) r ctx Checks s 0 [] [].

(** One step of the caller. *)
Definition main_step (st : state) : state :=
  match st_pc st with
  | Checks =>
      if decide (len (st_hooks st) = 0) then set_pc (Returned exit_empty None) st
      else match st_ctx st with
           | Some e => set_pc (Returned exit_ctx (Some e)) st
           | None =>
               State (st_heap st) (st_reg st) (st_ctx st)
                 (Loop (Z.of_nat (len (st_hooks st)) - 1)) (st_hooks st)
                 (st_wg st + len (st_hooks st)) (st_errChan st) (st_tasks st)
           end
  | Loop i =>
      if decide (0 ≤ i)%Z then
        match index (st_heap st) (st_hooks st) i with
        | Some fn =>
            State (st_heap st) (st_reg st) (st_ctx st) (Loop (i - 1))
              (st_hooks st) (st_wg st) (st_errChan st)
              (st_tasks st ++ [Task fn running])
        | None => set_pc (Panicked "runtime error: index out of range") st
        end
      else set_pc Wait st
  | Wait =>
      if decide (st_wg st = 0)
      then set_pc (Returned exit_join (Join (st_errChan st))) st
      else st
  | Returned _ _ | Panicked _ => st
  end.

(** The goroutine of lines 94-105, run when its callback can finish. *)
Definition go_step (k : nat) (st : state) : state :=
  match st_tasks st !! k with
  | Some (Task fn running) =>
      match call fn (st_ctx st) with
      | Block => st
      | o =>
          match st_wg st with
          | 0 => set_pc (Panicked "sync: negative WaitGroup counter") st
          | S w =>
              State (st_heap st) (st_reg st) (st_ctx st) (st_pc st)
                (st_hooks st) w (st_errChan st ++ sends o)
                (<[k := Task fn (finished o)]> (st_tasks st))
          end
      end
  | _ => st
  end.

Definition step (ev : event) (st : state) : state :=
  match ev with
  | Main => main_step st
  | Go k => go_step k st
  | Cancel e =>
      match st_ctx st with
      | None =>
          State (st_heap st) (st_reg st) (Some e) (st_pc st) (st_hooks st)
            (st_wg st) (st_errChan st) (st_tasks st)
      | Some _ => st
      end
  | OtherAdd funcs =>
      let '(h, r) := Add (st_heap st) (st_reg st) funcs in
      State h r (st_ctx st) (st_pc st) (st_hooks st) (st_wg st)
        (st_errChan st) (st_tasks st)
  | OtherClear =>
      State (st_heap st) (Clear (st_reg st)) (st_ctx st) (st_pc st)
        (st_hooks st) (st_wg st) (st_errChan st) (st_tasks st)
  end.

(** The state after a schedule. *)
Definition exec (s : list event) (st : state) : state := foldl (flip step) st s.

End Run.

(** What [Run] has returned, if it has. *)
Definition result (st : state) : option error :=
  match st_pc st with Returned _ r => Some r | _ => None end.

(** The callbacks launched so far, in launch order. *)
Definition launched (st : state) : list HookFunc := t_fn <$> st_tasks st.

(** A schedule that lets a run over [n] hooks finish: the caller up to
    [wg.Wait()], every goroutine, the caller again. *)
Definition finish (n : nat) : list event :=
  replicate (n + 2) Main ++ (Go <$> seq 0 n) ++ [Main].

End Hook.

(** ** Package [hook], the revision whose [Run] clears the registry first *)

Module HookClear.

Abbreviation HookFunc := Callback.

(** [type Registry struct { mu sync.Mutex; funcs []HookFunc }] *)
Record Registry : Type := { funcs : slice }.

Inductive pc : Type :=
| Checks                          (* after the unlock, before [len(funcs) == 0] *)
| Loop (i : Z)                    (* about to test [i >= 0] *)
| Wait                            (* [wg.Wait()] *)
| Returned (x : exit) (r : error)
| Panicked (v : string).

Record state : Type := State {
  st_heap : heap;
  st_reg : Registry;              (* [*r] *)
  st_ctx : error;                 (* [ctx.Err()] *)
  st_pc : pc;
  st_funcs : slice;               (* the local [funcs] *)
  st_wg : nat;
  st_errorCh : list error;
  st_tasks : list task
}.

Definition set_pc (p : pc) (st : state) : state :=
  State (st_heap st) (st_reg st) (st_ctx st) p (st_funcs st) (st_wg st)
    (st_errorCh st) (st_tasks st).

Inductive event : Type :=
| Main
| Go (k : nat)
| Cancel (e : err)
| OtherAdd (funcs : list HookFunc).

(** [New()] *)
Definition New (h : heap) : heap * Registry :=
  let '(h', s) := make h 0 10 in (h', {| funcs := s |}).

Section Run.
Variable growcap : nat → nat → nat.

(** [r.Add(funcs...)] *)
Definition Add (h : heap) (r : Registry) (fs : list HookFunc) : heap * Registry :=
  let '(h', s) := append growcap h (funcs r) fs in (h', {| funcs := s |}).

(** Under the lock: [funcs := r.funcs] shares the backing array with
    [r.funcs = r.funcs[:0]]. *)
Definition Run_begin (h : heap) (r : Registry) (ctx : error) : state :=
  State h {| funcs := reslice0 (funcs r) |} ctx Checks (funcs r) 0 [] [].

Definition main_step (st : state) : state :=
  match st_pc st with
  | Checks =>
      if decide (len (st_funcs st) = 0) then set_pc (Returned exit_empty None) st
      else match st_ctx st with
           | Some e => set_pc (Returned exit_ctx (Some e)) st
           | None => set_pc (Loop (Z.of_nat (len (st_funcs st)) - 1)) st
           end
  | Loop i =>
      if decide (0 ≤ i)%Z then
        match st_ctx st with
        | Some e =>
            (* [errorCh <- err; break] *)
            State (st_heap st) (st_reg st) (st_ctx st) Wait (st_funcs st)
              (st_wg st) (st_errorCh st ++ [Some e]) (st_tasks st)
        | None =>
            match index (st_heap st) (st_funcs st) i with
            | Some fn =>
                State (st_heap st) (st_reg st) (st_ctx st) (Loop (i - 1))
                  (st_funcs st) (S (st_wg st)) (st_errorCh st)
                  (st_tasks st ++ [Task fn running])
            | None => set_pc (Panicked "runtime error: index out of range") st
            end
        end
      else set_pc Wait st
  | Wait =>
      if decide (st_wg st = 0) then
        let hookErrs := filter (λ e : error, e ≠ None) (st_errorCh st) in
        if decide (length hookErrs = 0)
        then set_pc (Returned exit_join None) st
        else set_pc (Returned exit_join (Join hookErrs)) st
      else st
  | Returned _ _ | Panicked _ => st
  end.

Definition go_step (k : nat) (st : state) : state :=
  match st_tasks st !! k with
  | Some (Task fn running) =>
      match call fn (st_ctx st) with
      | Block => st
      | o =>
          match st_wg st with
          | 0 => set_pc (Panicked "sync: negative WaitGroup counter") st
          | S w =>
              State (st_heap st) (st_reg st) (st_ctx st) (st_pc st)
                (st_funcs st) w (st_errorCh st ++ sends o)
                (<[k := Task fn (finished o)]> (st_tasks st))
          end
      end
  | _ => st
  end.

Definition step (ev : event) (st : state) : state :=
  match ev with
  | Main => main_step st
  | Go k => go_step k st
  | Cancel e =>
      match st_ctx st with
      | None =>
          State (st_heap st) (st_reg st) (Some e) (st_pc st) (st_funcs st)
            (st_wg st) (st_errorCh st) (st_tasks st)
      | Some _ => st
      end
  | OtherAdd fs =>
      let '(h, r) := Add (st_heap st) (st_reg st) fs in
      State h r (st_ctx st) (st_pc st) (st_funcs st) (st_wg st)
        (st_errorCh st) (st_tasks st)
  end.

Definition exec (s : list event) (st : state) : state := foldl (flip step) st s.

End Run.

Definition result (st : state) : option error :=
  match st_pc st with Returned _ r => Some r | _ => None end.

Definition launched (st : state) : list HookFunc := t_fn <$> st_tasks st.

(** [len(r.funcs)], the number of registered hooks. *)
Definition Len (r : Registry) : Z := Z.of_nat (len (funcs r)).

Definition is_add (ev : event) : bool :=
  match ev with OtherAdd _ => true | _ => false end.

End HookClear.

(** ** Package [shutdown] *)

Module Shutdown.

Abbreviation ShutdownFunc := Callback.

(** [type shutdowner struct { mu sync.Mutex; funcs []ShutdownFunc }].  No
    slice header other than [s.funcs] ever points into its backing array,
    so the field is the list of its elements; [nil] is the empty list. *)
Record shutdowner : Type := { funcs : list ShutdownFunc }.

(** The package variables [once] and [inst], and the objects allocated. *)
Record package : Type := Package {
  once : bool;                    (* [once] has run its function *)
  inst : option nat;              (* [inst]; [None] is the nil pointer *)
  objects : list shutdowner
}.

(** The package at program start. *)
Definition package0 : package := Package false None [].

(** [New()]: [once.Do] allocates the instance the first time only. *)
Definition New (p : package) : package * option nat :=
  let p' :=
    if once p then p
    else Package true (Some (length (objects p))) (objects p ++ [{| funcs := [] |}]) in
  (p', inst p').

(** [s.Add(funcs...)] *)
Definition Add (s : shutdowner) (fs : list ShutdownFunc) : shutdowner :=
  {| funcs := funcs s ++ fs |}.

(** [s.Len()] *)
Definition Len (s : shutdowner) : Z := Z.of_nat (length (funcs s)).

(** [s.Clear()] *)
Definition Clear (s : shutdowner) : shutdowner := {| funcs := [] |}.

(** The methods through the interface value returned by [New]. *)
Definition AddAt (a : option nat) (fs : list ShutdownFunc) (p : package) : package :=
  match a with
  | Some i => Package (once p) (inst p) (alter (λ s, Add s fs) i (objects p))
  | None => p
  end.

Definition LenAt (a : option nat) (p : package) : option Z :=
  a ≫= (λ i, Len <$> objects p !! i).

Inductive pc : Type :=
| Start                           (* the lock is held, before line 58 *)
| Loop (i : Z)                    (* line 67, about to test [i >= 0] *)
| Select                          (* line 84 *)
| Returned (x : exit) (r : error)
| Panicked (v : string).          (* the runtime has ended the process for
                                     the unrecovered panic [v] *)

Record state : Type := State {
  st_self : shutdowner;           (* [*s] *)
  st_ctx : error;                 (* [ctx.Err()] *)
  st_pc : pc;
  st_wg : nat;
  st_errs : list error;           (* the buffer of [errs] *)
  st_closed : bool;               (* [errs] is closed *)
  st_shutdownErrs : list error;
  st_tasks : list task
}.

Definition set_pc (p : pc) (st : state) : state :=
  State (st_self st) (st_ctx st) p (st_wg st) (st_errs st) (st_closed st)
    (st_shutdownErrs st) (st_tasks st).

(** The case of the [select] the scheduler prefers when both are ready. *)
Inductive branch : Type := recv | done.

Inductive event : Type :=
| Main (c : branch)               (* the caller of [Shutdown] takes a step *)
| Go (k : nat)                    (* the k-th launched goroutine runs *)
| Closer                          (* the goroutine of lines 77-80 runs *)
| Cancel (e : err)                (* the context is cancelled *)
| Crash (k : nat).                (* the runtime ends the process for the
                                     panic of the k-th launched goroutine *)

(** What a goroutine of lines 69-74 has sent on [errs] when it is over: the
    non-nil error its callback returned.  Nothing recovers a panic, so a
    goroutine whose callback panicked has sent nothing. *)
Definition sends (o : outcome) : list error :=
  match o with
  | Return (Some e) => [Some e]
  | _ => []
  end.

Definition recorded (t : task) : list error :=
  match t_status t with
  | finished o => sends o
  | running => []
  end.

(** The failures [Shutdown] can receive from callbacks with the outcomes
    [os]. *)
Definition failures (os : list outcome) : list err :=
  omap id (concat (sends <$> os)).

(** The mutex is held from the first line to the return, so no [Add], [Len]
    or [Clear] of another goroutine takes effect during a run: there is no
    event for them. *)
Definition Shutdown_begin (s : shutdowner) (ctx : error) : state :=
  State s ctx Start 0 [] false [] [].

(** [case err, ok := <-errs] *)
Definition select_recv (st : state) : state :=
  match st_errs st with
  | e :: rest =>
      State (st_self st) (st_ctx st) Select (st_wg st) rest (st_closed st)
        (match e with
         | Some _ => st_shutdownErrs st ++ [e]
         | None => st_shutdownErrs st
         end)
        (st_tasks st)
  | [] =>
      (* the channel is closed and drained: [s.funcs = nil] *)
      State {| funcs := [] |} (st_ctx st)
        (Returned exit_closed (Join (st_shutdownErrs st))) (st_wg st) []
        (st_closed st) (st_shutdownErrs st) (st_tasks st)
  end.

(** [case <-ctx.Done()] *)
Definition select_done (st : state) : state :=
  set_pc (Returned exit_done (Join (st_shutdownErrs st ++ [st_ctx st]))) st.

Definition can_recv (st : state) : bool :=
  negb (bool_decide (st_errs st = [])) || st_closed st.

Definition can_done (st : state) : bool :=
  bool_decide (st_ctx st ≠ None).

Definition main_step (c : branch) (st : state) : state :=
  match st_pc st with
  | Start =>
      if decide (length (funcs (st_self st)) = 0)
      then set_pc (Returned exit_empty None) st
      else set_pc (Loop (Z.of_nat (length (funcs (st_self st))) - 1)) st
  | Loop i =>
      if decide (0 ≤ i)%Z then
        match (if decide (i < Z.of_nat (length (funcs (st_self st))))%Z
               then funcs (st_self st) !! Z.to_nat i else None) with
        | Some fn =>
            State (st_self st) (st_ctx st) (Loop (i - 1)) (S (st_wg st))
              (st_errs st) (st_closed st) (st_shutdownErrs st)
              (st_tasks st ++ [Task fn running])
        | None => set_pc (Panicked "runtime error: index out of range") st
        end
      else set_pc Select st
  | Select =>
      match can_recv st, can_done st with
      | true, true => match c with recv => select_recv st | done => select_done st end
      | true, false => select_recv st
      | false, true => select_done st
      | false, false => st
      end
  | Returned _ _ | Panicked _ => st
  end.

(** The goroutine of lines 69-74.  A non-nil error of [fn] is sent; the
    deferred [wg.Done()] runs when the goroutine is over, also when [fn]
    panicked.  Nothing recovers such a panic: the goroutine has sent
    nothing, and once its deferred call is over the runtime ends the
    process (the event [Crash]); until then the other goroutines go on. *)
Definition go_step (k : nat) (st : state) : state :=
  match st_tasks st !! k with
  | Some (Task fn running) =>
      match call fn (st_ctx st) with
      | Block => st
      | o =>
          match st_wg st with
          | 0 => set_pc (Panicked "sync: negative WaitGroup counter") st
          | S w =>
              State (st_self st) (st_ctx st) (st_pc st) w
                (st_errs st ++ sends o)
                (st_closed st) (st_shutdownErrs st)
                (<[k := Task fn (finished o)]> (st_tasks st))
          end
      end
  | _ => st
  end.

(** The runtime ends the process with the panic of the k-th goroutine: its
    callback has panicked, its deferred call is over, nothing recovered. *)
Definition crash_step (k : nat) (st : state) : state :=
  match st_tasks st !! k with
  | Some (Task _ (finished (Panic v))) => set_pc (Panicked v) st
  | _ => st
  end.

(** [wg.Wait(); close(errs)], in a goroutine started after the loop. *)
Definition closer_step (st : state) : state :=
  match st_pc st with
  | Select | Returned exit_closed _ | Returned exit_done _ =>
      if decide (st_wg st = 0) then
        State (st_self st) (st_ctx st) (st_pc st) (st_wg st) (st_errs st) true
          (st_shutdownErrs st) (st_tasks st)
      else st
  | _ => st
  end.

(** One event while the process is alive. *)
Definition live_step (ev : event) (st : state) : state :=
  match ev with
  | Main c => main_step c st
  | Go k => go_step k st
  | Closer => closer_step st
  | Cancel e =>
      match st_ctx st with
      | None =>
          State (st_self st) (Some e) (st_pc st) (st_wg st) (st_errs st)
            (st_closed st) (st_shutdownErrs st) (st_tasks st)
      | Some _ => st
      end
  | Crash k => crash_step k st
  end.

(** Once the runtime has ended the process nothing runs any more. *)
Definition step (ev : event) (st : state) : state :=
  match st_pc st with
  | Panicked _ => st
  | _ => live_step ev st
  end.

Definition exec (s : list event) (st : state) : state := foldl (flip step) st s.

Definition result (st : state) : option error :=
  match st_pc st with Returned _ r => Some r | _ => None end.

Definition launched (st : state) : list ShutdownFunc := t_fn <$> st_tasks st.

Definition is_crash (ev : event) : bool :=
  match ev with Crash _ => true | _ => false end.

(** A schedule that lets a run over [n] callbacks finish when the context
    is not cancelled. *)
Definition finish (n : nat) : list event :=
  replicate (n + 2) (Main recv) ++ (Go <$> seq 0 n) ++ [Closer]
    ++ replicate (n + 1) (Main recv).

End Shutdown.

(** ** Invariants of the runs *)

(** The goroutines that have not finished. *)
Definition waiting (t : task) : nat := if is_finished t then 0 else 1.

Definition pending (ts : list task) : nat := sum_list_with waiting ts.

(** The iterations of the launch loop still to come. *)
Definition hook_unlaunched (p : Hook.pc) : nat :=
  match p with Hook.Loop i => Z.to_nat (i + 1) | _ => 0 end.

(** What holds at each program point of [Hook.Run] over the snapshot [fs]. *)
Definition hook_pc_inv (fs : list Callback) (st : Hook.state) : Prop :=
  match Hook.st_pc st with
  | Hook.Checks => Hook.st_tasks st = []
  | Hook.Loop i =>
      (-1 ≤ i < Z.of_nat (length fs))%Z ∧
      Hook.launched st = reverse (drop (Z.to_nat (i + 1)) fs)
  | Hook.Wait => Hook.launched st = reverse fs
  | Hook.Returned exit_empty r => r = None ∧ fs = [] ∧ Hook.st_tasks st = []
  | Hook.Returned exit_ctx r =>
      fs ≠ [] ∧ r ≠ None ∧ r = Hook.st_ctx st ∧ Hook.st_tasks st = []
  | Hook.Returned exit_join r =>
      Hook.launched st = reverse fs ∧ r = Join (Hook.st_errChan st) ∧
      Hook.st_wg st = 0
  | _ => False
  end.

Record hook_inv (fs : list Callback) (st : Hook.state) : Prop := {
  hook_inv_snap : Hook.st_heap st !! ptr (Hook.st_hooks st) = Some fs;
  hook_inv_len : len (Hook.st_hooks st) = length fs;
  hook_inv_reg : valid (Hook.st_heap st) (Hook.hooks (Hook.st_reg st));
  hook_inv_sep : ptr (Hook.hooks (Hook.st_reg st)) ≠ ptr (Hook.st_hooks st);
  hook_inv_pc : hook_pc_inv fs st;
  hook_inv_wg :
    Hook.st_wg st = hook_unlaunched (Hook.st_pc st) + pending (Hook.st_tasks st);
  hook_inv_chan : Hook.st_errChan st ≡ₚ concat (recorded <$> Hook.st_tasks st);
  hook_inv_own : Forall own_outcome (Hook.st_tasks st)
}.

(** An upper bound of the steps the caller needs to reach [wg.Wait()]. *)
Definition hook_fuel (st : Hook.state) : nat :=
  match Hook.st_pc st with
  | Hook.Checks => len (Hook.st_hooks st) + 2
  | Hook.Loop i => Z.to_nat (i + 1) + 1
  | _ => 0
  end.

(** The j-th goroutine has finished. *)
Definition finished_at (ts : list task) (j : nat) : Prop :=
  ∃ t, ts !! j = Some t ∧ is_finished t = true.

(** What holds at each program point of [Shutdown] over the callbacks [fs]
    registered when it was called. *)
Definition shutdown_pc_inv (fs : list Callback) (st : Shutdown.state) : Prop :=
  match Shutdown.st_pc st with
  | Shutdown.Start =>
      Shutdown.st_tasks st = [] ∧ Shutdown.funcs (Shutdown.st_self st) = fs ∧
      Shutdown.st_closed st = false
  | Shutdown.Loop i =>
      (-1 ≤ i < Z.of_nat (length fs))%Z ∧
      Shutdown.launched st = reverse (drop (Z.to_nat (i + 1)) fs) ∧
      Shutdown.funcs (Shutdown.st_self st) = fs ∧
      Shutdown.st_closed st = false
  | Shutdown.Select =>
      Shutdown.launched st = reverse fs ∧
      Shutdown.funcs (Shutdown.st_self st) = fs
  | Shutdown.Returned exit_empty r =>
      r = None ∧ fs = [] ∧ Shutdown.st_tasks st = [] ∧
      Shutdown.funcs (Shutdown.st_self st) = []
  | Shutdown.Returned exit_closed r =>
      Shutdown.launched st = reverse fs ∧
      r = Join (Shutdown.st_shutdownErrs st) ∧
      Shutdown.st_errs st = [] ∧ Shutdown.st_closed st = true ∧
      Shutdown.funcs (Shutdown.st_self st) = []
  | Shutdown.Returned exit_done r =>
      Shutdown.launched st = reverse fs ∧
      Shutdown.funcs (Shutdown.st_self st) = fs ∧
      Shutdown.st_ctx st ≠ None ∧
      r = Join (Shutdown.st_shutdownErrs st ++ [Shutdown.st_ctx st])
  | Shutdown.Returned _ _ => False
  | Shutdown.Panicked v =>
      Shutdown.launched st `prefix_of` reverse fs ∧
      ∃ t, t ∈ Shutdown.st_tasks st ∧ t_status t = finished (Panic v)
  end.

Record shutdown_inv (fs : list Callback) (st : Shutdown.state) : Prop := {
  shutdown_inv_pc : shutdown_pc_inv fs st;
  shutdown_inv_wg : Shutdown.st_wg st = pending (Shutdown.st_tasks st);
  shutdown_inv_chan :
    Shutdown.st_shutdownErrs st ++ Shutdown.st_errs st
      ≡ₚ concat (Shutdown.recorded <$> Shutdown.st_tasks st);
  shutdown_inv_own : Forall own_outcome (Shutdown.st_tasks st);
  shutdown_inv_closed : Shutdown.st_closed st = true → Shutdown.st_wg st = 0
}.

Definition shutdown_fuel (st : Shutdown.state) : nat :=
  match Shutdown.st_pc st with
  | Shutdown.Start => length (Shutdown.funcs (Shutdown.st_self st)) + 2
  | Shutdown.Loop i => Z.to_nat (i + 1) + 1
  | _ => 0
  end.

(** An upper bound of the receptions the select loop needs once the
    channel is closed. *)
Definition shutdown_drain (st : Shutdown.state) : nat :=
  match Shutdown.st_pc st with
  | Shutdown.Select => length (Shutdown.st_errs st) + 1
  | _ => 0
  end.

Definition is_cancel (ev : Shutdown.event) : bool :=
  match ev with Shutdown.Cancel _ => true | _ => false end.

(** The states of a run of [Hook.Run] that found the context cancelled with
    [e] at its check: nothing is launched. *)
Definition hook_short_circuit (e : err) (st : Hook.state) : Prop :=
  Hook.st_ctx st = Some e ∧ Hook.st_tasks st = [] ∧ Hook.st_wg st = 0 ∧
  Hook.st_errChan st = [] ∧ len (Hook.st_hooks st) ≠ 0 ∧
  (Hook.st_pc st = Hook.Checks ∨
   Hook.st_pc st = Hook.Returned exit_ctx (Some e)).

(** The states of a run of [Hook.Run] over an empty snapshot. *)
Definition hook_idle (st : Hook.state) : Prop :=
  Hook.st_tasks st = [] ∧ Hook.st_wg st = 0 ∧ Hook.st_errChan st = [] ∧
  len (Hook.st_hooks st) = 0 ∧
  (Hook.st_pc st = Hook.Checks ∨ Hook.st_pc st = Hook.Returned exit_empty None).

Definition clear_short_circuit (e : err) (st : HookClear.state) : Prop :=
  HookClear.st_ctx st = Some e ∧ HookClear.st_tasks st = [] ∧
  HookClear.st_wg st = 0 ∧ HookClear.st_errorCh st = [] ∧
  len (HookClear.st_funcs st) ≠ 0 ∧
  (HookClear.st_pc st = HookClear.Checks ∨
   HookClear.st_pc st = HookClear.Returned exit_ctx (Some e)).

Definition clear_idle (st : HookClear.state) : Prop :=
  HookClear.st_tasks st = [] ∧ HookClear.st_wg st = 0 ∧
  HookClear.st_errorCh st = [] ∧ len (HookClear.st_funcs st) = 0 ∧
  (HookClear.st_pc st = HookClear.Checks ∨
   HookClear.st_pc st = HookClear.Returned exit_empty None).

Definition shutdown_idle (st : Shutdown.state) : Prop :=
  Shutdown.st_tasks st = [] ∧ Shutdown.st_wg st = 0 ∧ Shutdown.st_errs st = [] ∧
  Shutdown.st_closed st = false ∧ Shutdown.funcs (Shutdown.st_self st) = [] ∧
  (Shutdown.st_pc st = Shutdown.Start ∨
   Shutdown.st_pc st = Shutdown.Returned exit_empty None).

(** ** Sample inputs *)

(** A growth policy: doubling. *)
Definition sample_growcap (old need : nat) : nat := 2 * old.

(** A callback that succeeds, one that fails with a message, one that
    panics, one that never returns. *)
Definition sample_ok : Callback := Some (λ _, Return None).
Definition sample_ko (msg : string) : Callback :=
  Some (λ _, Return (Some (ErrorString msg))).
Definition sample_boom (v : string) : Callback := Some (λ _, Panic v).
Definition sample_stuck : Callback := Some (λ _, Block).

(** [r := New(); r.Add(stuck)] and [r := New(); r.Add(ok)] in package [hook]. *)
Definition stuck_memory : Hook.memory :=
  Hook.AddAt sample_growcap 0 [sample_stuck] (Hook.New (Hook.Memory [] [])).1.

Definition stuck_registry : Hook.Registry :=
  default {| Hook.hooks := Slice 0 0 0 |} (Hook.objects stuck_memory !! 0).

Definition ok_memory : Hook.memory :=
  Hook.AddAt sample_growcap 0 [sample_ok] (Hook.New (Hook.Memory [] [])).1.

Definition ok_registry : Hook.Registry :=
  default {| Hook.hooks := Slice 0 0 0 |} (Hook.objects ok_memory !! 0).

(** [r := New(); r.Add(ko "a", ok, ko "b")] in package [hook]. *)
Definition sample_memory : Hook.memory :=
  Hook.AddAt sample_growcap 0 [sample_ko "a"; sample_ok; sample_ko "b"]
    (Hook.New (Hook.Memory [] [])).1.

Definition sample_heap : heap := Hook.arrays sample_memory.

Definition sample_registry : Hook.Registry :=
  default {| Hook.hooks := Slice 0 0 0 |} (Hook.objects sample_memory !! 0).

(** [r := New()] in package [hook]. *)
Definition empty_heap : heap := Hook.arrays (Hook.New (Hook.Memory [] [])).1.

Definition empty_registry : Hook.Registry :=
  default {| Hook.hooks := Slice 0 0 0 |}
    (Hook.objects (Hook.New (Hook.Memory [] [])).1 !! 0).

(** [r := New(); r.Add(ko "first", ok)] in the revision that clears. *)
Definition clear_sample : heap * HookClear.Registry :=
  HookClear.Add sample_growcap (HookClear.New []).1 (HookClear.New []).2
    [sample_ko "first"; sample_ok].

Definition clear_empty : heap * HookClear.Registry := HookClear.New [].

(** [s := New(); s.Add(ko "a", ok, ko "b")] in package [shutdown]. *)
Definition sample_shutdowner : Shutdown.shutdowner :=
  Shutdown.Add {| Shutdown.funcs := [] |} [sample_ko "a"; sample_ok; sample_ko "b"].

Definition sample_results : list error :=
  [Some (ErrorString "a"); None; Some (ErrorString "b")].

(** [r := New(); r.Add(ko "a", boom "x", ok)] in package [hook]. *)
Definition panic_memory : Hook.memory :=
  Hook.AddAt sample_growcap 0 [sample_ko "a"; sample_boom "x"; sample_ok]
    (Hook.New (Hook.Memory [] [])).1.

Definition panic_heap : heap := Hook.arrays panic_memory.

Definition panic_registry : Hook.Registry :=
  default {| Hook.hooks := Slice 0 0 0 |} (Hook.objects panic_memory !! 0).

(** ** The registry as a list *)

(** What a schedule does to the list of registered hooks of package [hook]:
    [Add] appends, [Clear] empties, a run leaves it alone. *)
Definition hook_registry_after (s : list Hook.event) (fs : list Callback) :
    list Callback :=
  foldl (λ l ev,
           match ev with
           | Hook.OtherAdd funcs => l ++ funcs
           | Hook.OtherClear => []
           | _ => l
           end) fs s.

(** The same in the revision whose [Run] clears: there is no [Clear]. *)
Definition clear_registry_after (s : list HookClear.event) (fs : list Callback) :
    list Callback :=
  foldl (λ l ev,
           match ev with
           | HookClear.OtherAdd funcs => l ++ funcs
           | _ => l
           end) fs s.

(** What the goroutines send when they finish in the order [done_order],
    given by their launch indices, with the outcomes [os] (in launch
    order). *)
Definition sent_in_order (os : list outcome) (done_order : list nat) : list error :=
  concat ((λ k, default [] (sends <$> os !! k)) <$> done_order).

(** [nil], a hook that fails with [a], a hook that panics with [x]:
    [r := New(); r.Add(nil, ko "a", boom "x")]. *)
Definition nil_memory : Hook.memory :=
  Hook.AddAt sample_growcap 0 [None; sample_ko "a"; sample_boom "x"]
    (Hook.New (Hook.Memory [] [])).1.

Definition nil_heap : heap := Hook.arrays nil_memory.

Definition nil_registry : Hook.Registry :=
  default {| Hook.hooks := Slice 0 0 0 |} (Hook.objects nil_memory !! 0).

(** An upper bound of the steps the caller of [Shutdown] over [n] callbacks
    takes before it returns, once the context is cancelled. *)
Definition shutdown_budget (n : nat) (st : Shutdown.state) : nat :=
  match Shutdown.st_pc st with
  | Shutdown.Start => 2 * n + 3
  | Shutdown.Loop i => Z.to_nat (i + 1) + n + 2
  | Shutdown.Select => length (Shutdown.st_errs st) + 1
  | _ => 0
  end.

(** ** The default registry of package [hook] *)

Module HookDefault.

(** The package variables [defaultOnce] and [defaultRegistry], with the
    objects of the program. *)
Record package : Type := Package {
  defaultOnce : bool;             (* [defaultOnce] has run its function *)
  defaultRegistry : option nat;   (* [defaultRegistry]; [None] is nil *)
  memory : Hook.memory
}.

(** The package at program start. *)
Definition package0 : package := Package false None (Hook.Memory [] []).

(** [New()] *)
Definition New (p : package) : package * nat :=
  let '(m, r) := Hook.New (memory p) in
  (Package (defaultOnce p) (defaultRegistry p) m, r).

(** [Default()]: [defaultOnce.Do] calls [New] the first time only. *)
Definition Default (p : package) : package * option nat :=
  let p' :=
    if defaultOnce p then p
    else let '(p1, r) := New p in Package true (Some r) (memory p1) in
  (p', defaultRegistry p').

(** [Add] and [Len] through a pointer; nothing happens on nil in the model
    (the program would panic). *)
Definition AddAt (growcap : nat → nat → nat) (a : option nat)
    (funcs : list Callback) (p : package) : package :=
  match a with
  | Some r =>
      Package (defaultOnce p) (defaultRegistry p)
        (Hook.AddAt growcap r funcs (memory p))
  | None => p
  end.

Definition LenAt (a : option nat) (p : package) : option Z :=
  a ≫= (λ r, Hook.LenAt r (memory p)).

(** The default registry, once made, is an object of the memory. *)
Definition wf (p : package) : Prop :=
  match defaultRegistry p with
  | Some r => defaultOnce p = true ∧ r < length (Hook.objects (memory p))
  | None => defaultOnce p = false
  end.

End HookDefault.

(** ** Invariants of the run that clears *)

(** After the launch loop of [HookClear.Run]: either every hook of the
    snapshot [fs] was launched, or the loop met the cancelled context, sent
    its error and stopped after [j] launches. *)
Definition clear_after_loop (fs : list Callback) (st : HookClear.state) : Prop :=
  (HookClear.launched st = reverse fs ∧
   HookClear.st_errorCh st ≡ₚ concat (recorded <$> HookClear.st_tasks st)) ∨
  (∃ e j,
     HookClear.st_ctx st = Some e ∧ j < length fs ∧
     HookClear.launched st = take j (reverse fs) ∧
     HookClear.st_errorCh st
       ≡ₚ (Some e : error) :: concat (recorded <$> HookClear.st_tasks st)).

Definition clear_pc_inv (fs : list Callback) (st : HookClear.state) : Prop :=
  match HookClear.st_pc st with
  | HookClear.Checks => HookClear.st_tasks st = [] ∧ HookClear.st_errorCh st = []
  | HookClear.Loop i =>
      (-1 ≤ i < Z.of_nat (length fs))%Z ∧
      HookClear.launched st = reverse (drop (Z.to_nat (i + 1)) fs) ∧
      HookClear.st_errorCh st ≡ₚ concat (recorded <$> HookClear.st_tasks st)
  | HookClear.Wait => clear_after_loop fs st
  | HookClear.Returned exit_empty r =>
      r = None ∧ fs = [] ∧ HookClear.st_tasks st = []
  | HookClear.Returned exit_ctx r =>
      fs ≠ [] ∧ r ≠ None ∧ r = HookClear.st_ctx st ∧ HookClear.st_tasks st = []
  | HookClear.Returned exit_join r =>
      clear_after_loop fs st ∧ HookClear.st_wg st = 0 ∧
      r = Join (HookClear.st_errorCh st)
  | _ => False
  end.

(** The invariant of a run over the snapshot [fs] during which no other
    goroutine adds to the registry. *)
Record clear_inv (fs : list Callback) (st : HookClear.state) : Prop := {
  clear_inv_len : len (HookClear.st_funcs st) = length fs;
  clear_inv_snap :
    ∀ i, (0 ≤ i < Z.of_nat (length fs))%Z →
         index (HookClear.st_heap st) (HookClear.st_funcs st) i = fs !! Z.to_nat i;
  clear_inv_pc : clear_pc_inv fs st;
  clear_inv_wg : HookClear.st_wg st = pending (HookClear.st_tasks st);
  clear_inv_own : Forall own_outcome (HookClear.st_tasks st)
}.

Definition clear_fuel (st : HookClear.state) : nat :=
  match HookClear.st_pc st with
  | HookClear.Checks => len (HookClear.st_funcs st) + 2
  | HookClear.Loop i => Z.to_nat (i + 1) + 1
  | _ => 0
  end.

(** A schedule that lets a run over [n] hooks finish. *)
Definition clear_finish (n : nat) : list HookClear.event :=
  replicate (n + 2) HookClear.Main ++ (HookClear.Go <$> seq 0 n) ++ [HookClear.Main].

Definition clear_is_cancel (ev : HookClear.event) : bool :=
  match ev with HookClear.Cancel _ => true | _ => false end.

(** A run of the revision that clears whose context is cancelled after the
    first launch: the checks, one launch, the cancellation, the loop's
    send, the goroutine, the wait. *)
Definition clear_cancelled_schedule : list HookClear.event :=
  [HookClear.Main; HookClear.Main; HookClear.Cancel Canceled; HookClear.Main;
   HookClear.Go 0; HookClear.Main].

(** A [Shutdown] over three callbacks that launches them all and returns
    on the cancellation of its context, before any of them has run. *)
Definition shutdown_cancelled_schedule : list Shutdown.event :=
  replicate 5 (Shutdown.Main Shutdown.recv)
    ++ [Shutdown.Cancel Canceled; Shutdown.Main Shutdown.recv].

(** * Proofs *)

(** ** Joined errors *)

Lemma Join_aggregates (errs : list error) (M : list err) :
  omap id errs ≡ₚ M → aggregates (Join errs) M.
Proof.
  intros HP. unfold Join, aggregates.
  destruct M as [|m M].
  - apply Permutation_nil_r in HP. by rewrite HP.
  - destruct (omap id errs) as [|e es] eqn:E.
    + by apply Permutation_nil_cons in HP.
    + eauto.
Qed.

Lemma Unwrap_Join_snoc (errs : list error) (e : err) :
  Unwrap (Join (errs ++ [Some e])) = omap id errs ++ [e].
Proof.
  unfold Join. rewrite omap_app. simpl.
  destruct (omap id errs); reflexivity.
Qed.

(** ** Goroutines *)

Lemma pending_app (ts1 ts2 : list task) :
  pending (ts1 ++ ts2) = pending ts1 + pending ts2.
Proof. apply sum_list_with_app. Qed.

Lemma pending_finish (ts : list task) k fn o :
  ts !! k = Some (Task fn running) →
  pending ts = S (pending (<[k := Task fn (finished o)]> ts)).
Proof.
  revert k. induction ts as [|t ts IH]; intros [|k] Hk; simplify_eq/=.
  - done.
  - unfold pending in *. simpl. rewrite (IH k Hk). lia.
Qed.

Lemma pending_0_finished (ts : list task) :
  pending ts = 0 ↔ Forall (λ t, is_finished t = true) ts.
Proof.
  induction ts as [|t ts IH].
  - split; [constructor | done].
  - change (pending (t :: ts)) with (waiting t + pending ts).
    unfold waiting. split.
    + intros H. constructor; [by destruct (is_finished t)|].
      apply (proj1 IH). destruct (is_finished t); lia.
    + inversion 1 as [|? ? Ht Hts]; subst. rewrite Ht. simpl. by apply (proj2 IH).
Qed.

Lemma recorded_finish (ts : list task) k fn o :
  ts !! k = Some (Task fn running) →
  concat (recorded <$> <[k := Task fn (finished o)]> ts)
    ≡ₚ concat (recorded <$> ts) ++ sends o.
Proof.
  revert k. induction ts as [|t ts IH]; intros [|k] Hk; simplify_eq/=.
  - unfold recorded at 1 2. simpl. apply Permutation_app_comm.
  - rewrite (IH k Hk). by rewrite (assoc_L (++)).
Qed.

Lemma fns_update (ts : list task) k fn s s' :
  ts !! k = Some (Task fn s) →
  t_fn <$> <[k := Task fn s']> ts = t_fn <$> ts.
Proof.
  intros Hk. rewrite list_fmap_insert. simpl. apply list_insert_id.
  by rewrite list_lookup_fmap, Hk.
Qed.

Lemma own_outcome_finish (ts : list task) k fn c :
  call fn c ≠ Block →
  Forall own_outcome ts →
  Forall own_outcome (<[k := Task fn (finished (call fn c))]> ts).
Proof.
  intros Hb Hts. apply Forall_insert; [done|]. unfold own_outcome. simpl. eauto.
Qed.

(** ** Slices *)

Section SliceLemmas.
Variable growcap : nat → nat → nat.

Lemma append_len h s xs : len (append growcap h s xs).2 = len s + length xs.
Proof. unfold append. by case_decide. Qed.

Lemma append_valid h s xs :
  valid h s → valid (append growcap h s xs).1 (append growcap h s xs).2.
Proof.
  intros (Hle & a & Ha & Hlen). unfold append, valid. case_decide; simpl.
  - split; [done|]. exists (list_inserts (len s) xs a).
    rewrite list_lookup_alter_eq, Ha. split; [done|]. by rewrite length_inserts.
  - split; [lia|]. eexists. rewrite lookup_app_r, Nat.sub_diag by done.
    split; [done|]. unfold elems. rewrite Ha. simpl.
    rewrite !length_app, length_take, length_replicate. lia.
Qed.

Lemma append_other h s xs p :
  p ≠ ptr s → p < length h → (append growcap h s xs).1 !! p = h !! p.
Proof.
  intros Hp Hlt. unfold append. case_decide; simpl.
  - by apply list_lookup_alter_ne.
  - by apply lookup_app_l.
Qed.

Lemma append_ptr h s xs :
  valid h s →
  ptr (append growcap h s xs).2 = ptr s ∨ ptr (append growcap h s xs).2 = length h.
Proof. intros _. unfold append. case_decide; simpl; auto. Qed.

Lemma append_elems h s xs :
  valid h s →
  elems (append growcap h s xs).1 (append growcap h s xs).2 = elems h s ++ xs.
Proof.
  intros (Hle & a & Ha & Hlen). unfold append, elems. case_decide; simpl.
  - rewrite list_lookup_alter_eq, Ha. simpl.
    apply list_eq. intros i.
    destruct (decide (i < len s + length xs)) as [Hi|Hi].
    + rewrite lookup_take_lt by done.
      destruct (decide (i < len s)) as [Hi'|Hi'].
      * rewrite list_lookup_inserts_lt by done.
        rewrite lookup_app_l by (rewrite length_take; lia).
        by rewrite lookup_take_lt.
      * rewrite list_lookup_inserts by lia.
        rewrite lookup_app_r by (rewrite length_take; lia).
        rewrite length_take. f_equal. lia.
    + rewrite lookup_take_ge by lia. symmetry. apply lookup_ge_None.
      rewrite length_app, length_take. lia.
  - rewrite lookup_app_r, Nat.sub_diag by done. simpl. rewrite Ha. simpl.
    rewrite (assoc_L (++)). apply take_app_length'.
    rewrite length_app, length_take. lia.
Qed.

End SliceLemmas.

Lemma valid_lt h s : valid h s → ptr s < length h.
Proof. intros (_ & a & Ha & _). by eapply lookup_lt_Some. Qed.

Lemma valid_elems_length h s : valid h s → length (elems h s) = len s.
Proof.
  intros (Hle & a & Ha & Hlen). unfold elems. rewrite Ha. simpl.
  rewrite length_take. lia.
Qed.

(** ** What finished goroutines have sent *)

Lemma recorded_behaves (ts : list task) (fns : list Callback) (os : list outcome) :
  Forall2 behaves fns os →
  t_fn <$> ts = fns →
  Forall own_outcome ts →
  Forall (λ t, is_finished t = true) ts →
  concat (recorded <$> ts) = concat (sends <$> os).
Proof.
  intros HF. revert ts.
  induction HF as [|f o fns os Hfo HF IH]; intros [|[fn st] ts] Hfn Hown Hfin;
    simplify_eq/=; [done|].
  inversion Hown as [|? ? Ho Hown']; subst.
  inversion Hfin as [|? ? Hf Hfin']; subst.
  rewrite (IH ts) by done. f_equal.
  unfold recorded, own_outcome, is_finished in *. simpl in *.
  destruct st as [|o']; [done|]. destruct Ho as (_ & c & <-). by rewrite Hfo.
Qed.

Lemma failures_Return (rs : list error) : failures (Return <$> rs) = omap id rs.
Proof.
  unfold failures. induction rs as [|[e|] rs IH]; simpl; [done| |done].
  by f_equal.
Qed.

Lemma failures_reverse (os : list outcome) : failures (reverse os) ≡ₚ failures os.
Proof.
  unfold failures. apply omap_Permutation.
  rewrite fmap_reverse. induction (sends <$> os) as [|x l IH]; [done|].
  rewrite reverse_cons, concat_app. simpl. rewrite app_nil_r, IH.
  apply Permutation_app_comm.
Qed.

Lemma recorded_non_nil (ts : list task) :
  Forall (λ e : error, e ≠ None) (concat (recorded <$> ts)).
Proof.
  induction ts as [|[fn [|[[e|]|v|]]] ts IH]; simpl; try done.
  all: constructor; done.
Qed.

Lemma recorded_length (ts : list task) :
  length (concat (recorded <$> ts)) ≤ length ts.
Proof.
  induction ts as [|t ts IH]; [done|].
  rewrite fmap_cons. change (concat (?x :: ?l)) with (x ++ concat l).
  rewrite length_app. destruct t as [fn [|[[e|]|v|]]]; simpl; lia.
Qed.

(** ** Callbacks that return *)

Lemma returns_behaves (fs : list Callback) (rs : list error) :
  Forall2 returns fs rs → Forall2 behaves fs (Return <$> rs).
Proof. intros H. by apply Forall2_fmap_r. Qed.

Lemma returns_terminating (fs : list Callback) (rs : list error) :
  Forall2 returns fs rs → Forall terminating fs.
Proof.
  intros H. eapply Forall2_Forall_l; [exact H|].
  apply Forall_true. intros r f Hf c. by rewrite (Hf c).
Qed.

Lemma returns_no_panic (fs : list Callback) (rs : list error) :
  Forall2 returns fs rs → Forall no_panic fs.
Proof.
  intros H. eapply Forall2_Forall_l; [exact H|].
  apply Forall_true. intros r f Hf c v. by rewrite (Hf c).
Qed.

Lemma aggregates_Unwrap (res : error) (M : list err) :
  aggregates res M → Unwrap res ≡ₚ M ∧ (res = None ↔ M = []).
Proof.
  unfold aggregates. destruct M as [|m M].
  - intros ->. done.
  - intros (es & -> & HP). simpl. split; [done|]. split; done.
Qed.

(** ** [Hook.Run]: the invariant *)

Lemma reverse_drop_prefix {A} (fs : list A) n :
  reverse (drop n fs) `prefix_of` reverse fs.
Proof.
  exists (reverse (take n fs)).
  by rewrite <- reverse_app, take_drop.
Qed.

Lemma reverse_drop_snoc {A} (fs : list A) (i : Z) x :
  (0 ≤ i)%Z → fs !! Z.to_nat i = Some x →
  reverse (drop (Z.to_nat (i + 1)) fs) ++ [x] = reverse (drop (Z.to_nat (i - 1 + 1)) fs).
Proof.
  intros Hi Hx. replace (Z.to_nat (i - 1 + 1)) with (Z.to_nat i) by lia.
  rewrite (drop_S _ _ _ Hx), reverse_cons. do 3 f_equal. lia.
Qed.

Section HookRun.
Variable growcap : nat → nat → nat.

(** The registries the package builds are valid: [New] makes a valid one,
    [Add] and [Clear] keep it valid (and so does every run, by the
    invariant below). *)
Lemma hook_New_valid (m : Hook.memory) :
  ∃ r, Hook.objects (Hook.New m).1 !! (Hook.New m).2 = Some r ∧
       valid (Hook.arrays (Hook.New m).1) (Hook.hooks r).
Proof.
  destruct m as [h objs]. unfold Hook.New, make. simpl.
  eexists. split; [by rewrite lookup_app_r, Nat.sub_diag|].
  split; simpl; [lia|]. eexists.
  split; [by rewrite lookup_app_r, Nat.sub_diag|done].
Qed.

Lemma hook_Add_valid h r funcs :
  valid h (Hook.hooks r) →
  valid (Hook.Add growcap h r funcs).1 (Hook.hooks (Hook.Add growcap h r funcs).2).
Proof.
  intros Hv. unfold Hook.Add.
  pose proof (append_valid growcap h (Hook.hooks r) funcs Hv).
  by destruct (append growcap h (Hook.hooks r) funcs).
Qed.

Lemma hook_Clear_valid h r :
  valid h (Hook.hooks r) → valid h (Hook.hooks (Hook.Clear r)).
Proof. intros (? & a & ? & ?). split; simpl; [lia|eauto]. Qed.

Lemma hook_begin_inv h r ctx :
  valid h (Hook.hooks r) →
  hook_inv (elems h (Hook.hooks r)) (Hook.Run_begin h r ctx).
Proof.
  intros Hv. pose proof (valid_lt _ _ Hv) as Hlt.
  pose proof (valid_elems_length _ _ Hv) as Hlen.
  destruct Hv as (Hle & a & Ha & Hcap).
  assert (Hel : elems (h ++ [replicate (len (Hook.hooks r)) None]) (Hook.hooks r)
                = elems h (Hook.hooks r)).
  { unfold elems. by rewrite lookup_app_l. }
  unfold Hook.Run_begin, make, copy. simpl. rewrite Hel.
  split; simpl.
  - rewrite list_lookup_alter_eq, lookup_app_r, Nat.sub_diag by done. simpl.
    f_equal. rewrite firstn_all2 by lia.
    rewrite <- (app_nil_r (replicate _ _)).
    rewrite list_inserts_0_r by (by rewrite length_replicate).
    by rewrite app_nil_r.
  - done.
  - split; [done|]. exists a. split; [|done].
    rewrite list_lookup_alter_ne by lia. by rewrite lookup_app_l.
  - lia.
  - done.
  - done.
  - done.
  - constructor.
Qed.

Lemma hook_pc_inv_finish fs h r ctx p s w ch ch' ts k fn st' :
  hook_pc_inv fs (Hook.State h r ctx p s (S w) ch ts) →
  ts !! k = Some (Task fn running) →
  hook_pc_inv fs
    (Hook.State h r ctx p s w ch' (<[k := Task fn st']> ts)).
Proof.
  unfold hook_pc_inv, Hook.launched; simpl. intros Hpc Hk.
  destruct p as [|i| |[] res|]; simpl in *; try done.
  - by subst ts.
  - by rewrite (fns_update _ _ _ _ _ Hk).
  - by rewrite (fns_update _ _ _ _ _ Hk).
  - destruct Hpc as (_ & _ & ->). done.
  - destruct Hpc as (_ & _ & _ & ->). done.
  - destruct Hpc as (_ & _ & ?). done.
Qed.

Lemma hook_step_inv fs ev st :
  hook_inv fs st → hook_inv fs (Hook.step growcap ev st).
Proof.
  intros [Hsnap Hlen Hreg Hsep Hpc Hwg Hch Hown].
  destruct st as [h r ctx p s w ch ts]. simpl in *.
  destruct ev as [|k|e|funcs|]; simpl.
  - (* the caller *)
    unfold Hook.main_step; simpl. unfold hook_pc_inv in Hpc; simpl in Hpc.
    destruct p as [|i| |x res|v]; simpl in *.
    + (* the checks *)
      subst ts. case_decide as Hn.
      * split; simpl; try done. unfold hook_pc_inv; simpl.
        split_and!; try done. apply nil_length_inv. lia.
      * destruct ctx as [e|].
        -- split; simpl; try done. unfold hook_pc_inv; simpl.
           split_and!; try done. intros ->. simpl in *. lia.
        -- split; simpl; try done.
           ++ unfold hook_pc_inv, Hook.launched; simpl. split; [lia|].
              rewrite drop_ge by lia. done.
           ++ unfold pending in *. simpl in *. lia.
    + (* the launch loop *)
      destruct Hpc as [Hi Hl]. case_decide as H0.
      * assert (Hidx : index h s i = fs !! Z.to_nat i).
        { unfold index. rewrite decide_True by lia. by rewrite Hsnap. }
        rewrite Hidx.
        destruct (fs !! Z.to_nat i) as [fn|] eqn:Hfn.
        -- split; simpl; try done.
           ++ unfold hook_pc_inv, Hook.launched in *; simpl in *.
              split; [lia|]. rewrite fmap_app, Hl. simpl.
              replace (Z.to_nat (i - 1 + 1)) with (Z.to_nat i) by lia.
              rewrite (drop_S _ _ _ Hfn), reverse_cons.
              do 3 f_equal. lia.
           ++ rewrite pending_app. unfold pending at 2. simpl. lia.
           ++ rewrite fmap_app, concat_app. simpl. by rewrite !app_nil_r.
           ++ apply Forall_app. split; [done|]. by repeat constructor.
        -- apply lookup_ge_None in Hfn. lia.
      * split; simpl; try done.
        -- unfold hook_pc_inv, Hook.launched in *; simpl in *.
           rewrite Hl. by replace (Z.to_nat (i + 1)) with 0 by lia.
        -- replace (Z.to_nat (i + 1)) with 0 in Hwg by lia. done.
    + (* the wait *)
      case_decide as Hw; [|by split].
      split; simpl; done.
    + by split.
    + done.
  - (* a goroutine *)
    unfold Hook.go_step; simpl.
    destruct (ts !! k) as [[fn [|o]]|] eqn:Hk; try by split.
    destruct (call fn ctx) as [e| v |] eqn:Hcall; try by split.
    all: pose proof (pending_finish ts k fn (call fn ctx) Hk) as Hp.
    all: rewrite Hcall in Hp.
    all: destruct w as [|w]; [lia|].
    all: split; simpl; try done.
    all: try (rewrite recorded_finish by done; by rewrite Hch).
    all: try (rewrite <- Hcall; apply own_outcome_finish; [congruence|done]).
    all: try lia.
    all: eapply hook_pc_inv_finish; eauto.
  - (* cancellation *)
    destruct ctx as [e'|]; [by split|].
    split; simpl; try done.
    unfold hook_pc_inv in *; simpl in *.
    destruct p as [|i| |[] res|]; simpl in *; try done.
    destruct Hpc as (_ & ? & ? & _). congruence.
  - (* [Add] from another goroutine *)
    unfold Hook.Add.
    pose proof (append_valid growcap h _ funcs Hreg) as Hv.
    pose proof (append_other growcap h (Hook.hooks r) funcs (ptr s)) as Ho.
    pose proof (append_ptr growcap h _ funcs Hreg) as Hp.
    destruct (append growcap h (Hook.hooks r) funcs) as [h' s'] eqn:E.
    simpl in *.
    assert (ptr s < length h) by (by eapply lookup_lt_Some).
    split; simpl; try done.
    + rewrite Ho; [done|congruence|done].
    + destruct Hp as [-> | ->]; [done|lia].
  - (* [Clear] from another goroutine *)
    split; simpl; try done.
    destruct Hreg as (? & a & ? & ?). split; simpl; [lia|eauto].
Qed.

Lemma hook_exec_inv fs s st :
  hook_inv fs st → hook_inv fs (Hook.exec growcap s st).
Proof.
  revert st. induction s as [|ev s IH]; intros st Hst; [done|].
  simpl. apply IH. by apply hook_step_inv.
Qed.

Lemma hook_reachable h r ctx s :
  valid h (Hook.hooks r) →
  hook_inv (elems h (Hook.hooks r)) (Hook.exec growcap s (Hook.Run_begin h r ctx)).
Proof. intros Hv. by apply hook_exec_inv, hook_begin_inv. Qed.

Lemma hook_inv_fns fs st :
  hook_inv fs st → Forall (λ t, t_fn t ∈ fs) (Hook.st_tasks st).
Proof.
  intros [_ _ _ _ Hpc _ _ _]. unfold hook_pc_inv, Hook.launched in Hpc.
  apply Forall_fmap with (P := λ f, f ∈ fs) (f := t_fn).
  destruct (Hook.st_pc st) as [|i| |[] res|].
  - rewrite Hpc. constructor.
  - destruct Hpc as [_ ->]. apply list.Forall_forall. intros f Hf.
    rewrite elem_of_reverse in Hf. exact (subseteq_drop _ _ _ Hf).
  - rewrite Hpc. apply list.Forall_forall. intros f Hf. by rewrite elem_of_reverse in Hf.
  - destruct Hpc as (_ & _ & ->). constructor.
  - destruct Hpc as (_ & _ & _ & ->). constructor.
  - destruct Hpc as (-> & _). apply list.Forall_forall. intros f Hf.
    by rewrite elem_of_reverse in Hf.
  - done.
  - done.
  - done.
Qed.

Lemma hook_inv_not_panicked fs st v :
  hook_inv fs st → Hook.st_pc st ≠ Hook.Panicked v.
Proof.
  intros [_ _ _ _ Hpc _ _ _] E. unfold hook_pc_inv in Hpc. by rewrite E in Hpc.
Qed.

Lemma hook_exec_app s1 s2 st :
  Hook.exec growcap (s1 ++ s2) st = Hook.exec growcap s2 (Hook.exec growcap s1 st).
Proof. apply foldl_app. Qed.

(** *** What [Run] returns after the wait *)

Lemma hook_join_result fs os st res :
  hook_inv fs st →
  Forall2 behaves fs os →
  Hook.st_pc st = Hook.Returned exit_join res →
  aggregates res (failures os).
Proof.
  intros [_ _ _ _ Hpc Hwg Hch Hown] Hos E.
  unfold hook_pc_inv in Hpc. rewrite E in Hpc, Hwg. simpl in Hwg.
  destruct Hpc as (Hl & -> & Hw).
  assert (Hfin : Forall (λ t, is_finished t = true) (Hook.st_tasks st)).
  { apply pending_0_finished. lia. }
  apply Join_aggregates. rewrite Hch.
  rewrite (recorded_behaves _ _ (reverse os) (Forall2_reverse _ _ _ Hos) Hl Hown Hfin).
  apply failures_reverse.
Qed.

(** *** Progress of the caller *)

Lemma hook_main_fuel fs st :
  hook_inv fs st → hook_fuel (Hook.main_step st) ≤ pred (hook_fuel st).
Proof.
  intros [Hsnap Hlen _ _ Hpc _ _ _].
  destruct st as [h r ctx p s w ch ts]. unfold hook_fuel, hook_pc_inv in *.
  unfold Hook.main_step. simpl in *.
  destruct p as [|i| |x res|v]; simpl.
  - case_decide; simpl; [lia|]. destruct ctx; simpl; lia.
  - destruct Hpc as [Hi _]. case_decide; simpl; [|lia].
    unfold index. rewrite decide_True by lia. rewrite Hsnap. simpl.
    destruct (fs !! Z.to_nat i) eqn:Hfn; simpl; lia.
  - case_decide; simpl; lia.
  - lia.
  - lia.
Qed.

Lemma hook_mains_fuel fs m st :
  hook_inv fs st →
  hook_fuel (Hook.exec growcap (replicate m Hook.Main) st) ≤ hook_fuel st - m.
Proof.
  revert st. induction m as [|m IH]; intros st Hst; simpl; [lia|].
  etrans; [apply IH; by apply (hook_step_inv fs Hook.Main)|].
  pose proof (hook_main_fuel fs st Hst). simpl. lia.
Qed.

Lemma hook_fuel_bound fs st : hook_inv fs st → hook_fuel st ≤ length fs + 2.
Proof.
  intros [_ Hlen _ _ Hpc _ _ _]. unfold hook_fuel, hook_pc_inv in *.
  destruct (Hook.st_pc st); lia.
Qed.

(** *** Progress of the goroutines *)

Lemma hook_go_spec fs st k :
  hook_inv fs st →
  Forall terminating fs →
  let st' := Hook.go_step k st in
  Hook.st_pc st' = Hook.st_pc st ∧
  length (Hook.st_tasks st') = length (Hook.st_tasks st) ∧
  (∀ j, finished_at (Hook.st_tasks st) j → finished_at (Hook.st_tasks st') j) ∧
  (k < length (Hook.st_tasks st) → finished_at (Hook.st_tasks st') k).
Proof.
  intros Hinv Hterm. pose proof (hook_inv_fns _ _ Hinv) as Hfns.
  destruct Hinv as [_ _ _ _ _ Hwg _ _].
  destruct st as [h r ctx p s w ch ts]. unfold Hook.go_step. simpl in *.
  destruct (ts !! k) as [[fn [|o]]|] eqn:Hk.
  - assert (Hfn : terminating fn).
    { rewrite list.Forall_forall in Hterm. apply Hterm.
      rewrite Forall_lookup in Hfns. apply (Hfns _ _ Hk). }
    specialize (Hfn ctx).
    pose proof (pending_finish ts k fn (call fn ctx) Hk) as Hp.
    assert (Hlt : k < length ts) by (by eapply lookup_lt_Some).
    destruct w as [|w]; [lia|].
    destruct (call fn ctx) as [e|v|] eqn:Hcall; [| |done].
    all: simpl; rewrite length_insert; split_and!; try done.
    all: try (intros _; eexists; by rewrite list_lookup_insert_eq).
    all: intros j (t & Hj & Ht); destruct (decide (j = k)) as [->|Hne];
      [eexists; by rewrite list_lookup_insert_eq
      |exists t; by rewrite list_lookup_insert_ne].
  - simpl. split_and!; try done. intros _. by eexists.
  - simpl. split_and!; try done. intros Hlt. apply lookup_ge_None in Hk. lia.
Qed.

Lemma hook_gos fs m a st :
  hook_inv fs st →
  Forall terminating fs →
  (∀ j, j < a → j < length (Hook.st_tasks st) → finished_at (Hook.st_tasks st) j) →
  let st' := Hook.exec growcap (Hook.Go <$> seq a m) st in
  Hook.st_pc st' = Hook.st_pc st ∧
  length (Hook.st_tasks st') = length (Hook.st_tasks st) ∧
  (∀ j, j < a + m → j < length (Hook.st_tasks st) → finished_at (Hook.st_tasks st') j).
Proof.
  intros Hinv Hterm. revert a st Hinv.
  induction m as [|m IH]; intros a st Hinv Hfin; simpl.
  - split_and!; try done. intros j ??. apply Hfin; lia.
  - destruct (hook_go_spec fs st a Hinv Hterm) as (Hpc & Hlen & Hkeep & Hnew).
    destruct (IH (S a) (Hook.go_step a st)) as (Hpc' & Hlen' & Hfin').
    { by apply (hook_step_inv fs (Hook.Go a)). }
    { intros j Hj Hjl. rewrite Hlen in Hjl.
      destruct (decide (j = a)) as [->|]; [by apply Hnew|].
      apply Hkeep, Hfin; lia. }
    split_and!; [exact (eq_trans Hpc' Hpc) | exact (eq_trans Hlen' Hlen) |].
    intros j Hj Hjl. apply Hfin'; lia.
Qed.

Lemma finished_at_all (ts : list task) :
  (∀ j, j < length ts → finished_at ts j) → pending ts = 0.
Proof.
  intros H. apply pending_0_finished, Forall_lookup. intros j t Hj.
  destruct (H j) as (t' & Hj' & Ht'); [by eapply lookup_lt_Some|]. congruence.
Qed.

(** Whatever has happened, letting the caller and the goroutines run makes
    [Run] return when no hook blocks. *)
Lemma hook_finish fs st :
  hook_inv fs st →
  Forall terminating fs →
  ∃ x res,
    Hook.st_pc (Hook.exec growcap (Hook.finish (length fs)) st) = Hook.Returned x res.
Proof.
  intros Hinv Hterm. unfold Hook.finish. rewrite !hook_exec_app.
  set (st1 := Hook.exec growcap (replicate _ Hook.Main) st).
  assert (Hinv1 : hook_inv fs st1) by (by apply hook_exec_inv).
  assert (Hf1 : hook_fuel st1 = 0).
  { pose proof (hook_mains_fuel fs (length fs + 2) st Hinv).
    pose proof (hook_fuel_bound fs st Hinv). fold st1 in H. lia. }
  destruct (hook_gos fs (length fs) 0 st1 Hinv1 Hterm) as (Hpc & Hlen & Hfin);
    [intros; lia|].
  set (st2 := Hook.exec growcap (Hook.Go <$> seq 0 (length fs)) st1) in *.
  assert (Hinv2 : hook_inv fs st2) by (by apply hook_exec_inv).
  simpl. unfold Hook.main_step.
  destruct Hinv2 as [_ _ _ _ Hpc2 Hwg2 _ _].
  unfold hook_fuel in Hf1. rewrite <- Hpc in Hf1.
  unfold hook_pc_inv, Hook.launched in Hpc2.
  destruct (Hook.st_pc st2) as [|i| |x res|v] eqn:E; try lia.
  - assert (pending (Hook.st_tasks st2) = 0) as Hp.
    { assert (length (Hook.st_tasks st2) = length fs) as Hn.
      { by rewrite <- (length_fmap t_fn), Hpc2, length_reverse. }
      apply finished_at_all. intros j Hj. apply Hfin; lia. }
    simpl in Hwg2. rewrite decide_True by lia. simpl. eauto.
  - simpl. rewrite E. eauto.
Qed.

(** Once past the check of the context, [Run] never takes its exit. *)
Lemma hook_past_ctx_step ev st :
  Hook.st_pc st ≠ Hook.Checks →
  (∀ r, Hook.st_pc st ≠ Hook.Returned exit_ctx r) →
  Hook.st_pc (Hook.step growcap ev st) ≠ Hook.Checks ∧
  (∀ r, Hook.st_pc (Hook.step growcap ev st) ≠ Hook.Returned exit_ctx r).
Proof.
  intros H1 H2. destruct st as [h r ctx p s w ch ts]. simpl in *.
  destruct ev as [|k|e|funcs|]; simpl.
  - unfold Hook.main_step. simpl.
    destruct p as [|i| |x res|v]; simpl; try done.
    + case_decide; simpl; [|done].
      destruct (index h s i); simpl; done.
    + case_decide; simpl; done.
  - unfold Hook.go_step. simpl.
    destruct (ts !! k) as [[fn [|o]]|]; simpl; try done.
    destruct (call fn ctx); simpl; try done; destruct w; simpl; try done.
  - destruct ctx; simpl; done.
  - unfold Hook.Add. destruct (append _ _ _ _). simpl. done.
  - done.
Qed.

Lemma hook_past_ctx s st :
  Hook.st_pc st ≠ Hook.Checks →
  (∀ r, Hook.st_pc st ≠ Hook.Returned exit_ctx r) →
  ∀ r, Hook.st_pc (Hook.exec growcap s st) ≠ Hook.Returned exit_ctx r.
Proof.
  revert st. induction s as [|ev s IH]; intros st H1 H2; [done|].
  simpl. destruct (hook_past_ctx_step ev st H1 H2). by apply IH.
Qed.

Lemma hook_past_checks s st :
  Hook.st_pc st ≠ Hook.Checks →
  (∀ r, Hook.st_pc st ≠ Hook.Returned exit_ctx r) →
  Hook.st_pc (Hook.exec growcap s st) ≠ Hook.Checks.
Proof.
  revert st. induction s as [|ev s IH]; intros st H1 H2; [done|].
  simpl. destruct (hook_past_ctx_step ev st H1 H2). by apply IH.
Qed.

(** *** The launch order *)

Lemma hook_launched_prefix fs st :
  hook_inv fs st → Hook.launched st `prefix_of` reverse fs.
Proof.
  intros [_ _ _ _ Hpc _ _ _]. unfold hook_pc_inv in Hpc.
  destruct (Hook.st_pc st) as [|i| |[] res|]; try done.
  - unfold Hook.launched. rewrite Hpc. apply prefix_nil.
  - destruct Hpc as [_ ->]. apply reverse_drop_prefix.
  - by rewrite Hpc.
  - destruct Hpc as (_ & _ & Hts). unfold Hook.launched. rewrite Hts.
    apply prefix_nil.
  - destruct Hpc as (_ & _ & _ & Hts). unfold Hook.launched. rewrite Hts.
    apply prefix_nil.
  - by destruct Hpc as (-> & _).
Qed.

Lemma hook_launch_complete fs st :
  hook_inv fs st →
  hook_fuel st = 0 →
  (∀ r, Hook.st_pc st ≠ Hook.Returned exit_ctx r) →
  Hook.launched st = reverse fs.
Proof.
  intros [_ _ _ _ Hpc _ _ _] Hf Hx. unfold hook_pc_inv, hook_fuel in *.
  destruct (Hook.st_pc st) as [|i| |[] res|]; try done; try lia.
  - destruct Hpc as (_ & -> & Hts). unfold Hook.launched. by rewrite Hts.
  - by destruct (Hx res).
  - by destruct Hpc as (-> & _).
Qed.

Lemma hook_fuel_past_checks fs st :
  hook_inv fs st → Hook.st_pc st ≠ Hook.Checks → hook_fuel st ≤ length fs + 1.
Proof.
  intros [_ _ _ _ Hpc _ _ _] Hc. unfold hook_fuel, hook_pc_inv in *.
  destruct (Hook.st_pc st); try done; lia.
Qed.

(** With a live context, the first step of the caller passes the checks. *)
Lemma hook_first_step h r :
  let st := Hook.step growcap Hook.Main (Hook.Run_begin h r None) in
  Hook.st_pc st ≠ Hook.Checks ∧ ∀ res, Hook.st_pc st ≠ Hook.Returned exit_ctx res.
Proof.
  simpl. unfold Hook.main_step, Hook.Run_begin. simpl.
  case_decide; simpl; split; done.
Qed.

(** *** A panicking hook *)

Lemma hook_panic_step fs st k fn v :
  hook_inv fs st →
  Hook.st_tasks st !! k = Some (Task fn running) →
  call fn (Hook.st_ctx st) = Panic v →
  let st' := Hook.step growcap (Hook.Go k) st in
  Hook.st_errChan st' = Hook.st_errChan st ++ [Some (panic_error v)] ∧
  Hook.st_tasks st' = <[k := Task fn (finished (Panic v))]> (Hook.st_tasks st) ∧
  Hook.st_pc st' = Hook.st_pc st ∧
  S (Hook.st_wg st') = Hook.st_wg st.
Proof.
  intros [_ _ _ _ _ Hwg _ _] Hk Hcall.
  pose proof (pending_finish _ k fn Block Hk) as Hp.
  destruct st as [h r ctx p s w ch ts]. simpl in *.
  unfold Hook.go_step. simpl. rewrite Hk, Hcall.
  destruct w as [|w]; [lia|]. done.
Qed.

(** *** The channel *)

(** [errChan] has the capacity [len(hooks)]; it never holds more, so no
    send blocks. *)
Lemma hook_channel_bound fs st :
  hook_inv fs st → length (Hook.st_errChan st) ≤ length fs.
Proof.
  intros Hinv. pose proof (hook_launched_prefix fs st Hinv) as [k Hk].
  destruct Hinv as [_ _ _ _ _ _ Hch _].
  rewrite (Permutation_length Hch).
  etrans; [apply recorded_length|].
  apply (f_equal length) in Hk. unfold Hook.launched in Hk.
  rewrite length_reverse, length_app, length_fmap in Hk. lia.
Qed.

(** *** The snapshot is a copy *)

(** Whatever other goroutines add or clear, the elements of the local
    slice of [Run] stay those the registry had at the call. *)
Lemma hook_snapshot_is_copy h r ctx s :
  valid h (Hook.hooks r) →
  let st := Hook.exec growcap s (Hook.Run_begin h r ctx) in
  elems (Hook.st_heap st) (Hook.st_hooks st) = elems h (Hook.hooks r) ∧
  Hook.launched st `prefix_of` reverse (elems h (Hook.hooks r)).
Proof.
  intros Hv st. pose proof (hook_reachable h r ctx s Hv) as Hinv. fold st in Hinv.
  split; [|by apply hook_launched_prefix].
  destruct Hinv as [Hsnap Hlen _ _ _ _ _ _]. unfold elems at 1.
  rewrite Hsnap, Hlen. simpl. apply firstn_all.
Qed.

(** While a launched hook has not finished, [Run] has not returned. *)
Lemma hook_waits_for_all fs st :
  hook_inv fs st → 0 < pending (Hook.st_tasks st) → Hook.result st = None.
Proof.
  intros [_ _ _ _ Hpc Hwg _ _] Hp. unfold hook_pc_inv, Hook.result in *.
  destruct (Hook.st_pc st) as [|i| |[] res|]; try done; simpl in *.
  - destruct Hpc as (_ & _ & Hts). rewrite Hts in Hp. unfold pending in Hp.
    simpl in Hp. lia.
  - destruct Hpc as (_ & _ & _ & Hts). rewrite Hts in Hp. unfold pending in Hp.
    simpl in Hp. lia.
  - destruct Hpc as (_ & _ & Hw). lia.
Qed.

End HookRun.

(** ** [Shutdown]: the invariant *)

Lemma running_pending (ts : list task) k fn :
  ts !! k = Some (Task fn running) → 0 < pending ts.
Proof. intros Hk. rewrite (pending_finish ts k fn Block Hk). lia. Qed.

(** What the goroutines of [Shutdown] have sent. *)

Lemma shutdown_recorded_finish (ts : list task) k fn o :
  ts !! k = Some (Task fn running) →
  concat (Shutdown.recorded <$> <[k := Task fn (finished o)]> ts)
    ≡ₚ concat (Shutdown.recorded <$> ts) ++ Shutdown.sends o.
Proof.
  revert k. induction ts as [|t ts IH]; intros [|k] Hk; simplify_eq/=.
  - unfold Shutdown.recorded at 1 2. simpl. apply Permutation_app_comm.
  - rewrite (IH k Hk). by rewrite (assoc_L (++)).
Qed.

Lemma shutdown_recorded_non_nil (ts : list task) :
  Forall (λ e : error, e ≠ None) (concat (Shutdown.recorded <$> ts)).
Proof.
  induction ts as [|[fn [|[[e|]|v|]]] ts IH]; simpl; try done.
  constructor; done.
Qed.

Lemma shutdown_recorded_room (ts : list task) :
  length (concat (Shutdown.recorded <$> ts)) + pending ts ≤ length ts.
Proof.
  induction ts as [|t ts IH]; [done|].
  rewrite fmap_cons. change (concat (?x :: ?l)) with (x ++ concat l).
  rewrite length_app. unfold pending in *. simpl.
  destruct t as [fn [|[[e|]|v|]]]; simpl; lia.
Qed.

Lemma shutdown_recorded_behaves (ts : list task) (fns : list Callback)
    (os : list outcome) :
  Forall2 behaves fns os →
  t_fn <$> ts = fns →
  Forall own_outcome ts →
  Forall (λ t, is_finished t = true) ts →
  concat (Shutdown.recorded <$> ts) = concat (Shutdown.sends <$> os).
Proof.
  intros HF. revert ts.
  induction HF as [|f o fns os Hfo HF IH]; intros [|[fn st] ts] Hfn Hown Hfin;
    simplify_eq/=; [done|].
  inversion Hown as [|? ? Ho Hown']; subst.
  inversion Hfin as [|? ? Hf Hfin']; subst.
  rewrite (IH ts) by done. f_equal.
  unfold Shutdown.recorded, own_outcome, is_finished in *. simpl in *.
  destruct st as [|o']; [done|]. destruct Ho as (_ & c & <-). by rewrite Hfo.
Qed.

Lemma shutdown_failures_Return (rs : list error) :
  Shutdown.failures (Return <$> rs) = omap id rs.
Proof.
  unfold Shutdown.failures. induction rs as [|[e|] rs IH]; simpl; [done| |done].
  by f_equal.
Qed.

Lemma shutdown_failures_reverse (os : list outcome) :
  Shutdown.failures (reverse os) ≡ₚ Shutdown.failures os.
Proof.
  unfold Shutdown.failures. apply omap_Permutation.
  rewrite fmap_reverse. induction (Shutdown.sends <$> os) as [|x l IH]; [done|].
  rewrite reverse_cons, concat_app. simpl. rewrite app_nil_r, IH.
  apply Permutation_app_comm.
Qed.

Lemma shutdown_pc_prefix fs st :
  shutdown_pc_inv fs st → Shutdown.launched st `prefix_of` reverse fs.
Proof.
  unfold shutdown_pc_inv, Shutdown.launched.
  destruct (Shutdown.st_pc st) as [|i| |[] res|v]; try done.
  - intros (-> & _). apply prefix_nil.
  - intros (_ & -> & _). apply reverse_drop_prefix.
  - by intros (-> & _).
  - intros (_ & _ & -> & _). apply prefix_nil.
  - by intros (-> & _).
  - by intros (-> & _).
  - by intros (? & _).
Qed.

Lemma shutdown_begin_inv s ctx :
  shutdown_inv (Shutdown.funcs s) (Shutdown.Shutdown_begin s ctx).
Proof. by split. Qed.

Lemma shutdown_pc_inv_finish fs s ctx p w w' es es' cl se ts k fn o :
  shutdown_pc_inv fs (Shutdown.State s ctx p w es cl se ts) →
  (cl = true → w = 0) → w = pending ts →
  ts !! k = Some (Task fn running) →
  shutdown_pc_inv fs
    (Shutdown.State s ctx p w' es' cl se (<[k := Task fn (finished o)]> ts)).
Proof.
  unfold shutdown_pc_inv, Shutdown.launched; simpl. intros Hpc Hcl Hw Hk.
  pose proof (running_pending _ _ _ Hk) as Hp.
  destruct p as [|i| |[] res|v]; simpl in *; try done.
  - destruct Hpc as (-> & _). done.
  - by rewrite (fns_update _ _ _ _ _ Hk).
  - by rewrite (fns_update _ _ _ _ _ Hk).
  - destruct Hpc as (_ & _ & -> & _). done.
  - destruct Hpc as (_ & _ & _ & Hc & _). specialize (Hcl Hc). lia.
  - by rewrite (fns_update _ _ _ _ _ Hk).
  - rewrite (fns_update _ _ _ _ _ Hk). destruct Hpc as (? & t & Ht & Hs).
    split; [done|].
    apply list_elem_of_lookup in Ht as [j Hj].
    destruct (decide (j = k)) as [->|Hne].
    + assert (t = Task fn running) as -> by congruence. done.
    + exists t. split; [|done]. eapply list_elem_of_lookup_2.
      by rewrite list_lookup_insert_ne.
Qed.

Lemma shutdown_main_inv fs c st :
  shutdown_inv fs st → shutdown_inv fs (Shutdown.main_step c st).
Proof.
  intros [Hpc Hwg Hch Hown Hcl].
  destruct st as [s ctx p w es cl se ts]; simpl in *.
  unfold Shutdown.main_step; simpl. unfold shutdown_pc_inv in Hpc; simpl in Hpc.
  destruct p as [|i| |x res|v]; simpl in *.
  - (* the first check *)
    destruct Hpc as (-> & <- & ->). case_decide as Hn.
    + split; simpl; try done. unfold shutdown_pc_inv; simpl.
      apply nil_length_inv in Hn. by rewrite Hn.
    + split; simpl; try done. unfold shutdown_pc_inv, Shutdown.launched; simpl.
      split_and!; try done; try lia. by rewrite drop_ge by lia.
  - (* the launch loop *)
    destruct Hpc as (Hi & Hl & Hf & ->). rewrite Hf. case_decide as H0.
    + rewrite decide_True by lia.
      destruct (fs !! Z.to_nat i) as [fn|] eqn:Hfn.
      * split; simpl; try done.
        -- unfold shutdown_pc_inv, Shutdown.launched in *; simpl in *.
           split_and!; try done; try lia.
           rewrite fmap_app, Hl. simpl. by apply reverse_drop_snoc.
        -- rewrite pending_app. unfold pending at 2. simpl. lia.
        -- rewrite fmap_app, concat_app. simpl. by rewrite !app_nil_r.
        -- apply Forall_app. split; [done|]. by repeat constructor.
      * apply lookup_ge_None in Hfn. lia.
    + split; simpl; try done.
      unfold shutdown_pc_inv, Shutdown.launched in *; simpl in *.
      split; [|done]. rewrite Hl. by replace (Z.to_nat (i + 1)) with 0 by lia.
  - (* the select *)
    destruct Hpc as (Hl & Hf).
    assert (Hrecv : shutdown_inv fs
      (Shutdown.select_recv (Shutdown.State s ctx Shutdown.Select w es cl se ts))
      ∨ (es = [] ∧ cl = false)).
    { unfold Shutdown.select_recv; simpl. destruct es as [|e es'].
      - destruct cl; [left|by right]. by split.
      - left. split; simpl; try done.
        rewrite <- Hch. destruct e as [e|].
        * by rewrite <- (assoc_L (++)).
        * pose proof (shutdown_recorded_non_nil ts) as Hnn. rewrite <- Hch in Hnn.
          apply Forall_app in Hnn as [_ Hnn]. by inversion Hnn. }
    assert (Hdone : ctx ≠ None → shutdown_inv fs
      (Shutdown.select_done (Shutdown.State s ctx Shutdown.Select w es cl se ts))).
    { intros Hctx. by split. }
    unfold Shutdown.can_recv, Shutdown.can_done; simpl.
    destruct Hrecv as [Hrecv|[-> ->]].
    + destruct (bool_decide (ctx ≠ None)) eqn:Ec.
      * apply bool_decide_eq_true in Ec.
        destruct (negb (bool_decide (es = [])) || cl); [destruct c|]; auto.
      * destruct (negb (bool_decide (es = [])) || cl); [done|by split].
    + simpl. case_bool_decide; [auto|by split].
  - by split.
  - by split.
Qed.

Lemma shutdown_go_inv fs k st :
  shutdown_inv fs st →
  (∀ v, Shutdown.st_pc st ≠ Shutdown.Panicked v) →
  shutdown_inv fs (Shutdown.go_step k st).
Proof.
  intros [Hpc Hwg Hch Hown Hcl] Hnp.
  destruct st as [s ctx p w es cl se ts]; simpl in *.
  unfold Shutdown.go_step; simpl.
  destruct (ts !! k) as [[fn [|o]]|] eqn:Hk; try (by split).
  pose proof (shutdown_pc_prefix _ _ Hpc) as Hpre.
  pose proof (pending_finish ts k fn (call fn ctx) Hk) as Hp.
  destruct (call fn ctx) as [e'|v'|] eqn:Hcall; [| |by split].
  all: destruct w as [|w]; [lia|].
  all: split; simpl;
    [by eapply shutdown_pc_inv_finish
    |lia
    |rewrite shutdown_recorded_finish by done; rewrite <- Hch;
     by rewrite <- !(assoc_L (++))
    |rewrite <- Hcall; apply own_outcome_finish; [congruence|done]
    |intros Hc; specialize (Hcl Hc); lia].
Qed.

Lemma shutdown_crash_inv fs k st :
  shutdown_inv fs st → shutdown_inv fs (Shutdown.crash_step k st).
Proof.
  intros Hinv. pose proof (shutdown_pc_prefix _ _ (shutdown_inv_pc _ _ Hinv)) as Hpre.
  destruct Hinv as [Hpc Hwg Hch Hown Hcl].
  destruct st as [s ctx p w es cl se ts]; simpl in *.
  unfold Shutdown.crash_step; simpl.
  destruct (ts !! k) as [[fn [|[e|v|]]]|] eqn:Hk; try (by split).
  split; simpl; try done. split; [done|].
  exists (Task fn (finished (Panic v))). split; [|done].
  by eapply list_elem_of_lookup_2.
Qed.

Lemma shutdown_closer_inv fs st :
  shutdown_inv fs st → shutdown_inv fs (Shutdown.closer_step st).
Proof.
  intros [Hpc Hwg Hch Hown Hcl].
  destruct st as [s ctx p w es cl se ts]; simpl in *.
  unfold Shutdown.closer_step; simpl.
  destruct p as [|i| |[] res|v]; simpl in *; try (by split).
  all: case_decide; split; simpl; try done.
  unfold shutdown_pc_inv in *; simpl in *.
  destruct Hpc as (? & ? & ? & ? & ?). done.
Qed.

Lemma shutdown_cancel_inv fs e st :
  shutdown_inv fs st →
  (∀ v, Shutdown.st_pc st ≠ Shutdown.Panicked v) →
  shutdown_inv fs
    (match Shutdown.st_ctx st with
     | None =>
         Shutdown.State (Shutdown.st_self st) (Some e) (Shutdown.st_pc st)
           (Shutdown.st_wg st) (Shutdown.st_errs st) (Shutdown.st_closed st)
           (Shutdown.st_shutdownErrs st) (Shutdown.st_tasks st)
     | Some _ => st
     end).
Proof.
  intros [Hpc Hwg Hch Hown Hcl] Hnp.
  destruct st as [s ctx p w es cl se ts]; simpl in *.
  destruct ctx as [e'|]; [by split|]. split; simpl; try done.
  unfold shutdown_pc_inv in *; simpl in *.
  destruct p as [|i| |[] res|v]; simpl in *; try done.
  by destruct Hpc as (_ & _ & ? & _).
Qed.

Lemma shutdown_step_cases ev st :
  (∃ v, Shutdown.st_pc st = Shutdown.Panicked v ∧ Shutdown.step ev st = st) ∨
  ((∀ v, Shutdown.st_pc st ≠ Shutdown.Panicked v) ∧
   Shutdown.step ev st = Shutdown.live_step ev st).
Proof.
  unfold Shutdown.step. destruct (Shutdown.st_pc st); eauto.
Qed.

Lemma shutdown_step_inv fs ev st :
  shutdown_inv fs st → shutdown_inv fs (Shutdown.step ev st).
Proof.
  intros Hinv.
  destruct (shutdown_step_cases ev st) as [(v & _ & ->)|[Hnp ->]]; [done|].
  destruct ev as [c|k| |e|k]; simpl.
  - by apply shutdown_main_inv.
  - by apply shutdown_go_inv.
  - by apply shutdown_closer_inv.
  - by apply shutdown_cancel_inv.
  - by apply shutdown_crash_inv.
Qed.

Lemma shutdown_exec_inv fs s st :
  shutdown_inv fs st → shutdown_inv fs (Shutdown.exec s st).
Proof.
  revert st. induction s as [|ev s IH]; intros st Hst; [done|].
  simpl. apply IH. by apply shutdown_step_inv.
Qed.

Lemma shutdown_reachable s ctx sched :
  shutdown_inv (Shutdown.funcs s) (Shutdown.exec sched (Shutdown.Shutdown_begin s ctx)).
Proof. apply shutdown_exec_inv, shutdown_begin_inv. Qed.

Lemma shutdown_exec_app s1 s2 st :
  Shutdown.exec (s1 ++ s2) st = Shutdown.exec s2 (Shutdown.exec s1 st).
Proof. apply foldl_app. Qed.

Lemma shutdown_inv_fns fs st :
  shutdown_inv fs st → Forall (λ t, t_fn t ∈ fs) (Shutdown.st_tasks st).
Proof.
  intros [Hpc _ _ _ _]. apply shutdown_pc_prefix in Hpc as [k Hk].
  unfold Shutdown.launched in Hk.
  apply Forall_fmap with (P := λ f, f ∈ fs) (f := t_fn).
  apply list.Forall_forall. intros f Hf.
  apply elem_of_reverse. rewrite Hk. apply elem_of_app. by left.
Qed.

(** The runtime ends the process for the panic of a callback only. *)
Lemma shutdown_panicked_callback fs st v :
  shutdown_inv fs st →
  Shutdown.st_pc st = Shutdown.Panicked v →
  ∃ f c, f ∈ fs ∧ call f c = Panic v.
Proof.
  intros Hinv E. pose proof (shutdown_inv_fns _ _ Hinv) as Hfns.
  destruct Hinv as [Hpc _ _ Hown _]. unfold shutdown_pc_inv in Hpc.
  rewrite E in Hpc. destruct Hpc as (_ & t & Ht & Hs).
  rewrite list.Forall_forall in Hfns, Hown.
  pose proof (Hown t Ht) as Ho. unfold own_outcome in Ho. rewrite Hs in Ho.
  destruct Ho as (_ & c & Hc).
  exists (t_fn t), c. split; [|done]. by apply Hfns.
Qed.

Lemma shutdown_inv_alive fs st v :
  shutdown_inv fs st → Forall no_panic fs →
  Shutdown.st_pc st ≠ Shutdown.Panicked v.
Proof.
  intros Hinv Hnp E.
  destruct (shutdown_panicked_callback fs st v Hinv E) as (f & c & Hf & Hc).
  rewrite list.Forall_forall in Hnp. by apply (Hnp f Hf c v).
Qed.

(** *** What [Shutdown] returns when it finds the channel closed *)

Lemma shutdown_closed_result fs os st res :
  shutdown_inv fs st →
  Forall2 behaves fs os →
  Shutdown.st_pc st = Shutdown.Returned exit_closed res →
  aggregates res (Shutdown.failures os).
Proof.
  intros [Hpc Hwg Hch Hown Hcl] Hos E.
  unfold shutdown_pc_inv in Hpc. rewrite E in Hpc.
  destruct Hpc as (Hl & -> & Hes & Hc & _).
  assert (Hfin : Forall (λ t, is_finished t = true) (Shutdown.st_tasks st)).
  { apply pending_0_finished. rewrite <- Hwg. by apply Hcl. }
  apply Join_aggregates. rewrite Hes, app_nil_r in Hch. rewrite Hch.
  rewrite (shutdown_recorded_behaves _ _ (reverse os)
             (Forall2_reverse _ _ _ Hos) Hl Hown Hfin).
  apply shutdown_failures_reverse.
Qed.

(** *** Progress *)

Lemma shutdown_ctx_step ev st :
  is_cancel ev = false →
  Shutdown.st_ctx (Shutdown.step ev st) = Shutdown.st_ctx st.
Proof.
  intros Hev.
  destruct (shutdown_step_cases ev st) as [(v & _ & ->)|[Hnp ->]]; [done|].
  destruct st as [s ctx p w es cl se ts].
  destruct ev as [c|k| |e|k]; simpl in *; [| | |done|].
  - unfold Shutdown.main_step, Shutdown.select_recv, Shutdown.select_done,
      Shutdown.can_recv, Shutdown.can_done; simpl.
    destruct p as [|i| |x res|v]; simpl; try done.
    + by case_decide.
    + repeat (case_decide; simpl; try done).
      by destruct (Shutdown.funcs s !! Z.to_nat i).
    + destruct (negb (bool_decide (es = [])) || cl), (bool_decide (ctx ≠ None));
        try done; [destruct c|]; by destruct es.
  - unfold Shutdown.go_step; simpl.
    destruct (ts !! k) as [[fn [|o]]|]; simpl; try done.
    destruct (call fn ctx); simpl; try done; by destruct w.
  - unfold Shutdown.closer_step; simpl.
    destruct p as [|i| |[] res|v]; simpl; try done; by case_decide.
  - unfold Shutdown.crash_step; simpl.
    by destruct (ts !! k) as [[fn [|[e|v|]]]|].
Qed.

(** Only the event [Crash] ends the process: the caller and the goroutines
    never panic on their own. *)
Lemma shutdown_alive_step fs ev st :
  shutdown_inv fs st →
  Shutdown.is_crash ev = false →
  (∀ v, Shutdown.st_pc st ≠ Shutdown.Panicked v) →
  ∀ v, Shutdown.st_pc (Shutdown.step ev st) ≠ Shutdown.Panicked v.
Proof.
  intros [Hpc Hwg _ _ _] Hev Hnp v.
  destruct (shutdown_step_cases ev st) as [(v' & E & _)|[_ ->]];
    [by destruct (Hnp v')|].
  destruct st as [s ctx p w es cl se ts]. unfold shutdown_pc_inv in Hpc.
  simpl in *.
  destruct ev as [c|k| |e|k]; simpl in *; [| | | |done].
  - unfold Shutdown.main_step. simpl.
    destruct p as [|i| |x res|v']; simpl; try done.
    + by case_decide.
    + destruct Hpc as (Hi & _ & -> & _). case_decide; simpl; [|done].
      rewrite decide_True by lia.
      destruct (fs !! Z.to_nat i) eqn:Hfn; simpl; [done|].
      apply lookup_ge_None in Hfn. lia.
    + unfold Shutdown.can_recv, Shutdown.can_done, Shutdown.select_recv,
        Shutdown.select_done; simpl.
      destruct (negb (bool_decide (es = [])) || cl), (bool_decide (ctx ≠ None));
        simpl; try done; [destruct c|]; by destruct es.
  - unfold Shutdown.go_step. simpl.
    destruct (ts !! k) as [[fn [|o]]|] eqn:Hk; simpl; try apply Hnp.
    pose proof (running_pending _ _ _ Hk) as Hp.
    destruct w as [|w]; [lia|].
    destruct (call fn ctx); simpl; apply Hnp.
  - unfold Shutdown.closer_step. simpl.
    destruct p as [|i| |[] res|v']; simpl; try apply Hnp; case_decide; apply Hnp.
  - destruct ctx; simpl; apply Hnp.
Qed.

Lemma shutdown_alive_exec fs s st :
  shutdown_inv fs st →
  Forall (λ ev, Shutdown.is_crash ev = false) s →
  (∀ v, Shutdown.st_pc st ≠ Shutdown.Panicked v) →
  ∀ v, Shutdown.st_pc (Shutdown.exec s st) ≠ Shutdown.Panicked v.
Proof.
  intros Hinv Hs. revert st Hinv.
  induction Hs as [|ev s Hev Hs IH]; intros st Hinv Hnp; [done|].
  simpl. apply IH; [by apply shutdown_step_inv|].
  by apply (shutdown_alive_step fs).
Qed.

Lemma shutdown_finish_no_crash n :
  Forall (λ ev, Shutdown.is_crash ev = false) (Shutdown.finish n).
Proof.
  unfold Shutdown.finish. rewrite !Forall_app. split_and!.
  - by apply Forall_replicate.
  - apply Forall_fmap, list.Forall_forall. done.
  - by repeat constructor.
  - by apply Forall_replicate.
Qed.

Lemma shutdown_ctx_exec s st :
  Forall (λ ev, is_cancel ev = false) s →
  Shutdown.st_ctx (Shutdown.exec s st) = Shutdown.st_ctx st.
Proof.
  intros Hs. revert st. induction Hs as [|ev s Hev Hs IH]; intros st; [done|].
  simpl. by rewrite IH, shutdown_ctx_step.
Qed.

Lemma shutdown_main_fuel fs c st :
  shutdown_inv fs st →
  shutdown_fuel (Shutdown.step (Shutdown.Main c) st) ≤ pred (shutdown_fuel st).
Proof.
  intros [Hpc _ _ _ _].
  destruct (shutdown_step_cases (Shutdown.Main c) st) as [(v & E & ->)|[Hnp ->]].
  { unfold shutdown_fuel. rewrite E. lia. }
  destruct st as [s ctx p w es cl se ts]. unfold shutdown_fuel, shutdown_pc_inv in *.
  simpl in *. unfold Shutdown.main_step. simpl.
  destruct p as [|i| |x res|v]; simpl.
  - case_decide; simpl; lia.
  - destruct Hpc as (Hi & _ & -> & _). case_decide; simpl; [|lia].
    rewrite decide_True by lia.
    destruct (fs !! Z.to_nat i) eqn:Hfn; simpl; lia.
  - unfold Shutdown.can_recv, Shutdown.can_done, Shutdown.select_recv,
      Shutdown.select_done; simpl.
    destruct (negb (bool_decide (es = [])) || cl), (bool_decide (ctx ≠ None));
      simpl; try lia; [destruct c|]; destruct es; simpl; lia.
  - lia.
  - lia.
Qed.

Lemma shutdown_mains_fuel fs m st :
  shutdown_inv fs st →
  shutdown_fuel (Shutdown.exec (replicate m (Shutdown.Main Shutdown.recv)) st)
    ≤ shutdown_fuel st - m.
Proof.
  revert st. induction m as [|m IH]; intros st Hst; simpl; [lia|].
  etrans; [apply IH; by apply shutdown_step_inv|].
  pose proof (shutdown_main_fuel fs Shutdown.recv st Hst). simpl. lia.
Qed.

Lemma shutdown_fuel_bound fs st :
  shutdown_inv fs st → shutdown_fuel st ≤ length fs + 2.
Proof.
  intros [Hpc _ _ _ _]. unfold shutdown_fuel, shutdown_pc_inv in *.
  destruct (Shutdown.st_pc st); try lia.
  destruct Hpc as (_ & -> & _). lia.
Qed.

Lemma shutdown_go_spec fs st k :
  shutdown_inv fs st →
  Forall terminating fs →
  (∀ v, Shutdown.st_pc st ≠ Shutdown.Panicked v) →
  let st' := Shutdown.step (Shutdown.Go k) st in
  Shutdown.st_pc st' = Shutdown.st_pc st ∧
  length (Shutdown.st_tasks st') = length (Shutdown.st_tasks st) ∧
  (∀ j, finished_at (Shutdown.st_tasks st) j → finished_at (Shutdown.st_tasks st') j) ∧
  (k < length (Shutdown.st_tasks st) → finished_at (Shutdown.st_tasks st') k).
Proof.
  intros Hinv Hterm Hnp. pose proof (shutdown_inv_fns _ _ Hinv) as Hfns.
  destruct (shutdown_step_cases (Shutdown.Go k) st) as [(v & E & ->)|[_ ->]].
  { by destruct (Hnp v). }
  destruct Hinv as [_ Hwg _ _ _].
  destruct st as [s ctx p w es cl se ts]. simpl. unfold Shutdown.go_step. simpl in *.
  destruct (ts !! k) as [[fn [|o]]|] eqn:Hk.
  - assert (Hfn : fn ∈ fs).
    { rewrite Forall_lookup in Hfns. apply (Hfns _ _ Hk). }
    rewrite list.Forall_forall in Hterm.
    specialize (Hterm fn Hfn ctx).
    pose proof (pending_finish ts k fn Block Hk) as Hp.
    assert (Hlt : k < length ts) by (by eapply lookup_lt_Some).
    destruct w as [|w]; [lia|].
    destruct (call fn ctx) as [e|v|] eqn:Hcall; [| |done].
    all: simpl; rewrite length_insert; split_and!; try done.
    all: try (intros _; eexists; by rewrite list_lookup_insert_eq).
    all: intros j (t & Hj & Ht); destruct (decide (j = k)) as [->|Hne];
      [eexists; by rewrite list_lookup_insert_eq
      |exists t; by rewrite list_lookup_insert_ne].
  - simpl. split_and!; try done. intros _. by eexists.
  - simpl. split_and!; try done. intros Hlt. apply lookup_ge_None in Hk. lia.
Qed.

Lemma shutdown_gos fs m a st :
  shutdown_inv fs st →
  Forall terminating fs →
  (∀ v, Shutdown.st_pc st ≠ Shutdown.Panicked v) →
  (∀ j, j < a → j < length (Shutdown.st_tasks st) →
        finished_at (Shutdown.st_tasks st) j) →
  let st' := Shutdown.exec (Shutdown.Go <$> seq a m) st in
  Shutdown.st_pc st' = Shutdown.st_pc st ∧
  length (Shutdown.st_tasks st') = length (Shutdown.st_tasks st) ∧
  (∀ j, j < a + m → j < length (Shutdown.st_tasks st) →
        finished_at (Shutdown.st_tasks st') j).
Proof.
  intros Hinv Hterm. revert a st Hinv.
  induction m as [|m IH]; intros a st Hinv Hnp Hfin; simpl.
  - split_and!; try done. intros j ??. apply Hfin; lia.
  - destruct (shutdown_go_spec fs st a Hinv Hterm Hnp) as (Hpc & Hlen & Hkeep & Hnew).
    destruct (IH (S a) (Shutdown.step (Shutdown.Go a) st)) as (Hpc' & Hlen' & Hfin').
    { by apply shutdown_step_inv. }
    { intros v. rewrite Hpc. apply Hnp. }
    { intros j Hj Hjl. rewrite Hlen in Hjl.
      destruct (decide (j = a)) as [->|]; [by apply Hnew|].
      apply Hkeep, Hfin; lia. }
    split_and!; [exact (eq_trans Hpc' Hpc) | exact (eq_trans Hlen' Hlen) |].
    intros j Hj Hjl. apply Hfin'; lia.
Qed.

(** With the channel closed and the context alive, each step of the select
    loop receives one error or returns. *)
Lemma shutdown_drain_step st :
  Shutdown.st_ctx st = None →
  shutdown_fuel st = 0 →
  (Shutdown.st_pc st = Shutdown.Select → Shutdown.st_closed st = true) →
  let st' := Shutdown.step (Shutdown.Main Shutdown.recv) st in
  shutdown_drain st' ≤ pred (shutdown_drain st) ∧
  shutdown_fuel st' = 0 ∧
  (Shutdown.st_pc st' = Shutdown.Select → Shutdown.st_closed st' = true).
Proof.
  intros Hctx Hf Hcl.
  destruct (shutdown_step_cases (Shutdown.Main Shutdown.recv) st)
    as [(v & E & ->)|[_ ->]].
  { unfold shutdown_drain. rewrite E. simpl. split_and!; (lia || done). }
  destruct st as [s ctx p w es cl se ts]. unfold shutdown_drain, shutdown_fuel in *.
  simpl in *. subst ctx. unfold Shutdown.main_step. simpl.
  destruct p as [|i| |x res|v]; simpl; try lia.
  - rewrite Hcl by done.
    unfold Shutdown.can_recv, Shutdown.can_done, Shutdown.select_recv; simpl.
    rewrite orb_true_r. destruct es; simpl; split_and!; (lia || done).
  - split_and!; (lia || done).
  - split_and!; (lia || done).
Qed.

Lemma shutdown_drains m st :
  Shutdown.st_ctx st = None →
  shutdown_fuel st = 0 →
  (Shutdown.st_pc st = Shutdown.Select → Shutdown.st_closed st = true) →
  shutdown_drain (Shutdown.exec (replicate m (Shutdown.Main Shutdown.recv)) st)
    ≤ shutdown_drain st - m.
Proof.
  revert st. induction m as [|m IH]; intros st Hctx Hf Hcl; simpl; [lia|].
  destruct (shutdown_drain_step st Hctx Hf Hcl) as (Hd & Hf' & Hcl').
  etrans; [apply IH; try done|simpl in *; lia].
  by rewrite shutdown_ctx_step.
Qed.

(** Whatever has happened, if the context is still alive, no callback
    blocks and the runtime has not ended the process, letting everything
    run makes [Shutdown] return. *)
Lemma shutdown_finish fs st :
  shutdown_inv fs st →
  Shutdown.st_ctx st = None →
  Forall terminating fs →
  (∀ v, Shutdown.st_pc st ≠ Shutdown.Panicked v) →
  ∃ x res,
    Shutdown.st_pc (Shutdown.exec (Shutdown.finish (length fs)) st)
      = Shutdown.Returned x res ∧ x ≠ exit_done.
Proof.
  intros Hinv Hctx Hterm Hnp.
  pose proof (shutdown_alive_exec fs _ st Hinv
                (shutdown_finish_no_crash (length fs)) Hnp) as Halive.
  revert Halive.
  unfold Shutdown.finish. rewrite !shutdown_exec_app.
  set (st1 := Shutdown.exec (replicate _ _) st).
  intros Halive.
  assert (Hinv1 : shutdown_inv fs st1) by (by apply shutdown_exec_inv).
  assert (Hnp1 : ∀ v, Shutdown.st_pc st1 ≠ Shutdown.Panicked v).
  { apply (shutdown_alive_exec fs); [done| |done]. by apply Forall_replicate. }
  assert (Hf1 : shutdown_fuel st1 = 0).
  { pose proof (shutdown_mains_fuel fs (length fs + 2) st Hinv).
    pose proof (shutdown_fuel_bound fs st Hinv). fold st1 in H. lia. }
  assert (Hctx1 : Shutdown.st_ctx st1 = None).
  { unfold st1. rewrite shutdown_ctx_exec; [done|]. by apply Forall_replicate. }
  destruct (shutdown_gos fs (length fs) 0 st1 Hinv1 Hterm Hnp1) as (Hpc & Hlen & Hfin);
    [intros; lia|].
  set (st2 := Shutdown.exec (Shutdown.Go <$> seq 0 (length fs)) st1) in *.
  assert (Hinv2 : shutdown_inv fs st2) by (by apply shutdown_exec_inv).
  assert (Hctx2 : Shutdown.st_ctx st2 = None).
  { unfold st2. rewrite shutdown_ctx_exec; [done|].
    apply Forall_fmap, list.Forall_forall. done. }
  assert (Hf2 : shutdown_fuel st2 = 0).
  { unfold shutdown_fuel in *. rewrite Hpc.
    destruct (Shutdown.st_pc st1); (done || lia). }
  pose proof (shutdown_inv_fns _ _ Hinv2) as Hfns.
  set (st3 := Shutdown.exec [Shutdown.Closer] st2).
  assert (Hinv3 : shutdown_inv fs st3) by (by apply shutdown_exec_inv).
  assert (Hctx3 : Shutdown.st_ctx st3 = None).
  { unfold st3. rewrite shutdown_ctx_exec; [done|]. by repeat constructor. }
  assert (Hlen2 : length (Shutdown.st_tasks st2) ≤ length fs).
  { destruct Hinv2 as [Hpc2 _ _ _ _]. apply shutdown_pc_prefix in Hpc2 as [k Hk].
    apply (f_equal length) in Hk. unfold Shutdown.launched in Hk.
    rewrite length_reverse, length_app, length_fmap in Hk. lia. }
  assert (H3 : shutdown_fuel st3 = 0 ∧
               (Shutdown.st_pc st3 = Shutdown.Select → Shutdown.st_closed st3 = true) ∧
               shutdown_drain st3 ≤ length fs + 1).
  { assert (Hp2 : pending (Shutdown.st_tasks st2) = 0).
    { apply finished_at_all. intros j Hj. apply Hfin; lia. }
    destruct Hinv2 as [Hpc2 Hwg2 Hch2 _ _].
    pose proof (Permutation_length Hch2) as Hl2.
    pose proof (shutdown_recorded_room (Shutdown.st_tasks st2)) as Hl2'.
    rewrite length_app in Hl2.
    unfold st3. simpl. unfold Shutdown.step.
    destruct st2 as [s ctx p w es cl se ts]. simpl in *.
    unfold shutdown_fuel, shutdown_drain, Shutdown.closer_step in *. simpl in *.
    destruct p as [|i| |[] res|v]; simpl in *; try lia;
      try rewrite decide_True by lia; simpl; split_and!; try done; lia. }
  destruct H3 as (Hf3 & Hcl3 & Hd3).
  pose proof (shutdown_drains (length fs + 1) st3 Hctx3 Hf3 Hcl3) as Hd.
  set (st4 := Shutdown.exec (replicate _ _) st3) in *.
  assert (Hinv4 : shutdown_inv fs st4) by (by apply shutdown_exec_inv).
  assert (Hf4 : shutdown_fuel st4 = 0).
  { pose proof (shutdown_mains_fuel fs (length fs + 1) st3 Hinv3).
    fold st4 in H. lia. }
  assert (Hctx4 : Shutdown.st_ctx st4 = None).
  { unfold st4. rewrite shutdown_ctx_exec; [done|]. by apply Forall_replicate. }
  assert (Halive4 : ∀ v, Shutdown.st_pc st4 ≠ Shutdown.Panicked v)
    by exact Halive.
  destruct Hinv4 as [Hpc4 _ _ _ _]. unfold shutdown_pc_inv in Hpc4.
  unfold shutdown_fuel, shutdown_drain in *.
  destruct (Shutdown.st_pc st4) as [|i| |x res|v]; try lia.
  - exists x, res. split; [done|]. intros ->. by destruct Hpc4 as (_ & _ & ? & _).
  - by destruct (Halive4 v).
Qed.

(** *** The launch order *)

Lemma shutdown_launch_complete fs st :
  shutdown_inv fs st →
  shutdown_fuel st = 0 →
  (∃ v, Shutdown.st_pc st = Shutdown.Panicked v) ∨
  Shutdown.launched st = reverse fs.
Proof.
  intros [Hpc _ _ _ _] Hf. unfold shutdown_pc_inv, shutdown_fuel in *.
  destruct (Shutdown.st_pc st) as [|i| |[] res|v]; try done; try lia; eauto.
  all: right.
  - by destruct Hpc as (-> & _).
  - destruct Hpc as (_ & -> & Hts & _). unfold Shutdown.launched.
    by rewrite Hts.
  - by destruct Hpc as (-> & _).
  - by destruct Hpc as (-> & _).
Qed.

Lemma shutdown_launched_all fs st :
  shutdown_inv fs st →
  shutdown_fuel st = 0 →
  (∀ v, Shutdown.st_pc st ≠ Shutdown.Panicked v) →
  Shutdown.launched st = reverse fs.
Proof.
  intros Hinv Hf Hnp.
  destruct (shutdown_launch_complete fs st Hinv Hf) as [[v E]|?]; [|done].
  by destruct (Hnp v).
Qed.

(** *** The channel *)

(** [errs] has the capacity [len(s.funcs)]; it never holds more, so no send
    blocks. *)
Lemma shutdown_channel_bound fs st :
  shutdown_inv fs st → length (Shutdown.st_errs st) ≤ length fs.
Proof.
  intros [Hpc _ Hch _ _]. apply shutdown_pc_prefix in Hpc as [k Hk].
  pose proof (Permutation_length Hch) as Hl. rewrite length_app in Hl.
  pose proof (shutdown_recorded_room (Shutdown.st_tasks st)) as Hr.
  apply (f_equal length) in Hk. unfold Shutdown.launched in Hk.
  rewrite length_reverse, length_app, length_fmap in Hk. lia.
Qed.

(** *** A panicking callback *)

Lemma shutdown_dead s st v :
  Shutdown.st_pc st = Shutdown.Panicked v → Shutdown.exec s st = st.
Proof.
  intros E. induction s as [|ev s IH]; [done|].
  simpl. replace (Shutdown.step ev st) with st; [done|].
  unfold Shutdown.step. by rewrite E.
Qed.

(** The goroutine of a callback that panics: its deferred [wg.Done()] runs
    and nothing is sent. *)
Lemma shutdown_panic_step fs st k fn v :
  shutdown_inv fs st →
  (∀ v', Shutdown.st_pc st ≠ Shutdown.Panicked v') →
  Shutdown.st_tasks st !! k = Some (Task fn running) →
  call fn (Shutdown.st_ctx st) = Panic v →
  Shutdown.step (Shutdown.Go k) st
    = Shutdown.State (Shutdown.st_self st) (Shutdown.st_ctx st) (Shutdown.st_pc st)
        (pred (Shutdown.st_wg st)) (Shutdown.st_errs st) (Shutdown.st_closed st)
        (Shutdown.st_shutdownErrs st)
        (<[k := Task fn (finished (Panic v))]> (Shutdown.st_tasks st)) ∧
  0 < Shutdown.st_wg st.
Proof.
  intros [_ Hwg _ _ _] Hnp Hk Hcall.
  pose proof (running_pending _ _ _ Hk) as Hp.
  destruct (shutdown_step_cases (Shutdown.Go k) st) as [(v' & E & _)|[_ ->]];
    [by destruct (Hnp v')|].
  simpl. unfold Shutdown.go_step. rewrite Hk, Hcall.
  destruct (Shutdown.st_wg st) as [|w]; [lia|]. simpl.
  rewrite app_nil_r. split; [done|lia].
Qed.

(** The runtime then ends the process, and nothing runs any more. *)
Lemma shutdown_crash_exec s st k fn v :
  (∀ v', Shutdown.st_pc st ≠ Shutdown.Panicked v') →
  Shutdown.st_tasks st !! k = Some (Task fn (finished (Panic v))) →
  Shutdown.exec (Shutdown.Crash k :: s) st = Shutdown.set_pc (Shutdown.Panicked v) st.
Proof.
  intros Hnp Hk. simpl.
  destruct (shutdown_step_cases (Shutdown.Crash k) st) as [(v' & E & _)|[_ ->]];
    [by destruct (Hnp v')|].
  simpl. unfold Shutdown.crash_step. rewrite Hk.
  by apply (shutdown_dead s _ v).
Qed.

(** ** The early exits *)

(** In a class [P] of states closed under the steps, where the event [main]
    leads to [T] and [T] is then kept, a schedule with a [main] ends in [T]. *)
Lemma first_main_returns {S E : Type} (step : E → S → S) (P T : S → Prop)
    (main : E) (s : list E) (st : S) :
  (∀ ev st, P st → P (step ev st)) →
  (∀ st, P st → T (step main st)) →
  (∀ ev st, P st → T st → T (step ev st)) →
  P st → main ∈ s → T (foldl (flip step) st s).
Proof.
  intros Hstep Hmain Hkeep. revert st.
  assert (Hstable : ∀ s st, P st → T st → T (foldl (flip step) st s)).
  { clear s. induction s as [|ev s IH]; intros st HP HT; [done|].
    simpl. apply IH; [by apply Hstep|by apply Hkeep]. }
  induction s as [|ev s IH]; intros st HP Hin; [by apply elem_of_nil in Hin|].
  simpl. apply elem_of_cons in Hin as [<-|Hin].
  - apply Hstable; [by apply Hstep|by apply Hmain].
  - apply IH; [by apply Hstep|done].
Qed.

Section EarlyExits.
Variable growcap : nat → nat → nat.

(** *** [Hook.Run] *)

Lemma hook_short_circuit_step e ev st :
  hook_short_circuit e st → hook_short_circuit e (Hook.step growcap ev st).
Proof.
  intros (Hctx & Hts & Hwg & Hch & Hn & Hpc).
  destruct st as [h r ctx p s w ch ts]. simpl in *. subst.
  unfold hook_short_circuit.
  destruct ev as [|k|e'|funcs|]; simpl.
  - unfold Hook.main_step. simpl.
    destruct Hpc as [-> | ->]; simpl; [|by auto 10].
    rewrite decide_False by done. simpl. by auto 10.
  - unfold Hook.go_step. simpl. by auto 10.
  - by auto 10.
  - unfold Hook.Add. destruct (append _ _ _ _). simpl. by auto 10.
  - by auto 10.
Qed.

Lemma hook_short_circuit_exec e s st :
  hook_short_circuit e st → hook_short_circuit e (Hook.exec growcap s st).
Proof.
  revert st. induction s as [|ev s IH]; intros st Hst; [done|].
  simpl. by apply IH, hook_short_circuit_step.
Qed.

Lemma hook_short_circuit_main e s st :
  hook_short_circuit e st → Hook.Main ∈ s →
  Hook.st_pc (Hook.exec growcap s st) = Hook.Returned exit_ctx (Some e).
Proof.
  apply (first_main_returns (Hook.step growcap) (hook_short_circuit e)
           (λ st, Hook.st_pc st = Hook.Returned exit_ctx (Some e))).
  - apply hook_short_circuit_step.
  - intros [h r ctx p s' w ch ts] (Hctx & _ & _ & _ & Hn & Hpc). simpl in *.
    subst. unfold Hook.main_step. simpl.
    destruct Hpc as [-> | ->]; [|done]. by rewrite decide_False.
  - intros ev st' HP HT.
    destruct (hook_short_circuit_step e ev st' HP) as (_ & _ & _ & _ & _ & [E|E]);
      [|done].
    exfalso. destruct HP as (_ & Hts & _). revert E.
    destruct st' as [h r ctx p s' w ch ts]. simpl in *. subst.
    destruct ev as [|k|e'|funcs|]; simpl; try done.
    + by destruct ctx.
    + unfold Hook.Add. by destruct (append _ _ _ _).
Qed.

Lemma hook_idle_step ev st :
  hook_idle st → hook_idle (Hook.step growcap ev st).
Proof.
  intros (Hts & Hwg & Hch & Hn & Hpc).
  destruct st as [h r ctx p s w ch ts]. simpl in *. subst.
  unfold hook_idle.
  destruct ev as [|k|e'|funcs|]; simpl.
  - unfold Hook.main_step. simpl.
    destruct Hpc as [-> | ->]; simpl; [|by auto 10].
    rewrite decide_True by done. simpl. by auto 10.
  - unfold Hook.go_step. simpl. by auto 10.
  - destruct ctx; simpl; by auto 10.
  - unfold Hook.Add. destruct (append _ _ _ _). simpl. by auto 10.
  - by auto 10.
Qed.

Lemma hook_idle_exec s st :
  hook_idle st → hook_idle (Hook.exec growcap s st).
Proof.
  revert st. induction s as [|ev s IH]; intros st Hst; [done|].
  simpl. by apply IH, hook_idle_step.
Qed.

Lemma hook_idle_main s st :
  hook_idle st → Hook.Main ∈ s →
  Hook.st_pc (Hook.exec growcap s st) = Hook.Returned exit_empty None.
Proof.
  apply (first_main_returns (Hook.step growcap) hook_idle
           (λ st, Hook.st_pc st = Hook.Returned exit_empty None)).
  - apply hook_idle_step.
  - intros [h r ctx p s' w ch ts] (_ & _ & _ & Hn & Hpc). simpl in *.
    unfold Hook.main_step. simpl.
    destruct Hpc as [-> | ->]; [|done]. by rewrite decide_True.
  - intros ev st' HP HT.
    destruct (hook_idle_step ev st' HP) as (_ & _ & _ & _ & [E|E]); [|done].
    exfalso. destruct HP as (Hts & _). revert E.
    destruct st' as [h r ctx p s' w ch ts]. simpl in *. subst.
    destruct ev as [|k|e'|funcs|]; simpl; try done.
    + by destruct ctx.
    + unfold Hook.Add. by destruct (append _ _ _ _).
Qed.

(** *** [HookClear.Run] *)

Lemma clear_short_circuit_step e ev st :
  clear_short_circuit e st → clear_short_circuit e (HookClear.step growcap ev st).
Proof.
  intros (Hctx & Hts & Hwg & Hch & Hn & Hpc).
  destruct st as [h r ctx p s w ch ts]. simpl in *. subst.
  unfold clear_short_circuit.
  destruct ev as [|k|e'|funcs]; simpl.
  - unfold HookClear.main_step. simpl.
    destruct Hpc as [-> | ->]; simpl; [|by auto 10].
    rewrite decide_False by done. simpl. by auto 10.
  - unfold HookClear.go_step. simpl. by auto 10.
  - by auto 10.
  - unfold HookClear.Add. destruct (append _ _ _ _). simpl. by auto 10.
Qed.

Lemma clear_short_circuit_exec e s st :
  clear_short_circuit e st → clear_short_circuit e (HookClear.exec growcap s st).
Proof.
  revert st. induction s as [|ev s IH]; intros st Hst; [done|].
  simpl. by apply IH, clear_short_circuit_step.
Qed.

Lemma clear_short_circuit_main e s st :
  clear_short_circuit e st → HookClear.Main ∈ s →
  HookClear.st_pc (HookClear.exec growcap s st)
    = HookClear.Returned exit_ctx (Some e).
Proof.
  apply (first_main_returns (HookClear.step growcap) (clear_short_circuit e)
           (λ st, HookClear.st_pc st = HookClear.Returned exit_ctx (Some e))).
  - apply clear_short_circuit_step.
  - intros [h r ctx p s' w ch ts] (Hctx & _ & _ & _ & Hn & Hpc). simpl in *.
    subst. unfold HookClear.main_step. simpl.
    destruct Hpc as [-> | ->]; [|done]. by rewrite decide_False.
  - intros ev st' HP HT.
    destruct (clear_short_circuit_step e ev st' HP) as (_ & _ & _ & _ & _ & [E|E]);
      [|done].
    exfalso. destruct HP as (_ & Hts & _). revert E.
    destruct st' as [h r ctx p s' w ch ts]. simpl in *. subst.
    destruct ev as [|k|e'|funcs]; simpl; try done.
    + by destruct ctx.
    + unfold HookClear.Add. by destruct (append _ _ _ _).
Qed.

Lemma clear_idle_step ev st :
  clear_idle st → clear_idle (HookClear.step growcap ev st).
Proof.
  intros (Hts & Hwg & Hch & Hn & Hpc).
  destruct st as [h r ctx p s w ch ts]. simpl in *. subst.
  unfold clear_idle.
  destruct ev as [|k|e'|funcs]; simpl.
  - unfold HookClear.main_step. simpl.
    destruct Hpc as [-> | ->]; simpl; [|by auto 10].
    rewrite decide_True by done. simpl. by auto 10.
  - unfold HookClear.go_step. simpl. by auto 10.
  - destruct ctx; simpl; by auto 10.
  - unfold HookClear.Add. destruct (append _ _ _ _). simpl. by auto 10.
Qed.

Lemma clear_idle_exec s st :
  clear_idle st → clear_idle (HookClear.exec growcap s st).
Proof.
  revert st. induction s as [|ev s IH]; intros st Hst; [done|].
  simpl. by apply IH, clear_idle_step.
Qed.

Lemma clear_idle_main s st :
  clear_idle st → HookClear.Main ∈ s →
  HookClear.st_pc (HookClear.exec growcap s st)
    = HookClear.Returned exit_empty None.
Proof.
  apply (first_main_returns (HookClear.step growcap) clear_idle
           (λ st, HookClear.st_pc st = HookClear.Returned exit_empty None)).
  - apply clear_idle_step.
  - intros [h r ctx p s' w ch ts] (_ & _ & _ & Hn & Hpc). simpl in *.
    unfold HookClear.main_step. simpl.
    destruct Hpc as [-> | ->]; [|done]. by rewrite decide_True.
  - intros ev st' HP HT.
    destruct (clear_idle_step ev st' HP) as (_ & _ & _ & _ & [E|E]); [|done].
    exfalso. destruct HP as (Hts & _). revert E.
    destruct st' as [h r ctx p s' w ch ts]. simpl in *. subst.
    destruct ev as [|k|e'|funcs]; simpl; try done.
    + by destruct ctx.
    + unfold HookClear.Add. by destruct (append _ _ _ _).
Qed.

(** The registry of [HookClear.Run] changes only when another goroutine
    calls [Add]. *)
Lemma clear_reg_step ev st :
  HookClear.is_add ev = false →
  HookClear.st_reg (HookClear.step growcap ev st) = HookClear.st_reg st.
Proof.
  intros Hev. destruct st as [h r ctx p s w ch ts].
  destruct ev as [|k|e'|funcs]; simpl in *; [| | |done].
  - unfold HookClear.main_step. simpl.
    destruct p as [|i| |x res|v]; simpl; try done.
    + case_decide; simpl; [done|]. by destruct ctx.
    + case_decide; simpl; [|done]. destruct ctx; simpl; [done|].
      by destruct (index h s i).
    + case_decide; simpl; [|done]. by case_decide.
  - unfold HookClear.go_step. simpl.
    destruct (ts !! k) as [[fn [|o]]|]; simpl; try done.
    destruct (call fn ctx); simpl; try done; by destruct w.
  - by destruct ctx.
Qed.

Lemma clear_reg_exec s st :
  Forall (λ ev, HookClear.is_add ev = false) s →
  HookClear.st_reg (HookClear.exec growcap s st) = HookClear.st_reg st.
Proof.
  intros Hs. revert st. induction Hs as [|ev s Hev Hs IH]; intros st; [done|].
  simpl. by rewrite IH, clear_reg_step.
Qed.

End EarlyExits.

(** *** [Shutdown] *)

Lemma shutdown_idle_step ev st :
  shutdown_idle st → shutdown_idle (Shutdown.step ev st).
Proof.
  intros HP.
  destruct (shutdown_step_cases ev st) as [(v & _ & ->)|[_ ->]]; [done|].
  destruct HP as (Hts & Hwg & Hch & Hcl & Hf & Hpc).
  destruct st as [[fs] ctx p w es cl se ts]. simpl in *. subst.
  unfold shutdown_idle.
  destruct ev as [c|k| |e|k]; simpl.
  - unfold Shutdown.main_step. simpl.
    destruct Hpc as [-> | ->]; simpl; by auto 10.
  - unfold Shutdown.go_step. simpl. by auto 10.
  - unfold Shutdown.closer_step. simpl.
    destruct Hpc as [-> | ->]; simpl; by auto 10.
  - destruct ctx; simpl; by auto 10.
  - unfold Shutdown.crash_step. simpl. by auto 10.
Qed.

Lemma shutdown_idle_exec s st :
  shutdown_idle st → shutdown_idle (Shutdown.exec s st).
Proof.
  revert st. induction s as [|ev s IH]; intros st Hst; [done|].
  simpl. by apply IH, shutdown_idle_step.
Qed.

Lemma shutdown_idle_main c s st :
  shutdown_idle st → Shutdown.Main c ∈ s →
  Shutdown.st_pc (Shutdown.exec s st) = Shutdown.Returned exit_empty None.
Proof.
  apply (first_main_returns Shutdown.step shutdown_idle
           (λ st, Shutdown.st_pc st = Shutdown.Returned exit_empty None)).
  - apply shutdown_idle_step.
  - intros [[fs] ctx p w es cl se ts] (_ & _ & _ & _ & Hf & Hpc). simpl in *.
    subst. unfold Shutdown.step. simpl.
    destruct Hpc as [-> | ->]; done.
  - intros ev st' HP HT.
    destruct (shutdown_idle_step ev st' HP) as (_ & _ & _ & _ & _ & [E|E]); [|done].
    exfalso. destruct HP as (Hts & _). revert E. unfold Shutdown.step.
    destruct st' as [[fs] ctx p w es cl se ts]. simpl in *. subst.
    destruct ev as [c'|k| |e|k]; simpl; try done.
    by destruct ctx.
Qed.

(** * The claims *)

(** ** C10 *)

(** C10.  For every registry, [IsEmpty()] returns true if and only if
    [Len()] returns zero; the statement is about an arbitrary registry
    value, hence about the registry at every point of its lifetime. *)
Theorem C10_IsEmpty_iff_Len_zero (r : Hook.Registry) :
  Hook.IsEmpty r = true ↔ Hook.Len r = 0%Z.
Proof. unfold Hook.IsEmpty. apply Z.eqb_eq. Qed.

(** ** C9 *)

(** C9, as stated, fails in package [shutdown]: [New] hands out the one
    instance made by [once.Do], so a second call returns the registry the
    first caller has added to, and its [Len()] is 1. *)
Lemma C9_shutdown_New_is_shared :
  let p1 := (Shutdown.New Shutdown.package0).1 in
  let a := (Shutdown.New Shutdown.package0).2 in
  let p2 := Shutdown.AddAt a [sample_ok] p1 in
  (Shutdown.New p2).2 = a ∧
  Shutdown.LenAt (Shutdown.New p2).2 (Shutdown.New p2).1 = Some 1%Z.
Proof. split; reflexivity. Qed.

(** C9, amended.  In package [hook] every call of [New()] returns a fresh
    registry with [Len()] zero, distinct calls return distinct registries,
    and [Add] on one changes the [Len()] of that one only.  In package
    [shutdown] the first [New()] returns an empty registry and every call
    returns that same instance. *)
Theorem C9_New_fresh_or_singleton :
  (∀ (growcap : nat → nat → nat) (m : Hook.memory) (fs : list Callback),
     let m1 := (Hook.New m).1 in
     let r1 := (Hook.New m).2 in
     let m2 := (Hook.New m1).1 in
     let r2 := (Hook.New m1).2 in
     Hook.LenAt r1 m1 = Some 0%Z ∧ Hook.LenAt r2 m2 = Some 0%Z ∧
     r1 ≠ r2 ∧
     Hook.LenAt r1 (Hook.AddAt growcap r1 fs m2) = Some (Z.of_nat (length fs)) ∧
     Hook.LenAt r2 (Hook.AddAt growcap r1 fs m2) = Some 0%Z ∧
     Hook.LenAt r1 (Hook.AddAt growcap r2 fs m2) = Some 0%Z) ∧
  (Shutdown.LenAt (Shutdown.New Shutdown.package0).2
     (Shutdown.New Shutdown.package0).1 = Some 0%Z) ∧
  (∀ (p : Shutdown.package),
     Shutdown.New (Shutdown.New p).1 = Shutdown.New p) ∧
  (∀ (p : Shutdown.package) (fs : list Callback),
     (Shutdown.New (Shutdown.AddAt (Shutdown.New p).2 fs (Shutdown.New p).1)).2
       = (Shutdown.New p).2).
Proof.
  split_and!.
  - intros growcap [h objs] fs. simpl.
    unfold Hook.LenAt, Hook.AddAt, Hook.Add, Hook.New, make. simpl.
    rewrite !length_app. simpl.
    assert (H1 : (objs ++ [{| Hook.hooks := Slice (length h) 0 10 |}]) !! length objs
                 = Some {| Hook.hooks := Slice (length h) 0 10 |}).
    { by rewrite lookup_app_r, Nat.sub_diag. }
    assert (H2 : ∀ o, ((objs ++ [{| Hook.hooks := Slice (length h) 0 10 |}]) ++ [o])
                   !! (length objs + 1) = Some o).
    { intros o. rewrite lookup_app_r by (rewrite length_app; simpl; lia).
      rewrite length_app. simpl. by rewrite Nat.sub_diag. }
    assert (H3 : ∀ o, ((objs ++ [{| Hook.hooks := Slice (length h) 0 10 |}]) ++ [o])
                   !! length objs = Some {| Hook.hooks := Slice (length h) 0 10 |}).
    { intros o. rewrite lookup_app_l by (rewrite length_app; simpl; lia). done. }
    rewrite H1, H2, H3. simpl.
    split_and!; try done; try lia.
    + destruct (append _ _ _ _) as [h' s'] eqn:E. simpl.
      rewrite list_lookup_insert_eq by (rewrite !length_app; simpl; lia). simpl.
      match type of E with
      | append ?g ?h0 ?s0 ?x = _ => pose proof (append_len g h0 s0 x) as Hl
      end.
      rewrite E in Hl. simpl in Hl. unfold Hook.Len. simpl. by rewrite Hl.
    + destruct (append _ _ _ _) as [h' s'] eqn:E. simpl.
      rewrite list_lookup_insert_ne by lia. by rewrite H2.
    + destruct (append _ _ _ _) as [h' s'] eqn:E. simpl.
      rewrite list_lookup_insert_ne by lia. by rewrite H3.
  - reflexivity.
  - intros [[] a objs]; reflexivity.
  - intros [[] [a|] objs] fs; reflexivity.
Qed.

(** ** C7 *)

(** C7.  When the snapshot taken at the call is empty, [Run] (in both
    revisions) and [Shutdown] launch no goroutine and touch neither the
    wait group nor the channel, whatever the schedule and whether or not the
    context is cancelled; the first step of the caller returns nil, and
    nothing else is ever returned. *)
Theorem C7_empty_snapshot_returns_nil
    (growcap : nat → nat → nat) (h h' : heap) (r : Hook.Registry)
    (r' : HookClear.Registry) (sd : Shutdown.shutdowner) (ctx : error)
    (s : list Hook.event) (s' : list HookClear.event) (s'' : list Shutdown.event) :
  len (Hook.hooks r) = 0 →
  len (HookClear.funcs r') = 0 →
  Shutdown.funcs sd = [] →
  let st := Hook.exec growcap s (Hook.Run_begin h r ctx) in
  let st' := HookClear.exec growcap s' (HookClear.Run_begin h' r' ctx) in
  let st'' := Shutdown.exec s'' (Shutdown.Shutdown_begin sd ctx) in
  (Hook.launched st = [] ∧ Hook.st_wg st = 0 ∧ Hook.st_errChan st = [] ∧
   (Hook.result st = None ∨ Hook.result st = Some None) ∧
   (Hook.Main ∈ s → Hook.st_pc st = Hook.Returned exit_empty None)) ∧
  (HookClear.launched st' = [] ∧ HookClear.st_wg st' = 0 ∧
   HookClear.st_errorCh st' = [] ∧
   (HookClear.result st' = None ∨ HookClear.result st' = Some None) ∧
   (HookClear.Main ∈ s' →
    HookClear.st_pc st' = HookClear.Returned exit_empty None)) ∧
  (Shutdown.launched st'' = [] ∧ Shutdown.st_wg st'' = 0 ∧
   Shutdown.st_errs st'' = [] ∧
   (Shutdown.result st'' = None ∨ Shutdown.result st'' = Some None) ∧
   (∀ c, Shutdown.Main c ∈ s'' →
         Shutdown.st_pc st'' = Shutdown.Returned exit_empty None)).
Proof.
  intros Hr Hr' Hsd.
  assert (H1 : hook_idle (Hook.Run_begin h r ctx)).
  { unfold hook_idle, Hook.Run_begin. simpl. auto 10. }
  assert (H2 : clear_idle (HookClear.Run_begin h' r' ctx)).
  { unfold clear_idle, HookClear.Run_begin. simpl. auto 10. }
  assert (H3 : shutdown_idle (Shutdown.Shutdown_begin sd ctx)).
  { unfold shutdown_idle, Shutdown.Shutdown_begin. simpl. auto 10. }
  simpl. split_and!.
  - pose proof (hook_idle_exec growcap s _ H1) as (Hts & _).
    unfold Hook.launched. by rewrite Hts.
  - by pose proof (hook_idle_exec growcap s _ H1) as (_ & ? & _).
  - by pose proof (hook_idle_exec growcap s _ H1) as (_ & _ & ? & _).
  - pose proof (hook_idle_exec growcap s _ H1) as (_ & _ & _ & _ & [E|E]);
      unfold Hook.result; rewrite E; auto.
  - by apply hook_idle_main.
  - pose proof (clear_idle_exec growcap s' _ H2) as (Hts & _).
    unfold HookClear.launched. by rewrite Hts.
  - by pose proof (clear_idle_exec growcap s' _ H2) as (_ & ? & _).
  - by pose proof (clear_idle_exec growcap s' _ H2) as (_ & _ & ? & _).
  - pose proof (clear_idle_exec growcap s' _ H2) as (_ & _ & _ & _ & [E|E]);
      unfold HookClear.result; rewrite E; auto.
  - by apply clear_idle_main.
  - pose proof (shutdown_idle_exec s'' _ H3) as (Hts & _).
    unfold Shutdown.launched. by rewrite Hts.
  - by pose proof (shutdown_idle_exec s'' _ H3) as (_ & ? & _).
  - by pose proof (shutdown_idle_exec s'' _ H3) as (_ & _ & ? & _).
  - pose proof (shutdown_idle_exec s'' _ H3) as (_ & _ & _ & _ & _ & [E|E]);
      unfold Shutdown.result; rewrite E; auto.
  - intros c. by apply shutdown_idle_main.
Qed.

(** A new registry, a cancelled context: each dispatcher returns nil at the
    first step of its caller. *)
Lemma C7_witness :
  Hook.st_pc (Hook.exec sample_growcap [Hook.Cancel Canceled; Hook.Main]
                (Hook.Run_begin empty_heap empty_registry (Some Canceled)))
    = Hook.Returned exit_empty None ∧
  HookClear.st_pc (HookClear.exec sample_growcap [HookClear.Main]
                     (HookClear.Run_begin clear_empty.1 clear_empty.2 (Some Canceled)))
    = HookClear.Returned exit_empty None ∧
  Shutdown.st_pc (Shutdown.exec [Shutdown.Closer; Shutdown.Main Shutdown.done]
                    (Shutdown.Shutdown_begin {| Shutdown.funcs := [] |} (Some Canceled)))
    = Shutdown.Returned exit_empty None.
Proof.
  pose proof (C7_empty_snapshot_returns_nil sample_growcap empty_heap
    clear_empty.1 empty_registry clear_empty.2 {| Shutdown.funcs := [] |} (Some Canceled)
    [Hook.Cancel Canceled; Hook.Main] [HookClear.Main]
    [Shutdown.Closer; Shutdown.Main Shutdown.done]
    eq_refl eq_refl eq_refl) as (H1 & H2 & H3).
  split_and!.
  - apply H1. apply list_elem_of_further, list_elem_of_here.
  - apply H2. apply list_elem_of_here.
  - apply (proj2 (proj2 (proj2 (proj2 H3))) Shutdown.done).
    apply list_elem_of_further, list_elem_of_here.
Defined.

(** ** C6 *)

(** C6.  In the two revisions of [hook.go], when the registry is not empty
    and the context is already cancelled with the error [e] at the call,
    [Run] launches nothing, whatever the schedule; the first step of its
    caller returns exactly [e], and nothing else is ever returned. *)
Theorem C6_cancelled_context_short_circuit
    (growcap : nat → nat → nat) (h h' : heap) (r : Hook.Registry)
    (r' : HookClear.Registry) (e : err)
    (s : list Hook.event) (s' : list HookClear.event) :
  len (Hook.hooks r) ≠ 0 →
  len (HookClear.funcs r') ≠ 0 →
  let st := Hook.exec growcap s (Hook.Run_begin h r (Some e)) in
  let st' := HookClear.exec growcap s' (HookClear.Run_begin h' r' (Some e)) in
  (Hook.launched st = [] ∧
   (Hook.result st = None ∨ Hook.result st = Some (Some e)) ∧
   (Hook.Main ∈ s → Hook.st_pc st = Hook.Returned exit_ctx (Some e))) ∧
  (HookClear.launched st' = [] ∧
   (HookClear.result st' = None ∨ HookClear.result st' = Some (Some e)) ∧
   (HookClear.Main ∈ s' →
    HookClear.st_pc st' = HookClear.Returned exit_ctx (Some e))).
Proof.
  intros Hr Hr'.
  assert (H1 : hook_short_circuit e (Hook.Run_begin h r (Some e))).
  { unfold hook_short_circuit, Hook.Run_begin. simpl. auto 10. }
  assert (H2 : clear_short_circuit e (HookClear.Run_begin h' r' (Some e))).
  { unfold clear_short_circuit, HookClear.Run_begin. simpl. auto 10. }
  simpl. split_and!.
  - pose proof (hook_short_circuit_exec growcap e s _ H1) as (_ & Hts & _).
    unfold Hook.launched. by rewrite Hts.
  - pose proof (hook_short_circuit_exec growcap e s _ H1) as (_ & _ & _ & _ & _ & [E|E]);
      unfold Hook.result; rewrite E; auto.
  - by apply hook_short_circuit_main.
  - pose proof (clear_short_circuit_exec growcap e s' _ H2) as (_ & Hts & _).
    unfold HookClear.launched. by rewrite Hts.
  - pose proof (clear_short_circuit_exec growcap e s' _ H2) as (_ & _ & _ & _ & _ & [E|E]);
      unfold HookClear.result; rewrite E; auto.
  - by apply clear_short_circuit_main.
Qed.

(** Three hooks, respectively two, and a context cancelled before the
    call: [Run] returns [context.Canceled]. *)
Lemma C6_witness :
  Hook.result (Hook.exec sample_growcap [Hook.Main; Hook.Go 0]
                 (Hook.Run_begin sample_heap sample_registry (Some Canceled)))
    = Some (Some Canceled) ∧
  HookClear.result (HookClear.exec sample_growcap [HookClear.Main]
                      (HookClear.Run_begin clear_sample.1 clear_sample.2 (Some Canceled)))
    = Some (Some Canceled).
Proof.
  assert (H1 : len (Hook.hooks sample_registry) ≠ 0) by (vm_compute; lia).
  assert (H2 : len (HookClear.funcs clear_sample.2) ≠ 0) by (vm_compute; lia).
  pose proof (C6_cancelled_context_short_circuit sample_growcap sample_heap
    clear_sample.1 sample_registry clear_sample.2 Canceled [Hook.Main; Hook.Go 0]
    [HookClear.Main] H1 H2) as ((_ & _ & Ha) & (_ & _ & Hb)).
  unfold Hook.result, HookClear.result. split.
  - rewrite Ha; [done|]. apply list_elem_of_here.
  - rewrite Hb; [done|]. apply list_elem_of_here.
Defined.

(** ** C8 *)

(** C8.  [Add] appends, so the elements of the registry are in registration
    order.  Over a snapshot [fs], the callbacks that [Run] and [Shutdown]
    have launched form, at every moment and under every schedule, an initial
    segment of [fs] reversed: the last registered is launched first.  Past
    the launch loop there is exactly one goroutine per callback; [Run] gets
    there when the context is live at its check, [Shutdown] after enough
    steps of its caller, whatever the goroutines do meanwhile, unless the
    runtime ends the process before, which it does for the panic of a
    callback already launched only. *)
Theorem C8_launch_order_is_reverse_registration
    (growcap : nat → nat → nat) (h : heap) (r : Hook.Registry) (ctx : error)
    (sd : Shutdown.shutdowner) (funcs : list Callback)
    (s : list Hook.event) (s' : list Shutdown.event) :
  valid h (Hook.hooks r) →
  let fs := elems h (Hook.hooks r) in
  let st := Hook.exec growcap s (Hook.Run_begin h r ctx) in
  let st' := Shutdown.exec s' (Shutdown.Shutdown_begin sd ctx) in
  elems (Hook.Add growcap h r funcs).1 (Hook.hooks (Hook.Add growcap h r funcs).2)
    = fs ++ funcs ∧
  Shutdown.funcs (Shutdown.Add sd funcs) = Shutdown.funcs sd ++ funcs ∧
  Hook.launched st `prefix_of` reverse fs ∧
  (Hook.st_pc st = Hook.Wait ∨ (∃ res, Hook.st_pc st = Hook.Returned exit_join res) →
   Hook.launched st = reverse fs) ∧
  Hook.launched
    (Hook.exec growcap (Hook.Main :: s ++ replicate (length fs + 1) Hook.Main)
       (Hook.Run_begin h r None)) = reverse fs ∧
  Shutdown.launched st' `prefix_of` reverse (Shutdown.funcs sd) ∧
  (Shutdown.st_pc st' = Shutdown.Select ∨
   (∃ x res, Shutdown.st_pc st' = Shutdown.Returned x res ∧ x ≠ exit_empty) →
   Shutdown.launched st' = reverse (Shutdown.funcs sd)) ∧
  (Forall (λ ev, Shutdown.is_crash ev = false) s' →
   Shutdown.launched
     (Shutdown.exec
        (s' ++ replicate (length (Shutdown.funcs sd) + 2) (Shutdown.Main Shutdown.recv))
        (Shutdown.Shutdown_begin sd ctx)) = reverse (Shutdown.funcs sd)) ∧
  (∀ v, Shutdown.st_pc st' = Shutdown.Panicked v →
        ∃ t, t ∈ Shutdown.st_tasks st' ∧ t_status t = finished (Panic v)).
Proof.
  intros Hv fs st st'.
  pose proof (hook_reachable growcap h r ctx s Hv) as Hinv.
  pose proof (shutdown_reachable sd ctx s') as Hinv'.
  split_and!.
  - unfold Hook.Add.
    pose proof (append_elems growcap h (Hook.hooks r) funcs Hv) as He.
    by destruct (append growcap h (Hook.hooks r) funcs).
  - done.
  - by apply hook_launched_prefix.
  - intros Hpc. destruct Hinv as [_ _ _ _ Hp _ _ _].
    unfold hook_pc_inv in Hp. fold st in Hp.
    destruct Hpc as [E|[res E]]; rewrite E in Hp; [done|by destruct Hp].
  - change (Hook.Main :: s ++ ?l) with ([Hook.Main] ++ s ++ l).
    rewrite !hook_exec_app.
    set (st1 := Hook.exec growcap [Hook.Main] (Hook.Run_begin h r None)).
    destruct (hook_first_step growcap h r) as [Hc Hx].
    assert (Hinv1 : hook_inv fs st1).
    { apply hook_exec_inv. by apply hook_begin_inv. }
    set (st2 := Hook.exec growcap s st1).
    assert (Hinv2 : hook_inv fs st2) by (by apply hook_exec_inv).
    assert (Hc2 : Hook.st_pc st2 ≠ Hook.Checks) by (by apply hook_past_checks).
    assert (Hx2 : ∀ res, Hook.st_pc st2 ≠ Hook.Returned exit_ctx res)
      by (by apply hook_past_ctx).
    apply hook_launch_complete.
    + by apply hook_exec_inv.
    + pose proof (hook_mains_fuel growcap fs (length fs + 1) st2 Hinv2).
      pose proof (hook_fuel_past_checks fs st2 Hinv2 Hc2). lia.
    + apply hook_past_ctx; done.
  - by apply shutdown_pc_prefix, Hinv'.
  - intros Hpc. destruct Hinv' as [Hp _ _ _ _].
    unfold shutdown_pc_inv in Hp. fold st' in Hp.
    destruct Hpc as [E|(x & res & E & Hx)]; rewrite E in Hp; [by destruct Hp|].
    destruct x; try done; by destruct Hp.
  - intros Hs'. rewrite shutdown_exec_app.
    apply shutdown_launched_all.
    + by apply shutdown_exec_inv.
    + pose proof (shutdown_mains_fuel (Shutdown.funcs sd)
        (length (Shutdown.funcs sd) + 2) _ Hinv').
      pose proof (shutdown_fuel_bound _ _ Hinv'). lia.
    + apply (shutdown_alive_exec (Shutdown.funcs sd)); [done| |].
      * by apply Forall_replicate.
      * by apply (shutdown_alive_exec (Shutdown.funcs sd));
          [apply shutdown_begin_inv|done|done].
  - intros v E. destruct Hinv' as [Hp _ _ _ _].
    unfold shutdown_pc_inv in Hp. fold st' in Hp. rewrite E in Hp.
    by destruct Hp.
Qed.

(** Three callbacks [a], [ok], [b] registered in that order are launched in
    the order [b], [ok], [a], also when other goroutines add hooks, cancel
    the context and finish meanwhile.  [Shutdown] over [ok] and a callback
    that panics launches both, also when the goroutine of the second has
    panicked before the first is launched. *)
Lemma C8_witness :
  valid sample_heap (Hook.hooks sample_registry) ∧
  Hook.launched
    (Hook.exec sample_growcap
       (Hook.Main :: [Hook.Main; Hook.OtherAdd [sample_stuck]; Hook.Cancel Canceled;
                      Hook.Go 0; Hook.OtherClear]
          ++ replicate 4 Hook.Main)
       (Hook.Run_begin sample_heap sample_registry None))
    = [sample_ko "b"; sample_ok; sample_ko "a"] ∧
  Shutdown.launched
    (Shutdown.exec
       ([Shutdown.Main Shutdown.recv; Shutdown.Main Shutdown.recv; Shutdown.Go 0]
          ++ replicate 4 (Shutdown.Main Shutdown.recv))
       (Shutdown.Shutdown_begin
          {| Shutdown.funcs := [sample_ok; sample_boom "x"] |} None))
    = [sample_boom "x"; sample_ok].
Proof.
  assert (Hv : valid sample_heap (Hook.hooks sample_registry)).
  { split; [vm_compute; lia|]. eexists. split; reflexivity. }
  pose proof (C8_launch_order_is_reverse_registration sample_growcap sample_heap
       sample_registry None {| Shutdown.funcs := [sample_ok; sample_boom "x"] |} []
       [Hook.Main; Hook.OtherAdd [sample_stuck]; Hook.Cancel Canceled;
        Hook.Go 0; Hook.OtherClear]
       [Shutdown.Main Shutdown.recv; Shutdown.Main Shutdown.recv; Shutdown.Go 0]
       Hv) as (_ & _ & _ & _ & Hrun & _ & _ & Hsd & _).
  split; [exact Hv|]. split; [exact Hrun|].
  apply Hsd. repeat constructor.
Defined.

(** ** C1 *)

(** C1, as stated, fails for [Shutdown]: the only callback returns nil and
    has finished, the context is cancelled before the caller looks at the
    channel, and the [select] takes [ctx.Done()]: [Shutdown] returns the
    join of [context.Canceled] although no callback failed. *)
Lemma C1_shutdown_cancelled_run_not_nil :
  let st :=
    Shutdown.exec
      [Shutdown.Main Shutdown.recv; Shutdown.Main Shutdown.recv;
       Shutdown.Main Shutdown.recv; Shutdown.Go 0; Shutdown.Closer;
       Shutdown.Cancel Canceled; Shutdown.Main Shutdown.done]
      (Shutdown.Shutdown_begin {| Shutdown.funcs := [sample_ok] |} None) in
  Shutdown.st_tasks st = [Task sample_ok (finished (Return None))] ∧
  Shutdown.result st = Some (Some (JoinError [Canceled])).
Proof. split; reflexivity. Qed.

(** C1, amended.  Over a snapshot whose callbacks return the values [rs]
    (nil or an error), whatever the schedule: when [Run] returns after its
    wait, and when [Shutdown] returns because it found the channel closed,
    the result is nil if no callback failed and otherwise one joined error
    whose underlying failures are the errors returned, each once, in some
    order.  [Run] returns in this way whenever the context is live at its
    check, and [Shutdown] whenever the context is never cancelled. *)
Theorem C1_aggregation
    (growcap : nat → nat → nat) (h : heap) (r : Hook.Registry)
    (sd : Shutdown.shutdowner) (ctx : error) (rs rs' : list error)
    (s : list Hook.event) (s' : list Shutdown.event) :
  valid h (Hook.hooks r) →
  Forall2 returns (elems h (Hook.hooks r)) rs →
  Forall2 returns (Shutdown.funcs sd) rs' →
  (∀ res,
     Hook.st_pc (Hook.exec growcap s (Hook.Run_begin h r ctx))
       = Hook.Returned exit_join res →
     aggregates res (omap id rs) ∧ Unwrap res ≡ₚ omap id rs) ∧
  (∃ x res,
     Hook.st_pc
       (Hook.exec growcap (Hook.Main :: s ++ Hook.finish (length rs))
          (Hook.Run_begin h r None)) = Hook.Returned x res ∧
     x ≠ exit_ctx ∧ aggregates res (omap id rs) ∧ Unwrap res ≡ₚ omap id rs) ∧
  (∀ res,
     Shutdown.st_pc (Shutdown.exec s' (Shutdown.Shutdown_begin sd ctx))
       = Shutdown.Returned exit_closed res →
     aggregates res (omap id rs') ∧ Unwrap res ≡ₚ omap id rs') ∧
  (Shutdown.st_ctx (Shutdown.exec s' (Shutdown.Shutdown_begin sd ctx)) = None →
   ∃ x res,
     Shutdown.st_pc
       (Shutdown.exec (s' ++ Shutdown.finish (length rs'))
          (Shutdown.Shutdown_begin sd ctx)) = Shutdown.Returned x res ∧
     x ≠ exit_done ∧ aggregates res (omap id rs') ∧ Unwrap res ≡ₚ omap id rs').
Proof.
  intros Hv Hrs Hrs'.
  set (fs := elems h (Hook.hooks r)) in *.
  assert (Hjoin : ∀ st res, hook_inv fs st →
            Hook.st_pc st = Hook.Returned exit_join res →
            aggregates res (omap id rs) ∧ Unwrap res ≡ₚ omap id rs).
  { intros st res Hinv E.
    assert (aggregates res (omap id rs)) as Ha.
    { rewrite <- failures_Return.
      eapply hook_join_result; [exact Hinv|by apply returns_behaves|exact E]. }
    split; [done|]. by apply aggregates_Unwrap. }
  assert (Hclosed : ∀ st res, shutdown_inv (Shutdown.funcs sd) st →
            Shutdown.st_pc st = Shutdown.Returned exit_closed res →
            aggregates res (omap id rs') ∧ Unwrap res ≡ₚ omap id rs').
  { intros st res Hinv E.
    assert (aggregates res (omap id rs')) as Ha.
    { rewrite <- shutdown_failures_Return.
      eapply shutdown_closed_result; [exact Hinv|by apply returns_behaves|exact E]. }
    split; [done|]. by apply aggregates_Unwrap. }
  split_and!.
  - intros res E. eapply Hjoin; [|exact E]. by apply hook_reachable.
  - change (Hook.Main :: s ++ ?l) with ([Hook.Main] ++ s ++ l).
    rewrite !hook_exec_app.
    set (st1 := Hook.exec growcap [Hook.Main] (Hook.Run_begin h r None)).
    destruct (hook_first_step growcap h r) as [Hc Hx].
    assert (Hinv1 : hook_inv fs st1).
    { apply hook_exec_inv. by apply hook_begin_inv. }
    set (st2 := Hook.exec growcap s st1).
    assert (Hinv2 : hook_inv fs st2) by (by apply hook_exec_inv).
    rewrite <- (Forall2_length Hrs).
    destruct (hook_finish growcap fs st2 Hinv2 (returns_terminating _ _ Hrs))
      as (x & res & E).
    exists x, res. split; [done|].
    assert (Hinv3 : hook_inv fs (Hook.exec growcap (Hook.finish (length fs)) st2))
      by (by apply hook_exec_inv).
    assert (Hx3 : x ≠ exit_ctx).
    { intros ->. revert E.
      apply hook_past_ctx;
        [apply hook_past_checks; [exact Hc|exact Hx]
        |apply hook_past_ctx; [exact Hc|exact Hx]]. }
    split; [done|].
    destruct x; try done.
    + destruct Hinv3 as [_ _ _ _ Hpc _ _ _]. unfold hook_pc_inv in Hpc.
      rewrite E in Hpc. destruct Hpc as (-> & Hfs & _).
      rewrite Hfs in Hrs. apply Forall2_nil_inv_l in Hrs. by subst rs.
    + by eapply Hjoin.
    + destruct Hinv3 as [_ _ _ _ Hpc _ _ _]. unfold hook_pc_inv in Hpc.
      by rewrite E in Hpc.
    + destruct Hinv3 as [_ _ _ _ Hpc _ _ _]. unfold hook_pc_inv in Hpc.
      by rewrite E in Hpc.
  - intros res E. eapply Hclosed; [|exact E]. apply shutdown_reachable.
  - intros Hctx. rewrite shutdown_exec_app.
    set (st1 := Shutdown.exec s' (Shutdown.Shutdown_begin sd ctx)) in *.
    assert (Hinv1 : shutdown_inv (Shutdown.funcs sd) st1)
      by apply shutdown_reachable.
    rewrite <- (Forall2_length Hrs').
    destruct (shutdown_finish _ st1 Hinv1 Hctx (returns_terminating _ _ Hrs')
                (λ v, shutdown_inv_alive _ st1 v Hinv1 (returns_no_panic _ _ Hrs')))
      as (x & res & E & Hx).
    exists x, res. split; [done|]. split; [done|].
    assert (Hinv2 : shutdown_inv (Shutdown.funcs sd)
              (Shutdown.exec (Shutdown.finish (length (Shutdown.funcs sd))) st1))
      by (by apply shutdown_exec_inv).
    destruct x; try done.
    + destruct Hinv2 as [Hpc _ _ _ _]. unfold shutdown_pc_inv in Hpc.
      rewrite E in Hpc. destruct Hpc as (-> & Hfs & _).
      rewrite Hfs in Hrs'. apply Forall2_nil_inv_l in Hrs'. by subst rs'.
    + destruct Hinv2 as [Hpc _ _ _ _]. unfold shutdown_pc_inv in Hpc.
      by rewrite E in Hpc.
    + destruct Hinv2 as [Hpc _ _ _ _]. unfold shutdown_pc_inv in Hpc.
      by rewrite E in Hpc.
    + by eapply Hclosed.
Qed.

(** Callbacks failing with [a] and [b] around one that succeeds, finishing
    in registration order while the launch order is the reverse: the joined
    error holds [a] and [b]. *)
Lemma C1_witness :
  valid sample_heap (Hook.hooks sample_registry) ∧
  Forall2 returns (elems sample_heap (Hook.hooks sample_registry)) sample_results ∧
  Forall2 returns (Shutdown.funcs sample_shutdowner) sample_results ∧
  Unwrap (Some (JoinError [ErrorString "a"; ErrorString "b"]))
    ≡ₚ omap id sample_results.
Proof.
  assert (Hv : valid sample_heap (Hook.hooks sample_registry)).
  { split; [vm_compute; lia|]. eexists. split; reflexivity. }
  assert (Hr : Forall2 returns (elems sample_heap (Hook.hooks sample_registry))
                 sample_results).
  { repeat constructor. }
  assert (Hr' : Forall2 returns (Shutdown.funcs sample_shutdowner) sample_results).
  { repeat constructor. }
  split_and!; [exact Hv|exact Hr|exact Hr'|].
  exact (proj2 (proj1 (C1_aggregation sample_growcap sample_heap sample_registry
    sample_shutdowner None sample_results sample_results
    [Hook.Main; Hook.Main; Hook.Main; Hook.Main; Hook.Main;
     Hook.Go 2; Hook.Go 1; Hook.Go 0; Hook.Main] [] Hv Hr Hr')
    (Some (JoinError [ErrorString "a"; ErrorString "b"])) eq_refl)).
Defined.

(** ** C2 *)

(** C2, as stated, fails for [Shutdown]: its goroutines do not recover.  A
    callback that panics is converted into no failure: its goroutine sends
    nothing and its deferred [wg.Done()] lets the channel be closed, so a
    [Shutdown] that goes on returns nil; and when the runtime ends the
    process with the panic first, the dispatcher does not complete. *)
Lemma C2_shutdown_panic_is_not_recorded :
  let st0 :=
    Shutdown.Shutdown_begin {| Shutdown.funcs := [sample_boom "x"] |} None in
  let st :=
    Shutdown.exec
      [Shutdown.Main Shutdown.recv; Shutdown.Main Shutdown.recv;
       Shutdown.Main Shutdown.recv; Shutdown.Go 0; Shutdown.Closer;
       Shutdown.Main Shutdown.recv] st0 in
  let st' :=
    Shutdown.exec
      [Shutdown.Main Shutdown.recv; Shutdown.Main Shutdown.recv;
       Shutdown.Main Shutdown.recv; Shutdown.Go 0; Shutdown.Crash 0;
       Shutdown.Closer; Shutdown.Main Shutdown.recv] st0 in
  Shutdown.st_pc st = Shutdown.Returned exit_closed None ∧
  Shutdown.st_errs st = [] ∧ Shutdown.st_shutdownErrs st = [] ∧
  Shutdown.st_pc st' = Shutdown.Panicked "x" ∧
  Shutdown.result st' = None.
Proof. split_and!; reflexivity. Qed.

(** C2, amended.  In [Registry.Run] a hook that panics is recovered in its
    own goroutine: the step of that goroutine sends exactly one error,
    [hook function panic: v], marks the wait group, and changes nothing
    else; the caller of [Run] never panics; the channel holds, in some
    order, what each finished goroutine sent for the outcome of its own
    hook, and the join of it is what [Run] returns after its wait; and [Run]
    returns when no hook blocks.  [Shutdown] has no recovery: the goroutine
    of a callback that panics sends nothing, its deferred [wg.Done()] marks
    the wait group, and the runtime then ends the process with that panic,
    after which nothing runs; the process is ended for the panic of a
    callback only; and the result of a [Shutdown] that returns on the
    closed channel joins the errors the callbacks returned, with nothing
    for those that panicked. *)
Theorem C2_panic_containment
    (growcap : nat → nat → nat) (h : heap) (r : Hook.Registry) (ctx : error)
    (sd : Shutdown.shutdowner) (s : list Hook.event)
    (s' s'' : list Shutdown.event) (k : nat) (fn : Callback) (v : string) :
  valid h (Hook.hooks r) →
  let st := Hook.exec growcap s (Hook.Run_begin h r ctx) in
  let st' := Shutdown.exec s' (Shutdown.Shutdown_begin sd ctx) in
  (∀ v', Hook.st_pc st ≠ Hook.Panicked v') ∧
  (Hook.st_tasks st !! k = Some (Task fn running) →
   call fn (Hook.st_ctx st) = Panic v →
   let st1 := Hook.step growcap (Hook.Go k) st in
   Hook.st_errChan st1 = Hook.st_errChan st ++ [Some (panic_error v)] ∧
   Hook.st_tasks st1 = <[k := Task fn (finished (Panic v))]> (Hook.st_tasks st) ∧
   Hook.st_pc st1 = Hook.st_pc st ∧
   S (Hook.st_wg st1) = Hook.st_wg st) ∧
  Hook.st_errChan st ≡ₚ concat (recorded <$> Hook.st_tasks st) ∧
  Forall own_outcome (Hook.st_tasks st) ∧
  (∀ res, Hook.st_pc st = Hook.Returned exit_join res →
          res = Join (Hook.st_errChan st) ∧ pending (Hook.st_tasks st) = 0) ∧
  (Forall terminating (elems h (Hook.hooks r)) →
   ∃ x res,
     Hook.st_pc
       (Hook.exec growcap (s ++ Hook.finish (length (elems h (Hook.hooks r))))
          (Hook.Run_begin h r ctx)) = Hook.Returned x res) ∧
  ((∀ v', Shutdown.st_pc st' ≠ Shutdown.Panicked v') →
   Shutdown.st_tasks st' !! k = Some (Task fn running) →
   call fn (Shutdown.st_ctx st') = Panic v →
   let st1 := Shutdown.step (Shutdown.Go k) st' in
   Shutdown.st_errs st1 = Shutdown.st_errs st' ∧
   Shutdown.st_shutdownErrs st1 = Shutdown.st_shutdownErrs st' ∧
   Shutdown.st_tasks st1
     = <[k := Task fn (finished (Panic v))]> (Shutdown.st_tasks st') ∧
   Shutdown.st_pc st1 = Shutdown.st_pc st' ∧
   S (Shutdown.st_wg st1) = Shutdown.st_wg st' ∧
   Shutdown.exec (Shutdown.Crash k :: s'') st1
     = Shutdown.set_pc (Shutdown.Panicked v) st1) ∧
  (∀ v', Shutdown.st_pc st' = Shutdown.Panicked v' →
         ∃ f c, f ∈ Shutdown.funcs sd ∧ call f c = Panic v') ∧
  (∀ os res,
     Forall2 behaves (Shutdown.funcs sd) os →
     Shutdown.st_pc st' = Shutdown.Returned exit_closed res →
     aggregates res (Shutdown.failures os)).
Proof.
  intros Hv st st'.
  pose proof (hook_reachable growcap h r ctx s Hv) as Hinv. fold st in Hinv.
  pose proof (shutdown_reachable sd ctx s') as Hinv'. fold st' in Hinv'.
  split_and!.
  - intros v'. by eapply hook_inv_not_panicked.
  - intros Hk Hcall. by eapply hook_panic_step.
  - by destruct Hinv.
  - by destruct Hinv.
  - intros res E. destruct Hinv as [_ _ _ _ Hpc Hwg _ _].
    unfold hook_pc_inv in Hpc. rewrite E in Hpc, Hwg. simpl in Hwg.
    destruct Hpc as (_ & -> & Hw). split; [done|lia].
  - intros Hterm. rewrite hook_exec_app. by eapply hook_finish.
  - intros Hnp Hk Hcall st1.
    destruct (shutdown_panic_step _ st' k fn v Hinv' Hnp Hk Hcall) as [E Hw].
    subst st1. rewrite E. simpl. split_and!; try done; [lia|].
    apply (shutdown_crash_exec s'' _ k fn v).
    + simpl. exact Hnp.
    + simpl. apply list_lookup_insert_eq. by eapply lookup_lt_Some.
  - intros v' E. by eapply shutdown_panicked_callback.
  - intros os res Hos E. by eapply shutdown_closed_result.
Qed.

(** Three hooks of which the second panics with [x]: its goroutine sends
    [hook function panic: x] and nothing else changes. *)
Lemma C2_witness :
  valid panic_heap (Hook.hooks panic_registry) ∧
  Hook.st_errChan
    (Hook.exec sample_growcap
       [Hook.Main; Hook.Main; Hook.Main; Hook.Main; Hook.Go 1]
       (Hook.Run_begin panic_heap panic_registry None))
    = [Some (ErrorString "hook function panic: x")].
Proof.
  assert (Hv : valid panic_heap (Hook.hooks panic_registry)).
  { split; [vm_compute; lia|]. eexists. split; reflexivity. }
  split; [exact Hv|].
  exact (proj1 (proj1 (proj2 (C2_panic_containment sample_growcap panic_heap
    panic_registry None sample_shutdowner
    [Hook.Main; Hook.Main; Hook.Main; Hook.Main] [] [] 1 (sample_boom "x") "x" Hv))
    eq_refl eq_refl)).
Defined.

(** ** C3 *)

(** C3 fails in the revision of [Run] that clears the registry.  The local
    [funcs] shares its backing array with [r.funcs[:0]]: an [Add] that
    arrives after the launch of the last hook and before the launch of the
    first writes its hook over the first entry of the snapshot.  The run
    then launches the late hook, never the first one, and returns the
    failure of the late hook.  (The revision that copies keeps its
    snapshot: lemma [hook_snapshot_is_copy].) *)
Theorem C3_clear_run_launches_late_hook :
  let st0 := HookClear.Run_begin clear_sample.1 clear_sample.2 None in
  let st :=
    HookClear.exec sample_growcap
      [HookClear.Main; HookClear.Main; HookClear.OtherAdd [sample_ko "late"];
       HookClear.Main; HookClear.Main; HookClear.Go 0; HookClear.Go 1;
       HookClear.Main] st0 in
  elems (HookClear.st_heap st0) (HookClear.st_funcs st0)
    = [sample_ko "first"; sample_ok] ∧
  elems (HookClear.st_heap st) (HookClear.st_funcs st)
    = [sample_ko "late"; sample_ok] ∧
  HookClear.launched st = [sample_ok; sample_ko "late"] ∧
  HookClear.result st = Some (Some (JoinError [ErrorString "late"])).
Proof. split_and!; reflexivity. Qed.

(** ** C4 *)

(** C4, as stated, fails for [Shutdown], which clears [s.funcs] only where
    it finds the channel closed: a call that returns through
    [<-ctx.Done()] leaves the callback registered, and [Len()] is 1. *)
Lemma C4_shutdown_cancelled_keeps_funcs :
  let st :=
    Shutdown.exec
      [Shutdown.Main Shutdown.recv; Shutdown.Main Shutdown.recv;
       Shutdown.Main Shutdown.recv; Shutdown.Cancel Canceled;
       Shutdown.Main Shutdown.recv]
      (Shutdown.Shutdown_begin {| Shutdown.funcs := [sample_stuck] |} None) in
  Shutdown.st_pc st = Shutdown.Returned exit_done (Some (JoinError [Canceled])) ∧
  Shutdown.Len (Shutdown.st_self st) = 1%Z.
Proof. split; reflexivity. Qed.

(** C4, amended.  The revision of [Run] that clears empties the registry
    under the lock, before anything is launched, and the registry stays
    empty through every run in which no other goroutine adds, however the
    run ends.  [Shutdown] keeps its list while it launches and waits, and
    empties it when it returns because the channel is closed; after such a
    return, and after the return on an empty list, [Len()] is zero. *)
Theorem C4_cleared_registry
    (growcap : nat → nat → nat) (h : heap) (r : HookClear.Registry)
    (ctx : error) (sd : Shutdown.shutdowner)
    (s : list HookClear.event) (s' : list Shutdown.event) :
  Forall (λ ev, HookClear.is_add ev = false) s →
  let st0 := HookClear.Run_begin h r ctx in
  let st' := Shutdown.exec s' (Shutdown.Shutdown_begin sd ctx) in
  HookClear.Len (HookClear.st_reg st0) = 0%Z ∧
  HookClear.launched st0 = [] ∧
  HookClear.Len (HookClear.st_reg (HookClear.exec growcap s st0)) = 0%Z ∧
  (∀ res,
     Shutdown.st_pc st' = Shutdown.Returned exit_closed res ∨
     Shutdown.st_pc st' = Shutdown.Returned exit_empty res →
     Shutdown.Len (Shutdown.st_self st') = 0%Z) ∧
  (∀ i,
     Shutdown.st_pc st' = Shutdown.Start ∨ Shutdown.st_pc st' = Shutdown.Loop i ∨
     Shutdown.st_pc st' = Shutdown.Select →
     Shutdown.funcs (Shutdown.st_self st') = Shutdown.funcs sd).
Proof.
  intros Hs st0 st'.
  pose proof (shutdown_reachable sd ctx s') as [Hpc _ _ _ _]. fold st' in Hpc.
  unfold shutdown_pc_inv in Hpc.
  split_and!; try done.
  - by rewrite clear_reg_exec.
  - intros res [E|E]; rewrite E in Hpc; unfold Shutdown.Len.
    + destruct Hpc as (_ & _ & _ & _ & ->). done.
    + destruct Hpc as (_ & _ & _ & ->). done.
  - intros i [E|[E|E]]; rewrite E in Hpc.
    + by destruct Hpc as (_ & ? & _).
    + by destruct Hpc as (_ & _ & ? & _).
    + by destruct Hpc as (_ & ?).
Qed.

(** Two hooks, a context cancelled during the launch loop: the registry is
    empty after the run. *)
Lemma C4_witness :
  HookClear.Len
    (HookClear.st_reg
       (HookClear.exec sample_growcap
          [HookClear.Main; HookClear.Main; HookClear.Cancel Canceled;
           HookClear.Main; HookClear.Go 0; HookClear.Main]
          (HookClear.Run_begin clear_sample.1 clear_sample.2 None))) = 0%Z.
Proof.
  apply (C4_cleared_registry sample_growcap clear_sample.1 clear_sample.2 None
           sample_shutdowner
           [HookClear.Main; HookClear.Main; HookClear.Cancel Canceled;
            HookClear.Main; HookClear.Go 0; HookClear.Main] []).
  repeat constructor.
Defined.

(** ** C5 *)

(** C5, as stated, fails for [Registry.Run], which waits on the wait group
    only.  With a hook that never returns, [Run] is still waiting after the
    cancellation, however often its caller is scheduled; with a hook that
    returns nil after the cancellation, [Run] returns nil, without the
    error of the context. *)
Lemma C5_hook_run_ignores_cancellation :
  Hook.st_pc
    (Hook.exec sample_growcap
       [Hook.Main; Hook.Main; Hook.Main; Hook.Cancel Canceled; Hook.Main;
        Hook.Go 0; Hook.Main; Hook.Main]
       (Hook.Run_begin (Hook.arrays stuck_memory) stuck_registry None))
    = Hook.Wait ∧
  Hook.result
    (Hook.exec sample_growcap
       [Hook.Main; Hook.Main; Hook.Main; Hook.Cancel Canceled; Hook.Main;
        Hook.Go 0; Hook.Main; Hook.Main]
       (Hook.Run_begin (Hook.arrays ok_memory) ok_registry None))
    = Some None.
Proof. split; reflexivity. Qed.

(** C5, amended.  In [Shutdown], once the launch loop is over and the
    context is cancelled with [e], the [select] can take [<-ctx.Done()]:
    the caller then returns at once the join of the failures it has
    received so far and of [e], whatever the goroutines are doing, and it
    leaves them as they are.  The failures received so far were sent by
    finished goroutines.  When some goroutine has not finished and no
    failure waits in the channel, that case is the only one the [select]
    can take.  [Registry.Run] does not watch the context after its check:
    as long as a launched hook has not finished it has not returned. *)
Theorem C5_cancellation_mid_flight
    (growcap : nat → nat → nat) (h : heap) (r : Hook.Registry) (ctx : error)
    (sd : Shutdown.shutdowner) (s : list Hook.event) (s' : list Shutdown.event)
    (e : err) :
  valid h (Hook.hooks r) →
  let st := Shutdown.exec s' (Shutdown.Shutdown_begin sd ctx) in
  let st1 := Shutdown.step (Shutdown.Main Shutdown.done) st in
  Shutdown.st_pc st = Shutdown.Select →
  Shutdown.st_ctx st = Some e →
  (Shutdown.st_pc st1 =
     Shutdown.Returned exit_done (Join (Shutdown.st_shutdownErrs st ++ [Some e])) ∧
   Unwrap (Join (Shutdown.st_shutdownErrs st ++ [Some e]))
     = omap id (Shutdown.st_shutdownErrs st) ++ [e] ∧
   Shutdown.st_tasks st1 = Shutdown.st_tasks st ∧
   (∀ x, x ∈ Shutdown.st_shutdownErrs st →
         x ∈ concat (Shutdown.recorded <$> Shutdown.st_tasks st)) ∧
   (0 < pending (Shutdown.st_tasks st) → Shutdown.st_errs st = [] →
    ∀ c, Shutdown.step (Shutdown.Main c) st = st1)) ∧
  (0 < pending (Hook.st_tasks (Hook.exec growcap s (Hook.Run_begin h r ctx))) →
   Hook.result (Hook.exec growcap s (Hook.Run_begin h r ctx)) = None).
Proof.
  intros Hv st st1 Hpc Hctx.
  pose proof (shutdown_reachable sd ctx s') as Hinv. fold st in Hinv.
  destruct Hinv as [_ Hwg Hch _ Hcl].
  assert (Hdone : st1 = Shutdown.select_done st ∧
                  ∀ c, 0 < pending (Shutdown.st_tasks st) →
                       Shutdown.st_errs st = [] →
                       Shutdown.step (Shutdown.Main c) st = Shutdown.select_done st).
  { unfold st1, Shutdown.step. rewrite Hpc. simpl.
    unfold Shutdown.main_step. rewrite Hpc.
    unfold Shutdown.can_done. rewrite Hctx. simpl.
    split.
    - by destruct (Shutdown.can_recv st).
    - intros c Hp Hes. unfold Shutdown.can_recv. rewrite Hes. simpl.
      destruct (Shutdown.st_closed st) eqn:Ec; [|done].
      specialize (Hcl eq_refl). lia. }
  destruct Hdone as [-> Honly].
  split; [split_and!|].
  - unfold Shutdown.select_done. simpl. by rewrite Hctx.
  - apply Unwrap_Join_snoc.
  - done.
  - intros x Hx. rewrite <- Hch. apply elem_of_app. by left.
  - intros Hp Hes c. by apply Honly.
  - intros Hp. eapply hook_waits_for_all; [|exact Hp]. by apply hook_reachable.
Qed.

(** A callback that never returns and one that fails with [a]: the failure
    is received, the context is cancelled, and [Shutdown] returns the join
    of [a] and [context.Canceled] while the first callback is still
    running. *)
Lemma C5_witness :
  valid sample_heap (Hook.hooks sample_registry) ∧
  Shutdown.st_pc
    (Shutdown.exec
       [Shutdown.Main Shutdown.recv; Shutdown.Main Shutdown.recv;
        Shutdown.Main Shutdown.recv; Shutdown.Main Shutdown.recv;
        Shutdown.Go 0; Shutdown.Main Shutdown.recv; Shutdown.Cancel Canceled;
        Shutdown.Main Shutdown.done]
       (Shutdown.Shutdown_begin
          {| Shutdown.funcs := [sample_stuck; sample_ko "a"] |} None))
    = Shutdown.Returned exit_done (Some (JoinError [ErrorString "a"; Canceled])).
Proof.
  assert (Hv : valid sample_heap (Hook.hooks sample_registry)).
  { split; [vm_compute; lia|]. eexists. split; reflexivity. }
  split; [exact Hv|].
  exact (proj1 (proj1 (C5_cancellation_mid_flight sample_growcap sample_heap
    sample_registry None {| Shutdown.funcs := [sample_stuck; sample_ko "a"] |} []
    [Shutdown.Main Shutdown.recv; Shutdown.Main Shutdown.recv;
     Shutdown.Main Shutdown.recv; Shutdown.Main Shutdown.recv;
     Shutdown.Go 0; Shutdown.Main Shutdown.recv; Shutdown.Cancel Canceled]
    Canceled Hv eq_refl eq_refl))).
Defined.

(** * Further properties *)

(** ** [Registry.Run] of [hook.go] *)

Lemma behaves_terminating (fs : list Callback) (os : list outcome) :
  Forall2 behaves fs os → Forall (λ o, o ≠ Block) os → Forall terminating fs.
Proof.
  intros H. induction H as [|f o fs os Hfo H IH]; intros Hos; [constructor|].
  inversion Hos as [|? ? Ho Hos']; subst.
  constructor; [|by apply IH]. intros c. by rewrite (Hfo c).
Qed.

(** X1.  When every hook of the snapshot has a fixed outcome (it returns
    nil, returns an error, or panics; a nil hook panics on its call), [Run]
    after its wait returns nil if none failed and otherwise one joined
    error holding, in some order, each returned error and one
    [hook function panic] error per panicking hook; with a live context at
    the check, [Run] does return so once everything has run, whatever
    happened in between. *)
Theorem X1_hook_run_joins_errors_and_panics
    (growcap : nat → nat → nat) (h : heap) (r : Hook.Registry) (ctx : error)
    (os : list outcome) (s : list Hook.event) :
  valid h (Hook.hooks r) →
  Forall2 behaves (elems h (Hook.hooks r)) os →
  Forall (λ o, o ≠ Block) os →
  (∀ res,
     Hook.st_pc (Hook.exec growcap s (Hook.Run_begin h r ctx))
       = Hook.Returned exit_join res →
     aggregates res (failures os)) ∧
  (∃ x res,
     Hook.st_pc
       (Hook.exec growcap (Hook.Main :: s ++ Hook.finish (length os))
          (Hook.Run_begin h r None)) = Hook.Returned x res ∧
     x ≠ exit_ctx ∧ aggregates res (failures os)).
Proof.
  intros Hv Hos Hnb. set (fs := elems h (Hook.hooks r)) in *.
  split.
  - intros res E. eapply hook_join_result; [|exact Hos|exact E].
    by apply hook_reachable.
  - change (Hook.Main :: s ++ ?l) with ([Hook.Main] ++ s ++ l).
    rewrite !hook_exec_app.
    set (st1 := Hook.exec growcap [Hook.Main] (Hook.Run_begin h r None)).
    destruct (hook_first_step growcap h r) as [Hc Hx].
    assert (Hinv1 : hook_inv fs st1).
    { apply hook_exec_inv. by apply hook_begin_inv. }
    set (st2 := Hook.exec growcap s st1).
    assert (Hinv2 : hook_inv fs st2) by (by apply hook_exec_inv).
    rewrite <- (Forall2_length Hos).
    destruct (hook_finish growcap fs st2 Hinv2 (behaves_terminating _ _ Hos Hnb))
      as (x & res & E).
    exists x, res. split; [done|].
    assert (Hinv3 : hook_inv fs (Hook.exec growcap (Hook.finish (length fs)) st2))
      by (by apply hook_exec_inv).
    assert (Hx3 : x ≠ exit_ctx).
    { intros ->. revert E.
      apply hook_past_ctx;
        [apply hook_past_checks; [exact Hc|exact Hx]
        |apply hook_past_ctx; [exact Hc|exact Hx]]. }
    split; [done|].
    destruct Hinv3 as [_ _ _ _ Hpc Hwg Hch Hown]. unfold hook_pc_inv in Hpc.
    rewrite E in Hpc. destruct x; try done.
    + destruct Hpc as (-> & Hfs & _).
      rewrite Hfs in Hos. apply Forall2_nil_inv_l in Hos. by subst os.
    + eapply hook_join_result; [|exact Hos|exact E]. by apply hook_exec_inv.
Qed.

(** A nil hook, a failing hook and a panicking hook: the result joins the
    nil dereference, the failure and the panic. *)
Lemma X1_witness :
  valid nil_heap (Hook.hooks nil_registry) ∧
  aggregates
    (Some (JoinError [ErrorString "hook function panic: x"; ErrorString "a";
                      panic_error nil_deref]))
    (failures [Panic nil_deref; Return (Some (ErrorString "a")); Panic "x"]).
Proof.
  assert (Hv : valid nil_heap (Hook.hooks nil_registry)).
  { split; [vm_compute; lia|]. eexists. split; reflexivity. }
  split; [exact Hv|].
  refine (proj1 (X1_hook_run_joins_errors_and_panics sample_growcap nil_heap
    nil_registry None
    [Panic nil_deref; Return (Some (ErrorString "a")); Panic "x"]
    [Hook.Main; Hook.Main; Hook.Main; Hook.Main; Hook.Main;
     Hook.Go 0; Hook.Go 1; Hook.Go 2; Hook.Main] Hv _ _) _ eq_refl).
  - repeat constructor.
  - repeat constructor; done.
Defined.

Section HookRegistry.
Variable growcap : nat → nat → nat.

Lemma elems_length_le h s : length (elems h s) ≤ len s.
Proof. unfold elems. rewrite length_take. lia. Qed.

Lemma hook_begin_registry h r ctx :
  valid h (Hook.hooks r) →
  elems (Hook.st_heap (Hook.Run_begin h r ctx)) (Hook.hooks r) = elems h (Hook.hooks r).
Proof.
  intros Hv. pose proof (valid_lt _ _ Hv) as Hlt.
  unfold Hook.Run_begin, make, copy, elems. simpl.
  rewrite list_lookup_alter_ne by lia. by rewrite lookup_app_l.
Qed.

(** The steps of a run leave the heap and the registry alone. *)
Lemma hook_run_step_mem ev st :
  match ev with Hook.OtherAdd _ | Hook.OtherClear => False | _ => True end →
  Hook.st_heap (Hook.step growcap ev st) = Hook.st_heap st ∧
  Hook.st_reg (Hook.step growcap ev st) = Hook.st_reg st.
Proof.
  intros Hev. destruct st as [h r ctx p s w ch ts].
  destruct ev as [|k|e|funcs|]; simpl in *; try done.
  - unfold Hook.main_step. simpl.
    destruct p as [|i| |x res|v]; simpl; try done.
    + case_decide; simpl; [done|]. by destruct ctx.
    + case_decide; simpl; [|done]. by destruct (index h s i).
    + by case_decide.
  - unfold Hook.go_step. simpl.
    destruct (ts !! k) as [[fn [|o]]|]; simpl; try done.
    destruct (call fn ctx); simpl; try done; by destruct w.
  - by destruct ctx.
Qed.

Lemma hook_registry_step ev st l :
  valid (Hook.st_heap st) (Hook.hooks (Hook.st_reg st)) →
  elems (Hook.st_heap st) (Hook.hooks (Hook.st_reg st)) = l →
  let st' := Hook.step growcap ev st in
  valid (Hook.st_heap st') (Hook.hooks (Hook.st_reg st')) ∧
  elems (Hook.st_heap st') (Hook.hooks (Hook.st_reg st'))
    = hook_registry_after [ev] l.
Proof.
  intros Hv He st'. subst st'.
  destruct ev as [|k|e|funcs|].
  - by destruct (hook_run_step_mem Hook.Main st I) as [-> ->].
  - by destruct (hook_run_step_mem (Hook.Go k) st I) as [-> ->].
  - by destruct (hook_run_step_mem (Hook.Cancel e) st I) as [-> ->].
  - destruct st as [h r ctx p s w ch ts]. simpl in *. unfold Hook.Add.
    pose proof (append_valid growcap h _ funcs Hv) as Hv'.
    pose proof (append_elems growcap h _ funcs Hv) as He'.
    destruct (append growcap h (Hook.hooks r) funcs) as [h' s']. simpl in *.
    by rewrite He' , He.
  - destruct st as [h r ctx p s w ch ts]. simpl in *.
    split; [by apply hook_Clear_valid|]. unfold elems. simpl. by rewrite take_0.
Qed.

Lemma hook_registry_exec s st l :
  valid (Hook.st_heap st) (Hook.hooks (Hook.st_reg st)) →
  elems (Hook.st_heap st) (Hook.hooks (Hook.st_reg st)) = l →
  let st' := Hook.exec growcap s st in
  valid (Hook.st_heap st') (Hook.hooks (Hook.st_reg st')) ∧
  elems (Hook.st_heap st') (Hook.hooks (Hook.st_reg st'))
    = hook_registry_after s l.
Proof.
  revert st l. induction s as [|ev s IH]; intros st l Hv He; [done|].
  destruct (hook_registry_step ev st l Hv He) as [Hv' He'].
  simpl. by apply IH.
Qed.

Lemma hook_registry_refines h r ctx s :
  valid h (Hook.hooks r) →
  let st := Hook.exec growcap s (Hook.Run_begin h r ctx) in
  valid (Hook.st_heap st) (Hook.hooks (Hook.st_reg st)) ∧
  elems (Hook.st_heap st) (Hook.hooks (Hook.st_reg st))
    = hook_registry_after s (elems h (Hook.hooks r)).
Proof.
  intros Hv. apply hook_registry_exec.
  - by destruct (hook_begin_inv h r ctx Hv).
  - by apply hook_begin_registry.
Qed.

(** With a live context at the check, [Run] launches every hook of its
    snapshot once its caller has taken enough steps. *)
Lemma hook_launches_all h r s :
  valid h (Hook.hooks r) →
  Hook.launched
    (Hook.exec growcap
       (Hook.Main :: s ++ replicate (length (elems h (Hook.hooks r)) + 1) Hook.Main)
       (Hook.Run_begin h r None)) = reverse (elems h (Hook.hooks r)).
Proof.
  intros Hv. set (fs := elems h (Hook.hooks r)).
  change (Hook.Main :: s ++ ?l) with ([Hook.Main] ++ s ++ l).
  rewrite !hook_exec_app.
  set (st1 := Hook.exec growcap [Hook.Main] (Hook.Run_begin h r None)).
  destruct (hook_first_step growcap h r) as [Hc Hx].
  assert (Hinv1 : hook_inv fs st1).
  { apply hook_exec_inv. by apply hook_begin_inv. }
  set (st2 := Hook.exec growcap s st1).
  assert (Hinv2 : hook_inv fs st2) by (by apply hook_exec_inv).
  assert (Hc2 : Hook.st_pc st2 ≠ Hook.Checks) by (by apply hook_past_checks).
  assert (Hx2 : ∀ res, Hook.st_pc st2 ≠ Hook.Returned exit_ctx res)
    by (by apply hook_past_ctx).
  apply hook_launch_complete.
  - by apply hook_exec_inv.
  - pose proof (hook_mains_fuel growcap fs (length fs + 1) st2 Hinv2).
    pose proof (hook_fuel_past_checks fs st2 Hinv2 Hc2). lia.
  - apply hook_past_ctx; done.
Qed.

End HookRegistry.

(** X2.  Through any run of [Run] interleaved with [Add] and [Clear] calls
    of other goroutines, the registry behaves as a list: its elements are
    those it had at the call, extended by each [Add] and emptied by each
    [Clear], in the order of the calls, and untouched by the run itself
    (the hooks remain registered); [Len()] is the length of that list and
    [IsEmpty()] tells whether it is empty. *)
Theorem X2_hook_registry_is_a_list
    (growcap : nat → nat → nat) (h : heap) (r : Hook.Registry) (ctx : error)
    (s : list Hook.event) :
  valid h (Hook.hooks r) →
  let st := Hook.exec growcap s (Hook.Run_begin h r ctx) in
  let l := hook_registry_after s (elems h (Hook.hooks r)) in
  valid (Hook.st_heap st) (Hook.hooks (Hook.st_reg st)) ∧
  elems (Hook.st_heap st) (Hook.hooks (Hook.st_reg st)) = l ∧
  Hook.Len (Hook.st_reg st) = Z.of_nat (length l) ∧
  (Hook.IsEmpty (Hook.st_reg st) = true ↔ l = []).
Proof.
  intros Hv st l.
  destruct (hook_registry_refines growcap h r ctx s Hv) as [Hv' He].
  fold st in Hv', He. fold l in He.
  assert (Hl : Hook.Len (Hook.st_reg st) = Z.of_nat (length l)).
  { unfold Hook.Len. by rewrite <- He, (valid_elems_length _ _ Hv'). }
  split_and!; try done.
  unfold Hook.IsEmpty. rewrite Hl. rewrite Z.eqb_eq. split.
  - intros H0. apply nil_length_inv. lia.
  - by intros ->.
Qed.

(** Three hooks; during the run one goroutine clears the registry and
    another adds a hook: the registry holds that hook only. *)
Lemma X2_witness :
  valid sample_heap (Hook.hooks sample_registry) ∧
  Hook.Len
    (Hook.st_reg
       (Hook.exec sample_growcap
          [Hook.Main; Hook.OtherAdd [sample_ok]; Hook.Main; Hook.OtherClear;
           Hook.Go 0; Hook.OtherAdd [sample_stuck]]
          (Hook.Run_begin sample_heap sample_registry None))) = 1%Z.
Proof.
  assert (Hv : valid sample_heap (Hook.hooks sample_registry)).
  { split; [vm_compute; lia|]. eexists. split; reflexivity. }
  split; [exact Hv|].
  exact (proj1 (proj2 (proj2 (X2_hook_registry_is_a_list sample_growcap
    sample_heap sample_registry None
    [Hook.Main; Hook.OtherAdd [sample_ok]; Hook.Main; Hook.OtherClear;
     Hook.Go 0; Hook.OtherAdd [sample_stuck]] Hv)))).
Defined.

(** X3.  [Run] can be repeated: called again on the registry a run has
    left (with a live context at its check), it launches the hooks that
    are then registered, the last registered first: those of the first
    call and those added meanwhile, unless a [Clear] has removed them. *)
Theorem X3_hook_run_can_be_repeated
    (growcap : nat → nat → nat) (h : heap) (r : Hook.Registry) (ctx : error)
    (s s' : list Hook.event) :
  valid h (Hook.hooks r) →
  let st := Hook.exec growcap s (Hook.Run_begin h r ctx) in
  let l := hook_registry_after s (elems h (Hook.hooks r)) in
  Hook.launched
    (Hook.exec growcap (Hook.Main :: s' ++ replicate (length l + 1) Hook.Main)
       (Hook.Run_begin (Hook.st_heap st) (Hook.st_reg st) None)) = reverse l.
Proof.
  intros Hv st l.
  destruct (hook_registry_refines growcap h r ctx s Hv) as [Hv' He].
  fold st in Hv', He. fold l in He. rewrite <- He.
  by apply hook_launches_all.
Qed.

(** A run over [a; ok; b] during which [stuck] is added: the next run
    launches [stuck; b; ok; a]. *)
Lemma X3_witness :
  valid sample_heap (Hook.hooks sample_registry) ∧
  let st :=
    Hook.exec sample_growcap
      (Hook.Main :: [Hook.OtherAdd [sample_stuck]] ++ Hook.finish 3)
      (Hook.Run_begin sample_heap sample_registry None) in
  Hook.launched
    (Hook.exec sample_growcap (Hook.Main :: [] ++ replicate 5 Hook.Main)
       (Hook.Run_begin (Hook.st_heap st) (Hook.st_reg st) None))
    = [sample_stuck; sample_ko "b"; sample_ok; sample_ko "a"].
Proof.
  assert (Hv : valid sample_heap (Hook.hooks sample_registry)).
  { split; [vm_compute; lia|]. eexists. split; reflexivity. }
  split; [exact Hv|].
  exact (X3_hook_run_can_be_repeated sample_growcap sample_heap sample_registry
    None (Hook.Main :: [Hook.OtherAdd [sample_stuck]] ++ Hook.finish 3) [] Hv).
Defined.

(** X4.  The snapshot of [Run] is a copy: whatever other goroutines add to
    the registry or clear from it during the run, the elements of the local
    slice stay those registered at the call, and only they are launched. *)
Theorem X4_hook_snapshot_is_unaffected
    (growcap : nat → nat → nat) (h : heap) (r : Hook.Registry) (ctx : error)
    (s : list Hook.event) :
  valid h (Hook.hooks r) →
  let st := Hook.exec growcap s (Hook.Run_begin h r ctx) in
  elems (Hook.st_heap st) (Hook.st_hooks st) = elems h (Hook.hooks r) ∧
  Hook.launched st `prefix_of` reverse (elems h (Hook.hooks r)) ∧
  ptr (Hook.st_hooks st) ≠ ptr (Hook.hooks (Hook.st_reg st)).
Proof.
  intros Hv st.
  destruct (hook_snapshot_is_copy growcap h r ctx s Hv) as [He Hp].
  split_and!; try done.
  pose proof (hook_reachable growcap h r ctx s Hv) as [_ _ _ Hsep _ _ _ _].
  fold st in Hsep. congruence.
Qed.

(** The run of the counterexample of C3, in the revision that copies: the
    late hook goes to the registry and the run launches [ok] and [first]. *)
Lemma X4_witness :
  let h := (Hook.Add sample_growcap empty_heap empty_registry
              [sample_ko "first"; sample_ok]).1 in
  let r := (Hook.Add sample_growcap empty_heap empty_registry
              [sample_ko "first"; sample_ok]).2 in
  let st :=
    Hook.exec sample_growcap
      [Hook.Main; Hook.Main; Hook.OtherAdd [sample_ko "late"]; Hook.Main]
      (Hook.Run_begin h r None) in
  valid h (Hook.hooks r) ∧
  elems (Hook.st_heap st) (Hook.st_hooks st) = [sample_ko "first"; sample_ok] ∧
  Hook.launched st = [sample_ok; sample_ko "first"].
Proof.
  intros h r st.
  assert (Hv : valid h (Hook.hooks r)).
  { split; [vm_compute; lia|]. eexists. split; reflexivity. }
  split; [exact Hv|]. split; [|reflexivity].
  exact (proj1 (X4_hook_snapshot_is_unaffected sample_growcap h r None
    [Hook.Main; Hook.Main; Hook.OtherAdd [sample_ko "late"]; Hook.Main] Hv)).
Defined.

Section HookOrder.
Variable growcap : nat → nat → nat.

(** The step of a goroutine whose hook finishes. *)
Lemma hook_go_running fs st k fn o :
  hook_inv fs st →
  Hook.st_tasks st !! k = Some (Task fn running) →
  call fn (Hook.st_ctx st) = o → o ≠ Block →
  Hook.step growcap (Hook.Go k) st =
    Hook.State (Hook.st_heap st) (Hook.st_reg st) (Hook.st_ctx st) (Hook.st_pc st)
      (Hook.st_hooks st) (pred (Hook.st_wg st)) (Hook.st_errChan st ++ sends o)
      (<[k := Task fn (finished o)]> (Hook.st_tasks st)).
Proof.
  intros [_ _ _ _ _ Hwg _ _] Hk Hcall Ho.
  pose proof (pending_finish _ k fn Block Hk) as Hp.
  destruct st as [h r ctx p s w ch ts]. simpl in *.
  unfold Hook.go_step. simpl. rewrite Hk, Hcall.
  destruct w as [|w]; [lia|]. by destruct o.
Qed.

Lemma hook_gos_in_order fs os done_order st :
  hook_inv fs st →
  Forall2 behaves (Hook.launched st) os →
  Forall (λ o, o ≠ Block) os →
  NoDup done_order →
  (∀ k, k ∈ done_order → ∃ fn, Hook.st_tasks st !! k = Some (Task fn running)) →
  let st' := Hook.exec growcap (Hook.Go <$> done_order) st in
  Hook.st_errChan st' = Hook.st_errChan st ++ sent_in_order os done_order ∧
  Hook.st_pc st' = Hook.st_pc st ∧
  Hook.launched st' = Hook.launched st ∧
  (∀ j, finished_at (Hook.st_tasks st) j → finished_at (Hook.st_tasks st') j) ∧
  (∀ k, k ∈ done_order → finished_at (Hook.st_tasks st') k).
Proof.
  intros Hinv Hos Hnb Hnd. revert st Hinv Hos.
  induction Hnd as [|k π Hk Hnd IH]; intros st Hinv Hos Hrun.
  - simpl. unfold sent_in_order. simpl. rewrite app_nil_r.
    split_and!; try done. intros k Hin. by apply elem_of_nil in Hin.
  - destruct (Hrun k) as [fn Hfn]; [by left|].
    assert (Hl : Hook.launched st !! k = Some fn).
    { unfold Hook.launched. by rewrite list_lookup_fmap, Hfn. }
    destruct (Forall2_lookup_l _ _ _ _ _ Hos Hl) as (o & Ho & Hb).
    assert (Hob : o ≠ Block).
    { rewrite Forall_lookup in Hnb. by apply (Hnb k). }
    pose proof (hook_go_running fs st k fn o Hinv Hfn (Hb _) Hob) as Hstep.
    set (st1 := Hook.step growcap (Hook.Go k) st) in *.
    assert (Hinv1 : hook_inv fs st1) by (by apply hook_step_inv).
    assert (Hts1 : Hook.st_tasks st1 = <[k := Task fn (finished o)]> (Hook.st_tasks st)).
    { by rewrite Hstep. }
    assert (Hl1 : Hook.launched st1 = Hook.launched st).
    { unfold Hook.launched. rewrite Hts1. by eapply fns_update. }
    destruct (IH st1 Hinv1) as (Hch & Hpc & Hla & Hkeep & Hfin).
    { by rewrite Hl1. }
    { intros k' Hk'. destruct (Hrun k') as [fn' Hfn']; [by right|].
      exists fn'. rewrite Hts1, list_lookup_insert_ne; [done|].
      intros ->. done. }
    assert (Hk1 : finished_at (Hook.st_tasks st1) k).
    { rewrite Hts1. exists (Task fn (finished o)). split; [|done].
      apply list_lookup_insert_eq. by eapply lookup_lt_Some. }
    change (Hook.exec growcap (Hook.Go <$> k :: π) st)
      with (Hook.exec growcap (Hook.Go <$> π) st1).
    split_and!.
    + rewrite Hch. rewrite Hstep at 1. simpl.
      unfold sent_in_order. simpl. rewrite Ho. simpl.
      by rewrite <- (assoc_L (++)).
    + rewrite Hpc. by rewrite Hstep.
    + by rewrite Hla.
    + intros j (t & Hj & Ht). apply Hkeep. rewrite Hts1.
      destruct (decide (j = k)) as [->|Hne].
      { rewrite Hfn in Hj. by simplify_eq. }
      exists t. by rewrite list_lookup_insert_ne.
    + intros k' [->|Hk']%elem_of_cons; [by apply Hkeep|by apply Hfin].
Qed.

(** While only the caller runs, nothing is sent and no goroutine finishes. *)
Lemma hook_mains_fresh m st :
  Hook.st_errChan st = [] →
  Forall (λ t, t_status t = running) (Hook.st_tasks st) →
  let st' := Hook.exec growcap (replicate m Hook.Main) st in
  Hook.st_errChan st' = [] ∧
  Forall (λ t, t_status t = running) (Hook.st_tasks st').
Proof.
  revert st. induction m as [|m IH]; intros st Hch Hts; [done|].
  simpl. apply IH.
  - destruct st as [h r ctx p s w ch ts]. unfold Hook.main_step. simpl in *.
    destruct p as [|i| |x res|v]; simpl; try done.
    + case_decide; simpl; [done|]. by destruct ctx.
    + case_decide; simpl; [|done]. by destruct (index h s i).
    + by case_decide.
  - destruct st as [h r ctx p s w ch ts]. unfold Hook.main_step. simpl in *.
    destruct p as [|i| |x res|v]; simpl; try done.
    + case_decide; simpl; [done|]. by destruct ctx.
    + case_decide; simpl; [|done]. destruct (index h s i); simpl; [|done].
      apply Forall_app. split; [done|]. by repeat constructor.
    + by case_decide.
Qed.

End HookOrder.

(** X5.  The joined error lists the failures in the order in which the
    goroutines finished: when the caller has launched everything (live
    context), the goroutines then finish in the order [done_order] (a
    permutation of their launch indices) and the caller runs again, [Run]
    returns the join of what they sent, in that order; the outcome of the
    k-th launched goroutine is that of the k-th hook from the end. *)
Theorem X5_hook_result_in_completion_order
    (growcap : nat → nat → nat) (h : heap) (r : Hook.Registry)
    (os : list outcome) (done_order : list nat) :
  valid h (Hook.hooks r) →
  Forall2 behaves (elems h (Hook.hooks r)) os →
  Forall (λ o, o ≠ Block) os →
  done_order ≡ₚ seq 0 (length os) →
  Hook.result
    (Hook.exec growcap
       (replicate (length os + 2) Hook.Main ++ (Hook.Go <$> done_order) ++ [Hook.Main])
       (Hook.Run_begin h r None))
    = Some (Join (sent_in_order (reverse os) done_order)).
Proof.
  intros Hv Hos Hnb Hperm. set (fs := elems h (Hook.hooks r)) in *.
  assert (Hn : length fs = length os) by apply (Forall2_length Hos).
  rewrite !hook_exec_app.
  set (st0 := Hook.Run_begin h r None).
  assert (Hinv0 : hook_inv fs st0) by (by apply hook_begin_inv).
  set (st1 := Hook.exec growcap (replicate (length os + 2) Hook.Main) st0).
  assert (Hinv1 : hook_inv fs st1) by (by apply hook_exec_inv).
  destruct (hook_mains_fresh growcap (length os + 2) st0) as [Hch1 Hrun1];
    [done|constructor|]. fold st1 in Hch1, Hrun1.
  assert (Hf1 : hook_fuel st1 = 0).
  { pose proof (hook_mains_fuel growcap fs (length os + 2) st0 Hinv0).
    pose proof (hook_fuel_bound fs st0 Hinv0). fold st1 in H. lia. }
  assert (Hx1 : ∀ res, Hook.st_pc st1 ≠ Hook.Returned exit_ctx res).
  { intros res E. destruct Hinv1 as [_ _ _ _ Hpc _ _ _].
    unfold hook_pc_inv in Hpc. rewrite E in Hpc.
    destruct Hpc as (_ & Hne & Hctx & _).
    assert (Hook.st_ctx st1 = None); [|congruence].
    clear -growcap. unfold st1. generalize (length os + 2). intros m.
    assert (Hook.st_ctx st0 = None) as H0 by done. revert H0.
    generalize st0. induction m as [|m IH]; intros st H0; [done|].
    simpl. apply IH. destruct st as [h' r' ctx p s w ch ts].
    unfold Hook.main_step. simpl in *.
    destruct p as [|i| |x res|v]; simpl; try done.
    + case_decide; simpl; [done|]. by destruct ctx.
    + case_decide; simpl; [|done]. by destruct (index h' s i).
    + by case_decide. }
  pose proof (hook_launch_complete fs st1 Hinv1 Hf1 Hx1) as Hl1.
  assert (Hlen1 : length (Hook.st_tasks st1) = length os).
  { rewrite <- Hn, <- (length_fmap t_fn). fold (Hook.launched st1).
    by rewrite Hl1, length_reverse. }
  destruct (hook_gos_in_order growcap fs (reverse os) done_order st1 Hinv1)
    as (Hch2 & Hpc2 & Hl2 & _ & Hfin2).
  { rewrite Hl1. by apply Forall2_reverse. }
  { rewrite list.Forall_forall in Hnb. apply list.Forall_forall.
    intros o Ho. apply Hnb. by apply elem_of_reverse. }
  { rewrite Hperm. apply NoDup_seq. }
  { intros k Hk. rewrite Hperm in Hk. apply elem_of_seq in Hk.
    destruct (lookup_lt_is_Some_2 (Hook.st_tasks st1) k) as [[fn stt] Hfn]; [lia|].
    rewrite Forall_lookup in Hrun1. pose proof (Hrun1 _ _ Hfn) as Hr.
    simpl in Hr. subst stt. eauto. }
  set (st2 := Hook.exec growcap (Hook.Go <$> done_order) st1) in *.
  assert (Hinv2 : hook_inv fs st2) by (by apply hook_exec_inv).
  assert (Hp2 : pending (Hook.st_tasks st2) = 0).
  { apply finished_at_all. intros j Hj. apply Hfin2. rewrite Hperm.
    apply elem_of_seq.
    rewrite <- (length_fmap t_fn) in Hj. fold (Hook.launched st2) in Hj.
    rewrite Hl2, Hl1, length_reverse in Hj. lia. }
  rewrite Hch1 in Hch2. simpl in Hch2.
  destruct Hinv2 as [_ _ _ _ Hpcinv Hwg2 _ _].
  unfold hook_fuel in Hf1. rewrite <- Hpc2 in Hf1, Hx1.
  unfold hook_pc_inv in Hpcinv. simpl. unfold Hook.main_step, Hook.result.
  destruct (Hook.st_pc st2) as [|i| |x res|v] eqn:E; try lia; try done.
  - simpl in Hwg2. rewrite decide_True by lia. simpl. by rewrite Hch2.
  - simpl. rewrite E. destruct x; try done.
    + destruct Hpcinv as (-> & Hfs & _). rewrite Hfs in Hn. simpl in Hn.
      symmetry in Hn. apply nil_length_inv in Hn. subst os.
      simpl in Hperm. apply Permutation_nil_r in Hperm. by subst done_order.
    + by destruct (Hx1 res).
    + destruct Hpcinv as (_ & -> & _). by rewrite Hch2.
Qed.

(** [a], [ok], [b] are launched as [b], [ok], [a]; when the goroutine of
    [a] finishes first, the result lists [a] before [b]. *)
Lemma X5_witness :
  valid sample_heap (Hook.hooks sample_registry) ∧
  Hook.result
    (Hook.exec sample_growcap
       (replicate 5 Hook.Main ++ (Hook.Go <$> [2; 0; 1]) ++ [Hook.Main])
       (Hook.Run_begin sample_heap sample_registry None))
    = Some (Some (JoinError [ErrorString "a"; ErrorString "b"])).
Proof.
  assert (Hv : valid sample_heap (Hook.hooks sample_registry)).
  { split; [vm_compute; lia|]. eexists. split; reflexivity. }
  split; [exact Hv|].
  refine (X5_hook_result_in_completion_order sample_growcap sample_heap
    sample_registry (Return <$> sample_results) [2; 0; 1] Hv _ _ _).
  - repeat constructor.
  - repeat constructor; done.
  - simpl. apply (Permutation_cons_append [0; 1] 2).
Defined.

(** ** [Shutdown] *)

(** X6.  [Shutdown] returns in one of three situations only: the list was
    empty (nil is returned and nothing was launched); or every callback
    was launched and is over, having returned or panicked, and every error
    sent has been received, and the result is the join of these errors,
    which are those the callbacks returned; or every callback was launched
    and the context is cancelled, and the result is the join of the errors
    received and of the error of the context. *)
Theorem X6_shutdown_return_conditions
    (sd : Shutdown.shutdowner) (ctx : error) (s : list Shutdown.event)
    (res : error) :
  let st := Shutdown.exec s (Shutdown.Shutdown_begin sd ctx) in
  Shutdown.result st = Some res →
  (Shutdown.funcs sd = [] ∧ res = None ∧ Shutdown.launched st = []) ∨
  (Shutdown.launched st = reverse (Shutdown.funcs sd) ∧
   pending (Shutdown.st_tasks st) = 0 ∧ Shutdown.st_errs st = [] ∧
   Shutdown.st_shutdownErrs st
     ≡ₚ concat (Shutdown.recorded <$> Shutdown.st_tasks st) ∧
   res = Join (Shutdown.st_shutdownErrs st)) ∨
  (Shutdown.launched st = reverse (Shutdown.funcs sd) ∧
   ∃ e, Shutdown.st_ctx st = Some e ∧
        res = Join (Shutdown.st_shutdownErrs st ++ [Some e])).
Proof.
  intros st Hres.
  pose proof (shutdown_reachable sd ctx s) as [Hpc Hwg Hch _ Hcl]. fold st in Hpc, Hwg, Hch, Hcl.
  unfold Shutdown.result in Hres. unfold shutdown_pc_inv in Hpc.
  destruct (Shutdown.st_pc st) as [|i| |x r|v]; try done.
  simplify_eq. destruct x; try done.
  - left. destruct Hpc as (-> & Hfs & Hts & _). unfold Shutdown.launched.
    by rewrite Hts.
  - right; left. destruct Hpc as (Hl & -> & Hes & Hc & _).
    rewrite Hes, app_nil_r in Hch. specialize (Hcl Hc).
    split_and!; try done. lia.
  - right; right. destruct Hpc as (Hl & _ & Hctx & ->).
    split; [done|]. destruct (Shutdown.st_ctx st) as [e|]; [|done]. eauto.
Qed.

(** The run of the witness of C5 returned with the context cancelled. *)
Lemma X6_witness :
  let st :=
    Shutdown.exec
      [Shutdown.Main Shutdown.recv; Shutdown.Main Shutdown.recv;
       Shutdown.Main Shutdown.recv; Shutdown.Main Shutdown.recv;
       Shutdown.Go 0; Shutdown.Main Shutdown.recv; Shutdown.Cancel Canceled;
       Shutdown.Main Shutdown.done]
      (Shutdown.Shutdown_begin
         {| Shutdown.funcs := [sample_stuck; sample_ko "a"] |} None) in
  Shutdown.launched st = [sample_ko "a"; sample_stuck] ∧
  Shutdown.st_ctx st = Some Canceled.
Proof.
  intros st.
  destruct (X6_shutdown_return_conditions
    {| Shutdown.funcs := [sample_stuck; sample_ko "a"] |} None
    [Shutdown.Main Shutdown.recv; Shutdown.Main Shutdown.recv;
     Shutdown.Main Shutdown.recv; Shutdown.Main Shutdown.recv;
     Shutdown.Go 0; Shutdown.Main Shutdown.recv; Shutdown.Cancel Canceled;
     Shutdown.Main Shutdown.done]
    (Some (JoinError [ErrorString "a"; Canceled])) eq_refl)
    as [(Hf & _)|[(_ & Hp & _)|(Hl & e & He & _)]].
  - discriminate Hf.
  - vm_compute in Hp. discriminate Hp.
  - split; [exact Hl|reflexivity].
Defined.

Lemma shutdown_main_alive fs c st :
  shutdown_inv fs st →
  (∀ v, Shutdown.st_pc st ≠ Shutdown.Panicked v) →
  ∀ v, Shutdown.st_pc (Shutdown.step (Shutdown.Main c) st) ≠ Shutdown.Panicked v.
Proof.
  intros [Hpc _ _ _ _] Hnp v.
  destruct (shutdown_step_cases (Shutdown.Main c) st) as [(v' & E & _)|[_ ->]];
    [by destruct (Hnp v')|].
  destruct st as [s ctx p w es cl se ts]. unfold shutdown_pc_inv in Hpc.
  simpl in *. unfold Shutdown.main_step. simpl.
  destruct p as [|i| |x res|v']; simpl; try done.
  - by case_decide.
  - destruct Hpc as (Hi & _ & -> & _). case_decide; simpl; [|done].
    rewrite decide_True by lia.
    destruct (fs !! Z.to_nat i) eqn:Hfn; simpl; [done|].
    apply lookup_ge_None in Hfn. lia.
  - unfold Shutdown.can_recv, Shutdown.can_done, Shutdown.select_recv,
      Shutdown.select_done; simpl.
    destruct (negb (bool_decide (es = [])) || cl), (bool_decide (ctx ≠ None));
      simpl; try done; [destruct c|]; by destruct es.
Qed.

Lemma shutdown_budget_step fs c e st :
  shutdown_inv fs st →
  Shutdown.st_ctx st = Some e →
  shutdown_budget (length fs) (Shutdown.step (Shutdown.Main c) st)
    ≤ pred (shutdown_budget (length fs) st).
Proof.
  intros Hinv Hctx. pose proof (shutdown_channel_bound fs st Hinv) as Hb.
  destruct Hinv as [Hpc _ _ _ _].
  destruct (shutdown_step_cases (Shutdown.Main c) st) as [(v & E & ->)|[Hnp ->]].
  { unfold shutdown_budget. rewrite E. lia. }
  destruct st as [s ctx p w es cl se ts].
  unfold shutdown_budget, shutdown_pc_inv in *.
  simpl in *. subst ctx. unfold Shutdown.main_step. simpl.
  destruct p as [|i| |x res|v]; simpl.
  - destruct Hpc as (_ & -> & _). case_decide; simpl; lia.
  - destruct Hpc as (Hi & _ & -> & _). case_decide; simpl; [|lia].
    rewrite decide_True by lia.
    destruct (fs !! Z.to_nat i) eqn:Hfn; simpl; lia.
  - unfold Shutdown.can_recv, Shutdown.can_done, Shutdown.select_recv,
      Shutdown.select_done; simpl.
    destruct (negb (bool_decide (es = [])) || cl); simpl;
      [destruct c|]; destruct es; simpl; lia.
  - lia.
  - lia.
Qed.

Lemma shutdown_budget_exec fs (cs : list Shutdown.branch) e st :
  shutdown_inv fs st →
  Shutdown.st_ctx st = Some e →
  (∀ v, Shutdown.st_pc st ≠ Shutdown.Panicked v) →
  let st' := Shutdown.exec (Shutdown.Main <$> cs) st in
  shutdown_budget (length fs) st' ≤ shutdown_budget (length fs) st - length cs ∧
  (∀ v, Shutdown.st_pc st' ≠ Shutdown.Panicked v).
Proof.
  revert st. induction cs as [|c cs IH]; intros st Hinv Hctx Hnp.
  - simpl. split; [lia|done].
  - change (Shutdown.exec (Shutdown.Main <$> c :: cs) st)
      with (Shutdown.exec (Shutdown.Main <$> cs) (Shutdown.step (Shutdown.Main c) st)).
    destruct (IH (Shutdown.step (Shutdown.Main c) st)) as [Hb Hnp'].
    + by apply shutdown_step_inv.
    + by rewrite shutdown_ctx_step.
    + by eapply shutdown_main_alive.
    + split; [|done].
      pose proof (shutdown_budget_step fs c e st Hinv Hctx).
      rewrite length_cons. lia.
Qed.

Lemma shutdown_budget_bound fs st :
  shutdown_inv fs st → shutdown_budget (length fs) st ≤ 2 * length fs + 3.
Proof.
  intros Hinv. pose proof (shutdown_channel_bound fs st Hinv) as Hb.
  destruct Hinv as [Hpc _ _ _ _]. unfold shutdown_budget, shutdown_pc_inv in *.
  destruct (Shutdown.st_pc st); try lia.
Qed.

(** X7.  Once the context is cancelled, [Shutdown] returns after at most
    [2 n + 3] steps of its caller over [n] callbacks, whichever cases its
    [select] takes and whatever the callbacks are doing (provided none has
    crashed the process by a panic): it does not wait for them. *)
Theorem X7_shutdown_returns_after_cancellation
    (sd : Shutdown.shutdowner) (ctx : error) (s : list Shutdown.event)
    (cs : list Shutdown.branch) (e : err) :
  let st := Shutdown.exec s (Shutdown.Shutdown_begin sd ctx) in
  Shutdown.st_ctx st = Some e →
  (∀ v, Shutdown.st_pc st ≠ Shutdown.Panicked v) →
  2 * length (Shutdown.funcs sd) + 3 ≤ length cs →
  ∃ x res,
    Shutdown.st_pc
      (Shutdown.exec (s ++ (Shutdown.Main <$> cs)) (Shutdown.Shutdown_begin sd ctx))
      = Shutdown.Returned x res.
Proof.
  intros st Hctx Hnp Hlen. rewrite shutdown_exec_app. fold st.
  pose proof (shutdown_reachable sd ctx s) as Hinv. fold st in Hinv.
  destruct (shutdown_budget_exec _ cs e st Hinv Hctx Hnp) as [Hb Hnp'].
  pose proof (shutdown_budget_bound _ st Hinv) as Hb0.
  unfold shutdown_budget in Hb at 1.
  destruct (Shutdown.st_pc (Shutdown.exec (Shutdown.Main <$> cs) st))
    as [|i| |x res|v] eqn:E; try lia.
  - eauto.
  - by destruct (Hnp' v).
Qed.

(** A callback that never returns, a context cancelled before the call:
    five steps of the caller are enough. *)
Lemma X7_witness :
  ∃ x res,
    Shutdown.st_pc
      (Shutdown.exec
         ([] ++ (Shutdown.Main <$> [Shutdown.recv; Shutdown.recv; Shutdown.recv;
                                    Shutdown.recv; Shutdown.recv]))
         (Shutdown.Shutdown_begin {| Shutdown.funcs := [sample_stuck] |}
            (Some Canceled)))
      = Shutdown.Returned x res.
Proof.
  apply (X7_shutdown_returns_after_cancellation
           {| Shutdown.funcs := [sample_stuck] |} (Some Canceled) []
           [Shutdown.recv; Shutdown.recv; Shutdown.recv; Shutdown.recv; Shutdown.recv]
           Canceled).
  - reflexivity.
  - intros v. simpl. discriminate.
  - simpl. lia.
Defined.

(** X8.  After a [Shutdown] that returned because the channel was closed,
    the list is empty: a second [Shutdown], whatever its context and
    schedule, launches nothing and returns nil at the first step of its
    caller. *)
Theorem X8_shutdown_again_does_nothing
    (sd : Shutdown.shutdowner) (ctx ctx' : error)
    (s s' : list Shutdown.event) (res : error) :
  let st := Shutdown.exec s (Shutdown.Shutdown_begin sd ctx) in
  let st' := Shutdown.exec s' (Shutdown.Shutdown_begin (Shutdown.st_self st) ctx') in
  Shutdown.st_pc st = Shutdown.Returned exit_closed res →
  Shutdown.Len (Shutdown.st_self st) = 0%Z ∧
  Shutdown.launched st' = [] ∧
  (Shutdown.result st' = None ∨ Shutdown.result st' = Some None) ∧
  (∀ c, Shutdown.Main c ∈ s' →
        Shutdown.st_pc st' = Shutdown.Returned exit_empty None).
Proof.
  intros st st' E.
  pose proof (shutdown_reachable sd ctx s) as [Hpc _ _ _ _]. fold st in Hpc.
  unfold shutdown_pc_inv in Hpc. rewrite E in Hpc.
  destruct Hpc as (_ & _ & _ & _ & Hf).
  assert (Hidle : shutdown_idle (Shutdown.Shutdown_begin (Shutdown.st_self st) ctx')).
  { unfold shutdown_idle, Shutdown.Shutdown_begin. simpl. auto 10. }
  pose proof (shutdown_idle_exec s' _ Hidle) as (Hts & _ & _ & _ & _ & Hpc').
  fold st' in Hts, Hpc'.
  split_and!.
  - unfold Shutdown.Len. by rewrite Hf.
  - unfold Shutdown.launched. by rewrite Hts.
  - unfold Shutdown.result. destruct Hpc' as [-> | ->]; auto.
  - intros c Hc. by apply (shutdown_idle_main c).
Qed.

(** Three callbacks shut down with a live context, then a second call. *)
Lemma X8_witness :
  let st :=
    Shutdown.exec (Shutdown.finish 3)
      (Shutdown.Shutdown_begin sample_shutdowner None) in
  Shutdown.st_pc
    (Shutdown.exec [Shutdown.Main Shutdown.recv]
       (Shutdown.Shutdown_begin (Shutdown.st_self st) None))
    = Shutdown.Returned exit_empty None.
Proof.
  intros st.
  refine (proj2 (proj2 (proj2 (X8_shutdown_again_does_nothing sample_shutdowner
    None None (Shutdown.finish 3) [Shutdown.Main Shutdown.recv]
    (Some (JoinError [ErrorString "b"; ErrorString "a"])) eq_refl)))
    Shutdown.recv _).
  apply list_elem_of_here.
Defined.

(** ** [Default] of package [hook] *)

Lemma hook_AddAt_objects_length growcap r funcs m :
  length (Hook.objects (Hook.AddAt growcap r funcs m)) = length (Hook.objects m).
Proof.
  unfold Hook.AddAt. destruct (Hook.objects m !! r); [|done].
  destruct (Hook.Add growcap (Hook.arrays m) r0 funcs). simpl.
  by rewrite length_insert.
Qed.

Lemma hook_LenAt_AddAt_eq growcap r funcs m n :
  Hook.LenAt r m = Some n →
  Hook.LenAt r (Hook.AddAt growcap r funcs m) = Some (n + Z.of_nat (length funcs))%Z.
Proof.
  unfold Hook.LenAt, Hook.AddAt. destruct (Hook.objects m !! r) as [o|] eqn:Ho; [|done].
  simpl. intros [= <-]. unfold Hook.Add.
  pose proof (append_len growcap (Hook.arrays m) (Hook.hooks o) funcs) as Hl.
  destruct (append growcap (Hook.arrays m) (Hook.hooks o) funcs) as [h' s']. simpl in *.
  rewrite list_lookup_insert_eq by (by eapply lookup_lt_Some). simpl.
  unfold Hook.Len. simpl. rewrite Hl. f_equal. lia.
Qed.

Lemma hook_LenAt_AddAt_ne growcap r r' funcs m :
  r ≠ r' →
  Hook.LenAt r' (Hook.AddAt growcap r funcs m) = Hook.LenAt r' m.
Proof.
  intros Hne. unfold Hook.LenAt, Hook.AddAt.
  destruct (Hook.objects m !! r) as [o|] eqn:Ho; [|done].
  destruct (Hook.Add growcap (Hook.arrays m) o funcs). simpl.
  by rewrite list_lookup_insert_ne.
Qed.

(** X9.  [Default()] is a singleton accessor: every call returns the same
    registry, also after calls of [New] and of [Add] on any registry; the
    registry it makes at the first call is empty; and what one caller adds
    through it, the next caller finds. *)
Theorem X9_Default_returns_one_registry :
  (∀ p, HookDefault.Default (HookDefault.Default p).1 = HookDefault.Default p) ∧
  (∀ p,
     (HookDefault.Default (HookDefault.New (HookDefault.Default p).1).1).2
       = (HookDefault.Default p).2) ∧
  (∀ growcap a funcs p,
     (HookDefault.Default
        (HookDefault.AddAt growcap a funcs (HookDefault.Default p).1)).2
       = (HookDefault.Default p).2) ∧
  HookDefault.LenAt (HookDefault.Default HookDefault.package0).2
    (HookDefault.Default HookDefault.package0).1 = Some 0%Z ∧
  (∀ growcap funcs,
     let p1 := (HookDefault.Default HookDefault.package0).1 in
     let d := (HookDefault.Default HookDefault.package0).2 in
     let p2 := HookDefault.AddAt growcap d funcs p1 in
     HookDefault.LenAt (HookDefault.Default p2).2 (HookDefault.Default p2).1
       = Some (Z.of_nat (length funcs))).
Proof.
  split_and!.
  - intros [[] d m]; [done|]. unfold HookDefault.Default, HookDefault.New. simpl.
    by destruct (Hook.New m).
  - intros [[] d m]; unfold HookDefault.Default, HookDefault.New; simpl.
    + by destruct (Hook.New m).
    + destruct (Hook.New m) as [m1 r1]. simpl. by destruct (Hook.New m1).
  - intros growcap a funcs [[] d m];
      unfold HookDefault.Default, HookDefault.New, HookDefault.AddAt; simpl.
    + by destruct a.
    + destruct (Hook.New m) as [m1 r1]. simpl. by destruct a.
  - reflexivity.
  - intros growcap funcs. simpl.
    unfold HookDefault.LenAt, HookDefault.Default, HookDefault.AddAt. simpl.
    rewrite (hook_LenAt_AddAt_eq growcap 0 funcs _ 0%Z); [|reflexivity].
    f_equal.
Qed.

(** X10.  A registry made by [New()] is never the default one, before or
    after the first call of [Default()]: adding to it leaves the [Len()] of
    the default registry as it was. *)
Theorem X10_New_is_not_the_default
    (growcap : nat → nat → nat) (p : HookDefault.package) (funcs : list Callback) :
  HookDefault.wf p →
  let p1 := (HookDefault.New p).1 in
  let r := (HookDefault.New p).2 in
  HookDefault.wf p1 ∧
  HookDefault.defaultRegistry p1 ≠ Some r ∧
  (HookDefault.Default p1).2 ≠ Some r ∧
  HookDefault.wf (HookDefault.Default p1).1 ∧
  HookDefault.LenAt (Some r) p1 = Some 0%Z ∧
  (let p2 := (HookDefault.Default p1).1 in
   let d := (HookDefault.Default p1).2 in
   HookDefault.LenAt d (HookDefault.AddAt growcap (Some r) funcs p2)
     = HookDefault.LenAt d p2).
Proof.
  intros Hwf. destruct p as [once d [h objs]].
  unfold HookDefault.wf, HookDefault.New, HookDefault.Default, HookDefault.LenAt,
    HookDefault.AddAt, Hook.New, make in *. simpl in *.
  destruct d as [r0|]; simpl in *.
  - destruct Hwf as [-> Hlt]. simpl. rewrite !length_app. simpl.
    split_and!; try done; try lia.
    + intros [= ->]. lia.
    + intros [= ->]. lia.
    + unfold Hook.LenAt. simpl. by rewrite lookup_app_r, Nat.sub_diag.
    + apply hook_LenAt_AddAt_ne. lia.
  - subst once. simpl. rewrite !length_app. simpl.
    split_and!; try done; try lia.
    + intros [=]. lia.
    + unfold Hook.LenAt. simpl. by rewrite lookup_app_r, Nat.sub_diag.
    + apply hook_LenAt_AddAt_ne. lia.
Qed.

(** At program start: [r := New(); d := Default(); r.Add(ok)]. *)
Lemma X10_witness :
  HookDefault.wf HookDefault.package0 ∧
  let p1 := (HookDefault.New HookDefault.package0).1 in
  let p2 := (HookDefault.Default p1).1 in
  HookDefault.LenAt (HookDefault.Default p1).2
    (HookDefault.AddAt sample_growcap (Some 0) [sample_ok] p2) = Some 0%Z.
Proof.
  assert (Hwf : HookDefault.wf HookDefault.package0) by reflexivity.
  split; [exact Hwf|].
  exact (proj2 (proj2 (proj2 (proj2 (proj2
    (X10_New_is_not_the_default sample_growcap HookDefault.package0 [sample_ok] Hwf)))))).
Defined.

(** ** [Registry.Run] of the revision that clears *)

Lemma index_elems_Z h s (i : Z) :
  (0 ≤ i < Z.of_nat (len s))%Z → index h s i = elems h s !! Z.to_nat i.
Proof.
  intros Hi. unfold index, elems. rewrite decide_True by done.
  rewrite lookup_take_lt by lia. by destruct (h !! ptr s).
Qed.

Lemma reverse_drop_take {A} (l : list A) k :
  reverse (drop k l) = take (length l - k) (reverse l).
Proof.
  assert (H : reverse l = reverse (drop k l) ++ reverse (take k l)).
  { by rewrite <- reverse_app, take_drop. }
  rewrite H. symmetry. apply take_app_length'.
  rewrite length_reverse, length_drop. done.
Qed.

(** The nil filter and the length test before [errors.Join] change
    nothing. *)
Lemma clear_result_Join (ch : list error) :
  (if decide (length (filter (λ e : error, e ≠ None) ch) = 0)
   then None else Join (filter (λ e : error, e ≠ None) ch)) = Join ch.
Proof.
  assert (H : omap id (filter (λ e : error, e ≠ None) ch) = omap id ch).
  { induction ch as [|[e|] ch IH]; [done| |].
    - rewrite filter_cons_True by done. simpl. by f_equal.
    - rewrite filter_cons_False by (by intros ?). done. }
  unfold Join. rewrite H. case_decide as Hl; [|done].
  apply nil_length_inv in Hl. rewrite Hl in H. simpl in H. by rewrite <- H.
Qed.

Lemma recorded_pending_length (ts : list task) :
  length (concat (recorded <$> ts)) + pending ts ≤ length ts.
Proof.
  induction ts as [|t ts IH]; [done|].
  rewrite fmap_cons. change (concat (?x :: ?l)) with (x ++ concat l).
  rewrite length_app. unfold pending in *. simpl.
  destruct t as [fn [|[[e|]|v|]]]; simpl; lia.
Qed.

Section ClearRun.
Variable growcap : nat → nat → nat.

Lemma clear_begin_inv h r ctx :
  valid h (HookClear.funcs r) →
  clear_inv (elems h (HookClear.funcs r)) (HookClear.Run_begin h r ctx).
Proof.
  intros Hv. pose proof (valid_elems_length _ _ Hv) as Hlen.
  split; simpl; try done.
  intros i Hi. apply index_elems_Z. lia.
Qed.

Lemma clear_exec_app s1 s2 st :
  HookClear.exec growcap (s1 ++ s2) st
    = HookClear.exec growcap s2 (HookClear.exec growcap s1 st).
Proof. apply foldl_app. Qed.

Lemma clear_after_loop_finish fs h r ctx p s w w' ch ts k fn o :
  clear_after_loop fs (HookClear.State h r ctx p s w ch ts) →
  ts !! k = Some (Task fn running) →
  clear_after_loop fs
    (HookClear.State h r ctx p s w' (ch ++ sends o)
       (<[k := Task fn (finished o)]> ts)).
Proof.
  unfold clear_after_loop, HookClear.launched. simpl.
  intros [[Hl Hch]|(e & j & He & Hj & Hl & Hch)] Hk.
  - left. rewrite (fns_update _ _ _ _ _ Hk). split; [done|].
    rewrite recorded_finish by done. by rewrite Hch.
  - right. exists e, j. rewrite (fns_update _ _ _ _ _ Hk).
    split_and!; try done.
    rewrite recorded_finish by done. rewrite Hch. done.
Qed.

Lemma clear_main_inv fs st :
  clear_inv fs st → clear_inv fs (HookClear.main_step st).
Proof.
  intros [Hlen Hsnap Hpc Hwg Hown].
  destruct st as [h r ctx p s w ch ts]. simpl in *.
  unfold HookClear.main_step. simpl. unfold clear_pc_inv in Hpc. simpl in Hpc.
  destruct p as [|i| |x res|v]; simpl in *.
  - destruct Hpc as [-> ->]. case_decide as Hn.
    + split; simpl; try done. unfold clear_pc_inv; simpl.
      split_and!; try done. apply nil_length_inv. lia.
    + destruct ctx as [e|].
      * split; simpl; try done. unfold clear_pc_inv; simpl.
        split_and!; try done. intros ->. simpl in *. lia.
      * split; simpl; try done.
        unfold clear_pc_inv, HookClear.launched; simpl.
        split_and!; try done; try lia. by rewrite drop_ge by lia.
  - destruct Hpc as (Hi & Hl & Hch). case_decide as H0.
    + destruct ctx as [e|].
      * (* the context is cancelled: send its error and leave the loop *)
        split; simpl; try done. unfold clear_pc_inv, clear_after_loop; simpl.
        right. exists e, (length fs - Z.to_nat (i + 1)).
        unfold HookClear.launched in *. simpl in *.
        split_and!; try done; try lia.
        -- by rewrite Hl, reverse_drop_take.
        -- rewrite Hch. symmetry. apply Permutation_cons_append.
      * rewrite (Hsnap i) by lia.
        destruct (fs !! Z.to_nat i) as [fn|] eqn:Hfn.
        -- split; simpl; try done.
           ++ unfold clear_pc_inv, HookClear.launched in *; simpl in *.
              split_and!; try lia.
              ** rewrite fmap_app, Hl. simpl. by apply reverse_drop_snoc.
              ** rewrite fmap_app, concat_app. simpl. by rewrite !app_nil_r.
           ++ rewrite pending_app. unfold pending at 2. simpl. lia.
           ++ apply Forall_app. split; [done|]. by repeat constructor.
        -- apply lookup_ge_None in Hfn. lia.
    + split; simpl; try done. unfold clear_pc_inv, clear_after_loop; simpl.
      left. unfold HookClear.launched in *. simpl in *. split; [|done].
      rewrite Hl. by replace (Z.to_nat (i + 1)) with 0 by lia.
  - case_decide as Hw; [|by split].
    pose proof (clear_result_Join ch) as HJ. simpl.
    destruct (decide (length (filter (λ e : error, e ≠ None) ch) = 0)) as [Hf|Hf];
      split; simpl; try done; unfold clear_pc_inv; simpl; by split_and!.
  - by split.
  - done.
Qed.

Lemma clear_pc_inv_finish fs h r ctx p s w ch ts k fn o :
  clear_pc_inv fs (HookClear.State h r ctx p s (S w) ch ts) →
  ts !! k = Some (Task fn running) →
  clear_pc_inv fs
    (HookClear.State h r ctx p s w (ch ++ sends o)
       (<[k := Task fn (finished o)]> ts)).
Proof.
  unfold clear_pc_inv. simpl. intros Hpc Hk.
  destruct p as [|i| |[] res|]; simpl in *; try done.
  - destruct Hpc as [-> _]. done.
  - destruct Hpc as (Hi & Hl & Hch). unfold HookClear.launched in *. simpl in *.
    rewrite (fns_update _ _ _ _ _ Hk). split_and!; try done; try lia.
    rewrite recorded_finish by done. by rewrite Hch.
  - by eapply clear_after_loop_finish.
  - destruct Hpc as (_ & _ & ->). done.
  - destruct Hpc as (_ & _ & _ & ->). done.
  - destruct Hpc as (_ & ? & _). done.
Qed.

Lemma clear_go_inv fs k st :
  clear_inv fs st → clear_inv fs (HookClear.go_step k st).
Proof.
  intros [Hlen Hsnap Hpc Hwg Hown].
  destruct st as [h r ctx p s w ch ts]. simpl in *.
  unfold HookClear.go_step. simpl.
  destruct (ts !! k) as [[fn [|o]]|] eqn:Hk; try by split.
  destruct (call fn ctx) as [e|v|] eqn:Hcall; try by split.
  all: pose proof (pending_finish ts k fn (call fn ctx) Hk) as Hp.
  all: rewrite Hcall in Hp.
  all: destruct w as [|w]; [lia|].
  all: split; simpl; try done; try lia.
  all: try (rewrite <- Hcall; apply own_outcome_finish; [congruence|done]).
  - by apply (clear_pc_inv_finish fs h r ctx p s w ch ts k fn (Return e)).
  - by apply (clear_pc_inv_finish fs h r ctx p s w ch ts k fn (Panic v)).
Qed.

Lemma clear_cancel_inv fs e st :
  clear_inv fs st → clear_inv fs (HookClear.step growcap (HookClear.Cancel e) st).
Proof.
  intros [Hlen Hsnap Hpc Hwg Hown].
  destruct st as [h r ctx p s w ch ts]. simpl in *.
  destruct ctx as [e'|]; [by split|]. split; simpl; try done.
  unfold clear_pc_inv, clear_after_loop in *; simpl in *.
  destruct p as [|i| |[] res|]; simpl in *; try done.
  - destruct Hpc as [?|(e' & j & ? & _)]; [by left|done].
  - destruct Hpc as (_ & ? & ? & _). congruence.
  - destruct Hpc as ([?|(e' & j & ? & _)] & ? & ?); [|done].
    split_and!; try done. by left.
Qed.

Lemma clear_step_inv fs ev st :
  HookClear.is_add ev = false →
  clear_inv fs st → clear_inv fs (HookClear.step growcap ev st).
Proof.
  intros Hev Hinv. destruct ev as [|k|e|funcs]; try done.
  - by apply clear_main_inv.
  - by apply clear_go_inv.
  - by apply clear_cancel_inv.
Qed.

Lemma clear_exec_inv fs s st :
  Forall (λ ev, HookClear.is_add ev = false) s →
  clear_inv fs st → clear_inv fs (HookClear.exec growcap s st).
Proof.
  intros Hs. revert st. induction Hs as [|ev s Hev Hs IH]; intros st Hst; [done|].
  simpl. apply IH. by apply clear_step_inv.
Qed.

Lemma clear_reachable h r ctx s :
  valid h (HookClear.funcs r) →
  Forall (λ ev, HookClear.is_add ev = false) s →
  clear_inv (elems h (HookClear.funcs r))
    (HookClear.exec growcap s (HookClear.Run_begin h r ctx)).
Proof. intros Hv Hs. by apply clear_exec_inv, clear_begin_inv. Qed.

Lemma clear_inv_not_panicked fs st v :
  clear_inv fs st → HookClear.st_pc st ≠ HookClear.Panicked v.
Proof.
  intros [_ _ Hpc _ _] E. unfold clear_pc_inv in Hpc. by rewrite E in Hpc.
Qed.

Lemma clear_after_loop_prefix fs st :
  clear_after_loop fs st → HookClear.launched st `prefix_of` reverse fs.
Proof.
  intros [[-> _]|(e & j & _ & _ & -> & _)]; [done|].
  exists (drop j (reverse fs)). by rewrite take_drop.
Qed.

Lemma clear_launched_prefix fs st :
  clear_inv fs st → HookClear.launched st `prefix_of` reverse fs.
Proof.
  intros [_ _ Hpc _ _]. unfold clear_pc_inv in Hpc.
  destruct (HookClear.st_pc st) as [|i| |[] res|]; try done.
  - destruct Hpc as [Hts _]. unfold HookClear.launched. rewrite Hts.
    apply prefix_nil.
  - destruct Hpc as (_ & -> & _). apply reverse_drop_prefix.
  - by apply clear_after_loop_prefix.
  - destruct Hpc as (_ & _ & Hts). unfold HookClear.launched. rewrite Hts.
    apply prefix_nil.
  - destruct Hpc as (_ & _ & _ & Hts). unfold HookClear.launched. rewrite Hts.
    apply prefix_nil.
  - destruct Hpc as (? & _). by apply clear_after_loop_prefix.
Qed.

Lemma clear_inv_fns fs st :
  clear_inv fs st → Forall (λ t, t_fn t ∈ fs) (HookClear.st_tasks st).
Proof.
  intros Hinv. apply clear_launched_prefix in Hinv as [k Hk].
  unfold HookClear.launched in Hk.
  apply Forall_fmap with (P := λ f, f ∈ fs) (f := t_fn).
  apply list.Forall_forall. intros f Hf.
  apply elem_of_reverse. rewrite Hk. apply elem_of_app. by left.
Qed.

(** *** What [Run] returns after the wait *)

Lemma clear_join_result fs os st res :
  clear_inv fs st →
  Forall2 behaves fs os →
  HookClear.st_pc st = HookClear.Returned exit_join res →
  (HookClear.launched st = reverse fs ∧ aggregates res (failures os)) ∨
  (∃ e j es,
     HookClear.st_ctx st = Some e ∧ j < length fs ∧
     HookClear.launched st = take j (reverse fs) ∧
     res = Some (JoinError es) ∧
     es ≡ₚ e :: failures (take j (reverse os))).
Proof.
  intros [_ _ Hpc Hwg Hown] Hos E.
  unfold clear_pc_inv in Hpc. rewrite E in Hpc.
  destruct Hpc as (Hal & Hw & ->).
  assert (Hfin : Forall (λ t, is_finished t = true) (HookClear.st_tasks st)).
  { apply pending_0_finished. lia. }
  destruct Hal as [[Hl Hch]|(e & j & He & Hj & Hl & Hch)].
  - left. split; [done|]. apply Join_aggregates. rewrite Hch.
    rewrite (recorded_behaves _ _ (reverse os) (Forall2_reverse _ _ _ Hos) Hl Hown Hfin).
    apply failures_reverse.
  - right.
    assert (Hos' : Forall2 behaves (take j (reverse fs)) (take j (reverse os))).
    { by apply Forall2_take, Forall2_reverse. }
    assert (HP : omap id (HookClear.st_errorCh st)
                 ≡ₚ e :: failures (take j (reverse os))).
    { rewrite (recorded_behaves _ _ _ Hos' Hl Hown Hfin) in Hch.
      by rewrite Hch. }
    unfold Join. destruct (omap id (HookClear.st_errorCh st)) as [|x es] eqn:Eo.
    + by apply Permutation_nil_cons in HP.
    + exists e, j, (x :: es). split_and!; done.
Qed.

(** *** Progress *)

Lemma clear_ctx_step ev st :
  clear_is_cancel ev = false → HookClear.is_add ev = false →
  HookClear.st_ctx (HookClear.step growcap ev st) = HookClear.st_ctx st.
Proof.
  intros Hc Ha. destruct st as [h r ctx p s w ch ts].
  destruct ev as [|k|e|funcs]; simpl in *; try done.
  - unfold HookClear.main_step. simpl.
    destruct p as [|i| |x res|v]; simpl; try done.
    + case_decide; simpl; [done|]. by destruct ctx.
    + case_decide; simpl; [|done]. destruct ctx; simpl; [done|].
      by destruct (index h s i).
    + case_decide; simpl; [|done]. by case_decide.
  - unfold HookClear.go_step. simpl.
    destruct (ts !! k) as [[fn [|o]]|]; simpl; try done.
    destruct (call fn ctx); simpl; try done; by destruct w.
Qed.

Lemma clear_ctx_exec s st :
  Forall (λ ev, clear_is_cancel ev = false ∧ HookClear.is_add ev = false) s →
  HookClear.st_ctx (HookClear.exec growcap s st) = HookClear.st_ctx st.
Proof.
  intros Hs. revert st. induction Hs as [|ev s [Hc Ha] Hs IH]; intros st; [done|].
  simpl. by rewrite IH, clear_ctx_step.
Qed.

Lemma clear_finish_quiet n :
  Forall (λ ev, clear_is_cancel ev = false ∧ HookClear.is_add ev = false)
    (clear_finish n).
Proof.
  unfold clear_finish. rewrite !Forall_app. split_and!.
  - by apply Forall_replicate.
  - apply Forall_fmap, list.Forall_forall. done.
  - by repeat constructor.
Qed.

Lemma clear_finish_no_add n :
  Forall (λ ev, HookClear.is_add ev = false) (clear_finish n).
Proof.
  eapply Forall_impl; [|exact (clear_finish_quiet n)]. by intros ev [_ ?].
Qed.

Lemma clear_main_fuel fs st :
  clear_inv fs st → clear_fuel (HookClear.main_step st) ≤ pred (clear_fuel st).
Proof.
  intros [Hlen Hsnap Hpc _ _].
  destruct st as [h r ctx p s w ch ts]. unfold clear_fuel, clear_pc_inv in *.
  unfold HookClear.main_step. simpl in *.
  destruct p as [|i| |x res|v]; simpl.
  - case_decide; simpl; [lia|]. destruct ctx; simpl; lia.
  - destruct Hpc as (Hi & _). case_decide; simpl; [|lia].
    destruct ctx; simpl; [lia|]. rewrite Hsnap by lia.
    destruct (fs !! Z.to_nat i) eqn:Hfn; simpl; lia.
  - case_decide; simpl; [|lia]. case_decide; simpl; lia.
  - lia.
  - lia.
Qed.

Lemma clear_mains_fuel fs m st :
  clear_inv fs st →
  clear_fuel (HookClear.exec growcap (replicate m HookClear.Main) st)
    ≤ clear_fuel st - m.
Proof.
  revert st. induction m as [|m IH]; intros st Hst; simpl; [lia|].
  etrans; [apply IH; by apply clear_main_inv|].
  pose proof (clear_main_fuel fs st Hst). simpl. lia.
Qed.

Lemma clear_fuel_bound fs st : clear_inv fs st → clear_fuel st ≤ length fs + 2.
Proof.
  intros [Hlen _ Hpc _ _]. unfold clear_fuel, clear_pc_inv in *.
  destruct (HookClear.st_pc st); lia.
Qed.

Lemma clear_go_spec fs st k :
  clear_inv fs st →
  Forall terminating fs →
  let st' := HookClear.go_step k st in
  HookClear.st_pc st' = HookClear.st_pc st ∧
  length (HookClear.st_tasks st') = length (HookClear.st_tasks st) ∧
  (∀ j, finished_at (HookClear.st_tasks st) j →
        finished_at (HookClear.st_tasks st') j) ∧
  (k < length (HookClear.st_tasks st) → finished_at (HookClear.st_tasks st') k).
Proof.
  intros Hinv Hterm. pose proof (clear_inv_fns _ _ Hinv) as Hfns.
  destruct Hinv as [_ _ _ Hwg _].
  destruct st as [h r ctx p s w ch ts]. unfold HookClear.go_step. simpl in *.
  destruct (ts !! k) as [[fn [|o]]|] eqn:Hk.
  - assert (Hfn : terminating fn).
    { rewrite list.Forall_forall in Hterm. apply Hterm.
      rewrite Forall_lookup in Hfns. apply (Hfns _ _ Hk). }
    specialize (Hfn ctx).
    pose proof (pending_finish ts k fn (call fn ctx) Hk) as Hp.
    assert (Hlt : k < length ts) by (by eapply lookup_lt_Some).
    destruct w as [|w]; [lia|].
    destruct (call fn ctx) as [e|v|] eqn:Hcall; [| |done].
    all: simpl; rewrite length_insert; split_and!; try done.
    all: try (intros _; eexists; by rewrite list_lookup_insert_eq).
    all: intros j (t & Hj & Ht); destruct (decide (j = k)) as [->|Hne];
      [eexists; by rewrite list_lookup_insert_eq
      |exists t; by rewrite list_lookup_insert_ne].
  - simpl. split_and!; try done. intros _. by eexists.
  - simpl. split_and!; try done. intros Hlt. apply lookup_ge_None in Hk. lia.
Qed.

Lemma clear_gos fs m a st :
  clear_inv fs st →
  Forall terminating fs →
  (∀ j, j < a → j < length (HookClear.st_tasks st) →
        finished_at (HookClear.st_tasks st) j) →
  let st' := HookClear.exec growcap (HookClear.Go <$> seq a m) st in
  HookClear.st_pc st' = HookClear.st_pc st ∧
  length (HookClear.st_tasks st') = length (HookClear.st_tasks st) ∧
  (∀ j, j < a + m → j < length (HookClear.st_tasks st) →
        finished_at (HookClear.st_tasks st') j).
Proof.
  intros Hinv Hterm. revert a st Hinv.
  induction m as [|m IH]; intros a st Hinv Hfin; simpl.
  - split_and!; try done. intros j ??. apply Hfin; lia.
  - destruct (clear_go_spec fs st a Hinv Hterm) as (Hpc & Hlen & Hkeep & Hnew).
    destruct (IH (S a) (HookClear.go_step a st)) as (Hpc' & Hlen' & Hfin').
    { by apply clear_go_inv. }
    { intros j Hj Hjl. rewrite Hlen in Hjl.
      destruct (decide (j = a)) as [->|]; [by apply Hnew|].
      apply Hkeep, Hfin; lia. }
    split_and!; [exact (eq_trans Hpc' Hpc) | exact (eq_trans Hlen' Hlen) |].
    intros j Hj Hjl. apply Hfin'; lia.
Qed.

(** Whatever has happened (cancellation included), letting the caller and
    the goroutines run makes [Run] return when no hook blocks. *)
Lemma clear_finishes fs st :
  clear_inv fs st →
  Forall terminating fs →
  ∃ x res,
    HookClear.st_pc (HookClear.exec growcap (clear_finish (length fs)) st)
      = HookClear.Returned x res.
Proof.
  intros Hinv Hterm. unfold clear_finish. rewrite !clear_exec_app.
  set (st1 := HookClear.exec growcap (replicate _ HookClear.Main) st).
  assert (Hinv1 : clear_inv fs st1).
  { apply clear_exec_inv; [by apply Forall_replicate|done]. }
  assert (Hf1 : clear_fuel st1 = 0).
  { pose proof (clear_mains_fuel fs (length fs + 2) st Hinv).
    pose proof (clear_fuel_bound fs st Hinv). fold st1 in H. lia. }
  destruct (clear_gos fs (length fs) 0 st1 Hinv1 Hterm) as (Hpc & Hlen & Hfin);
    [intros; lia|].
  set (st2 := HookClear.exec growcap (HookClear.Go <$> seq 0 (length fs)) st1) in *.
  assert (Hinv2 : clear_inv fs st2).
  { apply clear_exec_inv; [|done]. apply Forall_fmap, list.Forall_forall. done. }
  pose proof (clear_launched_prefix fs st2 Hinv2) as [kk Hkk].
  assert (Hlen2 : length (HookClear.st_tasks st2) ≤ length fs).
  { apply (f_equal length) in Hkk. unfold HookClear.launched in Hkk.
    rewrite length_reverse, length_app, length_fmap in Hkk. lia. }
  simpl. unfold HookClear.main_step.
  destruct Hinv2 as [_ _ Hpc2 Hwg2 _].
  unfold clear_fuel in Hf1. rewrite <- Hpc in Hf1.
  unfold clear_pc_inv in Hpc2.
  destruct (HookClear.st_pc st2) as [|i| |x res|v] eqn:E; try lia; try done.
  - assert (pending (HookClear.st_tasks st2) = 0) as Hp.
    { apply finished_at_all. intros j Hj. apply Hfin; lia. }
    rewrite decide_True by lia. case_decide; simpl; eauto.
  - simpl. rewrite E. eauto.
Qed.

(** *** The channel *)

(** Before the launch loop and after an early return nothing has been
    sent. *)
Lemma clear_unsent_step ev st :
  (HookClear.st_tasks st = [] →
   HookClear.st_errorCh st = [] ∨ HookClear.st_pc st = HookClear.Wait ∨
   ∃ r, HookClear.st_pc st = HookClear.Returned exit_join r) →
  let st' := HookClear.step growcap ev st in
  HookClear.st_tasks st' = [] →
  HookClear.st_errorCh st' = [] ∨ HookClear.st_pc st' = HookClear.Wait ∨
  ∃ r, HookClear.st_pc st' = HookClear.Returned exit_join r.
Proof.
  destruct st as [h r ctx p s w ch ts]. simpl. intros H.
  destruct ev as [|k|e|funcs]; simpl.
  - unfold HookClear.main_step. simpl.
    destruct p as [|i| |x res|v]; simpl.
    + case_decide; simpl; [|destruct ctx; simpl].
      all: intros Hts; destruct (H Hts) as [?|[?|[? ?]]]; by auto.
    + case_decide; simpl; [|by auto]. destruct ctx; simpl; [by auto|].
      destruct (index h s i); simpl.
      * intros Hts. by destruct ts.
      * intros Hts. destruct (H Hts) as [?|[?|[? ?]]]; by auto.
    + case_decide; simpl; [|by auto]. case_decide; simpl; eauto.
    + exact H.
    + exact H.
  - unfold HookClear.go_step. simpl.
    destruct (ts !! k) as [[fn [|o]]|] eqn:Hk; simpl; try exact H.
    destruct (call fn ctx); simpl; try exact H.
    all: destruct w; simpl.
    all: intros Hts; assert (ts = []) as ->
      by (apply (f_equal length) in Hts; rewrite ?length_insert in Hts;
          by destruct ts).
    all: by rewrite lookup_nil in Hk.
  - destruct ctx; exact H.
  - unfold HookClear.Add.
    destruct (append growcap h (HookClear.funcs r) funcs). exact H.
Qed.

Lemma clear_unsent h r ctx s :
  let st := HookClear.exec growcap s (HookClear.Run_begin h r ctx) in
  HookClear.st_tasks st = [] →
  HookClear.st_errorCh st = [] ∨ HookClear.st_pc st = HookClear.Wait ∨
  ∃ r, HookClear.st_pc st = HookClear.Returned exit_join r.
Proof.
  induction s as [|ev s IH] using rev_ind; [by left|].
  rewrite clear_exec_app. simpl. by apply clear_unsent_step.
Qed.

Lemma clear_after_loop_room fs st :
  clear_after_loop fs st →
  length (HookClear.st_errorCh st) + pending (HookClear.st_tasks st) ≤ length fs.
Proof.
  pose proof (recorded_pending_length (HookClear.st_tasks st)) as Hr.
  intros [[Hl Hch]|(e & j & _ & Hj & Hl & Hch)].
  all: apply (f_equal length) in Hl; unfold HookClear.launched in Hl.
  all: rewrite (Permutation_length Hch).
  - rewrite length_fmap, length_reverse in Hl. lia.
  - rewrite length_fmap, length_take, length_reverse in Hl. simpl. lia.
Qed.

End ClearRun.

(** X11.  In the revision whose [Run] clears the registry, when no other
    goroutine adds hooks during the run and the context stays live, [Run]
    launches every hook of its snapshot, and its result after the wait is
    nil if no hook failed and otherwise one joined error holding, in some
    order, each returned error and one [hook function panic] error per
    panicking hook; if no hook blocks, [Run] does return so. *)
Theorem X11_clear_run_joins_errors_and_panics
    (growcap : nat → nat → nat) (h : heap) (r : HookClear.Registry)
    (ctx : error) (os : list outcome) (s : list HookClear.event) :
  valid h (HookClear.funcs r) →
  Forall2 behaves (elems h (HookClear.funcs r)) os →
  Forall (λ o, o ≠ Block) os →
  Forall (λ ev, HookClear.is_add ev = false) s →
  let st := HookClear.exec growcap s (HookClear.Run_begin h r ctx) in
  HookClear.st_ctx st = None →
  (∀ res, HookClear.st_pc st = HookClear.Returned exit_join res →
     HookClear.launched st = reverse (elems h (HookClear.funcs r)) ∧
     aggregates res (failures os)) ∧
  (∃ x res,
     HookClear.st_pc (HookClear.exec growcap (clear_finish (length os)) st)
       = HookClear.Returned x res ∧
     x ≠ exit_ctx ∧ aggregates res (failures os)).
Proof.
  intros Hv Hos Hnb Hs st Hctx. set (fs := elems h (HookClear.funcs r)) in *.
  assert (Hinv : clear_inv fs st) by (by apply clear_reachable).
  split.
  - intros res E.
    destruct (clear_join_result fs os st res Hinv Hos E)
      as [?|(e & j & es & He & _)]; [done|].
    rewrite Hctx in He. done.
  - rewrite <- (Forall2_length Hos).
    destruct (clear_finishes growcap fs st Hinv (behaves_terminating _ _ Hos Hnb))
      as (x & res & E).
    set (st' := HookClear.exec growcap (clear_finish (length fs)) st) in *.
    assert (Hinv' : clear_inv fs st').
    { apply clear_exec_inv; [apply clear_finish_no_add|done]. }
    assert (Hctx' : HookClear.st_ctx st' = None).
    { unfold st'. rewrite clear_ctx_exec; [done|apply clear_finish_quiet]. }
    exists x, res. split; [done|].
    pose proof (clear_inv_pc _ _ Hinv') as Hpc. unfold clear_pc_inv in Hpc.
    rewrite E in Hpc. destruct x; try done.
    + destruct Hpc as (-> & Hfs & _). split; [done|].
      rewrite Hfs in Hos. apply Forall2_nil_inv_l in Hos. by subst os.
    + destruct Hpc as (_ & Hne & Hr & _). rewrite Hctx' in Hr. done.
    + split; [done|].
      destruct (clear_join_result fs os st' res Hinv' Hos E)
        as [[_ ?]|(e & j & es & He & _)]; [done|].
      rewrite Hctx' in He. done.
Qed.

(** The hooks [first] (fails) and [ok]: the run returns, and its result
    joins the one failure. *)
Lemma X11_witness :
  valid clear_sample.1 (HookClear.funcs clear_sample.2) ∧
  ∃ x res,
    HookClear.st_pc
      (HookClear.exec sample_growcap (clear_finish 2)
         (HookClear.exec sample_growcap []
            (HookClear.Run_begin clear_sample.1 clear_sample.2 None)))
      = HookClear.Returned x res ∧
    x ≠ exit_ctx ∧
    aggregates res
      (failures [Return (Some (ErrorString "first")); Return None]).
Proof.
  assert (Hv : valid clear_sample.1 (HookClear.funcs clear_sample.2)).
  { split; [vm_compute; lia|]. eexists. split; reflexivity. }
  split; [exact Hv|].
  refine (proj2 (X11_clear_run_joins_errors_and_panics sample_growcap
    clear_sample.1 clear_sample.2 None
    [Return (Some (ErrorString "first")); Return None] [] Hv _ _ _ eq_refl)).
  - repeat constructor.
  - repeat constructor; done.
  - constructor.
Defined.

(** X12.  In the revision whose [Run] clears the registry, the launch loop
    checks the context before each launch.  When no other goroutine adds
    hooks and [Run] returns after its wait without having launched every
    hook, the context was cancelled, the hooks launched are the last [j]
    registered ones, latest first, for some [j] below the number of hooks,
    and the result is a joined error holding, in some order, the error of
    the context and the failures of those [j] hooks.  If no hook blocks,
    [Run] returns whatever happens to the context. *)
Theorem X12_clear_run_cancelled_during_launch
    (growcap : nat → nat → nat) (h : heap) (r : HookClear.Registry)
    (ctx : error) (os : list outcome) (s : list HookClear.event) :
  valid h (HookClear.funcs r) →
  Forall2 behaves (elems h (HookClear.funcs r)) os →
  Forall (λ o, o ≠ Block) os →
  Forall (λ ev, HookClear.is_add ev = false) s →
  let fs := elems h (HookClear.funcs r) in
  let st := HookClear.exec growcap s (HookClear.Run_begin h r ctx) in
  (∀ res, HookClear.st_pc st = HookClear.Returned exit_join res →
     HookClear.launched st ≠ reverse fs →
     ∃ e j es,
       HookClear.st_ctx st = Some e ∧ j < length fs ∧
       HookClear.launched st = take j (reverse fs) ∧
       res = Some (JoinError es) ∧
       es ≡ₚ e :: failures (take j (reverse os))) ∧
  (∃ x res,
     HookClear.st_pc (HookClear.exec growcap (clear_finish (length os)) st)
       = HookClear.Returned x res).
Proof.
  intros Hv Hos Hnb Hs fs st.
  assert (Hinv : clear_inv fs st) by (by apply clear_reachable).
  split.
  - intros res E Hl.
    destruct (clear_join_result fs os st res Hinv Hos E) as [[? _]|?]; done.
  - rewrite <- (Forall2_length Hos).
    exact (clear_finishes growcap fs st Hinv (behaves_terminating _ _ Hos Hnb)).
Qed.

(** The hooks [first] and [ok], the context cancelled after the launch of
    [ok]: [first] is not launched and the result holds the error of the
    context. *)
Lemma X12_witness :
  valid clear_sample.1 (HookClear.funcs clear_sample.2) ∧
  ∃ e j es,
    HookClear.st_ctx
      (HookClear.exec sample_growcap clear_cancelled_schedule
         (HookClear.Run_begin clear_sample.1 clear_sample.2 None)) = Some e ∧
    j < length (elems clear_sample.1 (HookClear.funcs clear_sample.2)) ∧
    HookClear.launched
      (HookClear.exec sample_growcap clear_cancelled_schedule
         (HookClear.Run_begin clear_sample.1 clear_sample.2 None))
      = take j (reverse (elems clear_sample.1 (HookClear.funcs clear_sample.2))) ∧
    Some (JoinError [Canceled]) = Some (JoinError es) ∧
    es ≡ₚ e :: failures
               (take j (reverse [Return (Some (ErrorString "first")); Return None])).
Proof.
  assert (Hv : valid clear_sample.1 (HookClear.funcs clear_sample.2)).
  { split; [vm_compute; lia|]. eexists. split; reflexivity. }
  split; [exact Hv|].
  refine (proj1 (X12_clear_run_cancelled_during_launch sample_growcap
    clear_sample.1 clear_sample.2 None
    [Return (Some (ErrorString "first")); Return None]
    clear_cancelled_schedule Hv _ _ _) _ eq_refl _).
  - repeat constructor.
  - repeat constructor; done.
  - repeat constructor.
  - intros H. apply (f_equal length) in H. vm_compute in H. discriminate H.
Defined.

(** X13.  In the revision whose [Run] clears the registry, a run during
    which no other goroutine adds hooks leaves the registry empty: [Len]
    is 0 afterwards, and a further [Run], at any time and with any context,
    launches nothing and returns nil at its first step. *)
Theorem X13_clear_run_runs_hooks_once
    (growcap : nat → nat → nat) (h : heap) (r : HookClear.Registry)
    (ctx ctx' : error) (s s' : list HookClear.event) :
  Forall (λ ev, HookClear.is_add ev = false) s →
  let st := HookClear.exec growcap s (HookClear.Run_begin h r ctx) in
  let st' :=
    HookClear.exec growcap s'
      (HookClear.Run_begin (HookClear.st_heap st) (HookClear.st_reg st) ctx') in
  HookClear.Len (HookClear.st_reg st) = 0%Z ∧
  HookClear.launched st' = [] ∧
  (HookClear.Main ∈ s' →
   HookClear.st_pc st' = HookClear.Returned exit_empty None).
Proof.
  intros Hs st st'.
  assert (Hreg : HookClear.st_reg st
                 = {| HookClear.funcs := reslice0 (HookClear.funcs r) |}).
  { unfold st. by rewrite clear_reg_exec. }
  assert (Hidle : clear_idle
            (HookClear.Run_begin (HookClear.st_heap st) (HookClear.st_reg st) ctx')).
  { unfold clear_idle, HookClear.Run_begin. simpl. rewrite Hreg. simpl. by auto 10. }
  split_and!.
  - by rewrite Hreg.
  - destruct (clear_idle_exec growcap s' _ Hidle) as (Hts & _).
    unfold HookClear.launched, st'. by rewrite Hts.
  - intros Hin. by apply clear_idle_main.
Qed.

(** After a full run over [first] and [ok], a second run returns nil. *)
Lemma X13_witness :
  let st :=
    HookClear.exec sample_growcap (clear_finish 2)
      (HookClear.Run_begin clear_sample.1 clear_sample.2 None) in
  HookClear.st_pc
    (HookClear.exec sample_growcap [HookClear.Main]
       (HookClear.Run_begin (HookClear.st_heap st) (HookClear.st_reg st) None))
    = HookClear.Returned exit_empty None.
Proof.
  refine (proj2 (proj2 (X13_clear_run_runs_hooks_once sample_growcap
    clear_sample.1 clear_sample.2 None None (clear_finish 2) [HookClear.Main]
    _)) _).
  - repeat constructor.
  - apply list_elem_of_here.
Defined.

Section ClearRegistry.
Variable growcap : nat → nat → nat.

Lemma clear_heap_step ev st :
  HookClear.is_add ev = false →
  HookClear.st_heap (HookClear.step growcap ev st) = HookClear.st_heap st.
Proof.
  intros Hev. destruct st as [h r ctx p s w ch ts].
  destruct ev as [|k|e'|funcs]; simpl in *; [| | |done].
  - unfold HookClear.main_step. simpl.
    destruct p as [|i| |x res|v]; simpl; try done.
    + case_decide; simpl; [done|]. by destruct ctx.
    + case_decide; simpl; [|done]. destruct ctx; simpl; [done|].
      by destruct (index h s i).
    + case_decide; simpl; [|done]. by case_decide.
  - unfold HookClear.go_step. simpl.
    destruct (ts !! k) as [[fn [|o]]|]; simpl; try done.
    destruct (call fn ctx); simpl; try done; by destruct w.
  - by destruct ctx.
Qed.

Lemma clear_registry_step ev st l :
  valid (HookClear.st_heap st) (HookClear.funcs (HookClear.st_reg st)) →
  elems (HookClear.st_heap st) (HookClear.funcs (HookClear.st_reg st)) = l →
  let st' := HookClear.step growcap ev st in
  valid (HookClear.st_heap st') (HookClear.funcs (HookClear.st_reg st')) ∧
  elems (HookClear.st_heap st') (HookClear.funcs (HookClear.st_reg st'))
    = clear_registry_after [ev] l.
Proof.
  intros Hv He st'. subst st'.
  destruct (HookClear.is_add ev) eqn:Hev.
  - destruct ev as [| | |funcs]; try done.
    destruct st as [h r ctx p s w ch ts]. simpl in *. unfold HookClear.Add.
    pose proof (append_valid growcap h _ funcs Hv) as Hv'.
    pose proof (append_elems growcap h _ funcs Hv) as He'.
    destruct (append growcap h (HookClear.funcs r) funcs) as [h' s']. simpl in *.
    by rewrite He', He.
  - rewrite clear_heap_step, (clear_reg_step growcap) by done.
    split; [done|]. by destruct ev.
Qed.

Lemma clear_registry_exec s st l :
  valid (HookClear.st_heap st) (HookClear.funcs (HookClear.st_reg st)) →
  elems (HookClear.st_heap st) (HookClear.funcs (HookClear.st_reg st)) = l →
  let st' := HookClear.exec growcap s st in
  valid (HookClear.st_heap st') (HookClear.funcs (HookClear.st_reg st')) ∧
  elems (HookClear.st_heap st') (HookClear.funcs (HookClear.st_reg st'))
    = clear_registry_after s l.
Proof.
  revert st l. induction s as [|ev s IH]; intros st l Hv He; [done|].
  destruct (clear_registry_step ev st l Hv He) as [Hv' He'].
  exact (IH _ _ Hv' He').
Qed.

End ClearRegistry.

(** X14.  In the revision whose [Run] clears the registry, whatever the
    schedule, the registry holds during and after a run exactly the hooks
    other goroutines have added since the run began, in the order of their
    addition, and [Len] is their number: [Run] empties the registry once,
    at its start, and never touches it again. *)
Theorem X14_clear_registry_holds_later_hooks
    (growcap : nat → nat → nat) (h : heap) (r : HookClear.Registry)
    (ctx : error) (s : list HookClear.event) :
  valid h (HookClear.funcs r) →
  let st := HookClear.exec growcap s (HookClear.Run_begin h r ctx) in
  valid (HookClear.st_heap st) (HookClear.funcs (HookClear.st_reg st)) ∧
  elems (HookClear.st_heap st) (HookClear.funcs (HookClear.st_reg st))
    = clear_registry_after s [] ∧
  HookClear.Len (HookClear.st_reg st)
    = Z.of_nat (length (clear_registry_after s [])).
Proof.
  intros Hv st.
  destruct (clear_registry_exec growcap s (HookClear.Run_begin h r ctx) [])
    as [Hv' He'].
  { destruct Hv as (Hle & a & Ha & Hlen). split; [simpl; lia|].
    exists a. by split. }
  { done. }
  fold st in Hv', He'. split_and!; [done|done|].
  unfold HookClear.Len. by rewrite <- He', (valid_elems_length _ _ Hv').
Qed.

(** [stuck] added during a run over [first] and [ok]: the registry holds
    [stuck] alone. *)
Lemma X14_witness :
  valid clear_sample.1 (HookClear.funcs clear_sample.2) ∧
  let st :=
    HookClear.exec sample_growcap
      [HookClear.Main; HookClear.OtherAdd [sample_stuck]; HookClear.Main]
      (HookClear.Run_begin clear_sample.1 clear_sample.2 None) in
  elems (HookClear.st_heap st) (HookClear.funcs (HookClear.st_reg st))
    = [sample_stuck].
Proof.
  assert (Hv : valid clear_sample.1 (HookClear.funcs clear_sample.2)).
  { split; [vm_compute; lia|]. eexists. split; reflexivity. }
  split; [exact Hv|].
  exact (proj1 (proj2 (X14_clear_registry_holds_later_hooks sample_growcap
    clear_sample.1 clear_sample.2 None
    [HookClear.Main; HookClear.OtherAdd [sample_stuck]; HookClear.Main] Hv))).
Defined.

(** X15.  In the revision whose [Run] clears the registry, [errorCh] has
    room for every send when no other goroutine adds hooks: the errors it
    holds and the goroutines still running are together never more than its
    capacity, the number of hooks of the snapshot, and strictly fewer at
    each iteration of the launch loop, so neither a goroutine nor the loop's
    own send of the error of the context blocks on the channel. *)
Theorem X15_clear_channel_has_room
    (growcap : nat → nat → nat) (h : heap) (r : HookClear.Registry)
    (ctx : error) (s : list HookClear.event) :
  valid h (HookClear.funcs r) →
  Forall (λ ev, HookClear.is_add ev = false) s →
  let n := length (elems h (HookClear.funcs r)) in
  let st := HookClear.exec growcap s (HookClear.Run_begin h r ctx) in
  length (HookClear.st_errorCh st) + HookClear.st_wg st ≤ n ∧
  (∀ i, HookClear.st_pc st = HookClear.Loop i → (0 ≤ i)%Z →
        length (HookClear.st_errorCh st) + HookClear.st_wg st < n).
Proof.
  intros Hv Hs n st. set (fs := elems h (HookClear.funcs r)) in *.
  assert (Hinv : clear_inv fs st) by (by apply clear_reachable).
  pose proof (clear_unsent growcap h r ctx s) as Hun. simpl in Hun. fold st in Hun.
  pose proof (recorded_pending_length (HookClear.st_tasks st)) as Hr.
  destruct Hinv as [_ _ Hpc Hwg _]. unfold clear_pc_inv in Hpc. rewrite Hwg.
  assert (Hearly : HookClear.st_tasks st = [] → HookClear.st_errorCh st = [] →
                   length (HookClear.st_errorCh st)
                     + pending (HookClear.st_tasks st) ≤ n).
  { intros -> ->. simpl. lia. }
  destruct (HookClear.st_pc st) as [|i| |[] res|] eqn:E; try done.
  - destruct Hpc as [Hts Hch]. split; [by apply Hearly|done].
  - destruct Hpc as (Hi & Hl & Hch).
    apply (f_equal length) in Hl. unfold HookClear.launched in Hl.
    rewrite length_fmap, length_reverse, length_drop in Hl.
    rewrite (Permutation_length Hch). fold n in Hi, Hl.
    split; [lia|]. intros i' [= <-] Hi'. lia.
  - split; [by apply clear_after_loop_room|done].
  - destruct Hpc as (_ & _ & Hts). split; [|done]. apply Hearly; [done|].
    destruct (Hun Hts) as [?|[?|[? ?]]]; done.
  - destruct Hpc as (_ & _ & _ & Hts). split; [|done]. apply Hearly; [done|].
    destruct (Hun Hts) as [?|[?|[? ?]]]; done.
  - destruct Hpc as (? & _). split; [by apply clear_after_loop_room|done].
Qed.

(** The hooks [first] and [ok], the context cancelled after the launch of
    [ok]: the channel never holds more than two errors. *)
Lemma X15_witness :
  valid clear_sample.1 (HookClear.funcs clear_sample.2) ∧
  let st :=
    HookClear.exec sample_growcap clear_cancelled_schedule
      (HookClear.Run_begin clear_sample.1 clear_sample.2 None) in
  length (HookClear.st_errorCh st) + HookClear.st_wg st
    ≤ length (elems clear_sample.1 (HookClear.funcs clear_sample.2)).
Proof.
  assert (Hv : valid clear_sample.1 (HookClear.funcs clear_sample.2)).
  { split; [vm_compute; lia|]. eexists. split; reflexivity. }
  split; [exact Hv|].
  refine (proj1 (X15_clear_channel_has_room sample_growcap
    clear_sample.1 clear_sample.2 None clear_cancelled_schedule Hv _)).
  repeat constructor.
Defined.

(** X16.  The error channels have room for every send: in [Registry.Run]
    and in [Shutdown], under every schedule, the errors in the channel and
    the goroutines launched and not yet finished are together never more
    than the capacity of the channel, the number of callbacks.  So no
    goroutine blocks on its send, also when [Shutdown] has returned on the
    cancellation of its context and receives no more. *)
Theorem X16_error_channels_have_room
    (growcap : nat → nat → nat) (h : heap) (r : Hook.Registry)
    (sd : Shutdown.shutdowner) (ctx ctx' : error)
    (s : list Hook.event) (s' : list Shutdown.event) :
  valid h (Hook.hooks r) →
  let st := Hook.exec growcap s (Hook.Run_begin h r ctx) in
  let st' := Shutdown.exec s' (Shutdown.Shutdown_begin sd ctx') in
  length (Hook.st_errChan st) + pending (Hook.st_tasks st)
    ≤ length (elems h (Hook.hooks r)) ∧
  length (Shutdown.st_errs st') + pending (Shutdown.st_tasks st')
    ≤ length (Shutdown.funcs sd).
Proof.
  intros Hv st st'. split.
  - pose proof (hook_reachable growcap h r ctx s Hv) as Hinv. fold st in Hinv.
    pose proof (hook_launched_prefix _ st Hinv) as [k Hk].
    pose proof (recorded_pending_length (Hook.st_tasks st)) as Hr.
    destruct Hinv as [_ _ _ _ _ _ Hch _].
    rewrite (Permutation_length Hch).
    apply (f_equal length) in Hk. unfold Hook.launched in Hk.
    rewrite length_reverse, length_app, length_fmap in Hk. lia.
  - pose proof (shutdown_reachable sd ctx' s') as [Hpc _ Hch _ _]. fold st' in Hpc, Hch.
    apply shutdown_pc_prefix in Hpc as [k Hk].
    pose proof (Permutation_length Hch) as Hl. rewrite length_app in Hl.
    pose proof (shutdown_recorded_room (Shutdown.st_tasks st')) as Hr.
    apply (f_equal length) in Hk. unfold Shutdown.launched in Hk.
    rewrite length_reverse, length_app, length_fmap in Hk. lia.
Qed.

(** A full run over [a; ok; b]: two errors in a channel of capacity 3. *)
Lemma X16_witness :
  valid sample_heap (Hook.hooks sample_registry) ∧
  length
    (Hook.st_errChan
       (Hook.exec sample_growcap (Hook.finish 3)
          (Hook.Run_begin sample_heap sample_registry None)))
  + pending
      (Hook.st_tasks
         (Hook.exec sample_growcap (Hook.finish 3)
            (Hook.Run_begin sample_heap sample_registry None)))
  ≤ length (elems sample_heap (Hook.hooks sample_registry)).
Proof.
  assert (Hv : valid sample_heap (Hook.hooks sample_registry)).
  { split; [vm_compute; lia|]. eexists. split; reflexivity. }
  split; [exact Hv|].
  exact (proj1 (X16_error_channels_have_room sample_growcap sample_heap
    sample_registry sample_shutdowner None None (Hook.finish 3) [] Hv)).
Defined.

Lemma shutdown_mains_alive fs m c st :
  shutdown_inv fs st →
  (∀ v, Shutdown.st_pc st ≠ Shutdown.Panicked v) →
  ∀ v, Shutdown.st_pc (Shutdown.exec (replicate m (Shutdown.Main c)) st)
       ≠ Shutdown.Panicked v.
Proof.
  revert st. induction m as [|m IH]; intros st Hinv Hnp; [done|].
  simpl. apply IH; [by apply shutdown_step_inv|].
  by apply (shutdown_main_alive fs).
Qed.

(** X17.  A [Shutdown] that returns because its context is cancelled keeps
    the callbacks registered, so calling [Shutdown] again launches every
    one of them again, the last registered first, also those still running
    from the first call. *)
Theorem X17_shutdown_after_cancellation_launches_again
    (sd : Shutdown.shutdowner) (ctx ctx' : error) (s : list Shutdown.event)
    (res : error) :
  let st := Shutdown.exec s (Shutdown.Shutdown_begin sd ctx) in
  let st' :=
    Shutdown.exec
      (replicate (length (Shutdown.funcs sd) + 2) (Shutdown.Main Shutdown.recv))
      (Shutdown.Shutdown_begin (Shutdown.st_self st) ctx') in
  Shutdown.st_pc st = Shutdown.Returned exit_done res →
  Shutdown.Len (Shutdown.st_self st) = Z.of_nat (length (Shutdown.funcs sd)) ∧
  Shutdown.launched st' = reverse (Shutdown.funcs sd).
Proof.
  intros st st' E.
  pose proof (shutdown_reachable sd ctx s) as [Hpc _ _ _ _]. fold st in Hpc.
  unfold shutdown_pc_inv in Hpc. rewrite E in Hpc.
  destruct Hpc as (_ & Hfs & _).
  split; [unfold Shutdown.Len; by rewrite Hfs|].
  set (st0 := Shutdown.Shutdown_begin (Shutdown.st_self st) ctx') in *.
  assert (Hinv0 : shutdown_inv (Shutdown.funcs sd) st0).
  { rewrite <- Hfs. apply shutdown_begin_inv. }
  assert (Hinv' : shutdown_inv (Shutdown.funcs sd) st')
    by (by apply shutdown_exec_inv).
  assert (Hf : shutdown_fuel st' = 0).
  { pose proof (shutdown_mains_fuel _ (length (Shutdown.funcs sd) + 2) st0 Hinv0).
    pose proof (shutdown_fuel_bound _ st0 Hinv0). fold st' in H. lia. }
  destruct (shutdown_launch_complete _ st' Hinv' Hf) as [[v Hp]|?]; [|done].
  exfalso. revert Hp.
  by apply (shutdown_mains_alive (Shutdown.funcs sd)).
Qed.

(** Three callbacks launched, the context cancelled before any has run:
    the second [Shutdown] launches the three again. *)
Lemma X17_witness :
  let st :=
    Shutdown.exec shutdown_cancelled_schedule
      (Shutdown.Shutdown_begin sample_shutdowner None) in
  Shutdown.launched
    (Shutdown.exec (replicate 5 (Shutdown.Main Shutdown.recv))
       (Shutdown.Shutdown_begin (Shutdown.st_self st) None))
    = [sample_ko "b"; sample_ok; sample_ko "a"].
Proof.
  exact (proj2 (X17_shutdown_after_cancellation_launches_again
    sample_shutdowner None None shutdown_cancelled_schedule
    (Some (JoinError [Canceled])) eq_refl)).
Defined.
